(** * miniWeather (serial build): a shallow embedding of the stencil engine

    The development follows [miniWeather_serial.cpp].  The program works on
    C [double]s; every kernel is written once, over an interface [Arith]
    of the arithmetic it uses, so that

    - statements about data movement (halos, aliasing, frames) are proved
      for every arithmetic, IEEE binary64 included;
    - algebraic statements (conservation) are proved for the exact real
      numbers;
    - what a division by zero does to a step is proved for binary64, from
      the specification of the kernel's primitive floats;
    - concrete runs in binary64 are evaluated with the kernel's primitive
      floats.

    The four heap blocks [state], [state_tmp], [flux] and [tend] are flat
    arrays addressed through pointers; a pointer is the name of its block,
    so two pointer arguments alias exactly when they are equal. *)

From Stdlib Require Import ZArith Reals Lra Lia Floats Classical.
From stdpp Require Import base list.

(** ** The arithmetic of the program *)

Class Arith := {
  F : Type;
  fadd : F -> F -> F;
  fsub : F -> F -> F;
  fmul : F -> F -> F;
  fdiv : F -> F -> F;
  fneg : F -> F;
  (** conversion of an [int] to [double] *)
  of_int : Z -> F;
  (** the decimal literal [m * 10^e] *)
  dec : Z -> Z -> F;
  (** [a <= b] and [a < b] *)
  fle : F -> F -> bool;
  flt : F -> F -> bool;
  (** [math.h] *)
  fsqrt : F -> F;
  fcos : F -> F;
  fexp : F -> F;
  ffabs : F -> F;
  fpow : F -> F -> F
}.

Declare Scope fl_scope.
Delimit Scope fl_scope with fl.
Infix "+" := fadd : fl_scope.
Infix "-" := fsub : fl_scope.
Infix "*" := fmul : fl_scope.
Infix "/" := fdiv : fl_scope.
Notation "- x" := (fneg x) : fl_scope.
Notation "# z" := (of_int z%Z) (at level 1, format "# z") : fl_scope.

(** Pointers to the four heap blocks allocated by [init]. *)
Inductive ptr := Pstate | Pstate_tmp | Pflux | Ptend.

#[global] Instance ptr_eq_dec : EqDecision ptr.
Proof. solve_decision. Defined.

(** The compile-time parameters [_NX], [_NZ], [_SIM_TIME], [_OUT_FREQ] and
    [_DATA_SPEC]. *)
Record config `{Arith} := Config {
  nx_glob : nat;
  nz_glob : nat;
  sim_time : F;
  output_freq : F;
  data_spec_int : Z
}.

(** The variables "that are initialized but remain static over the course
    of the simulation" (without [dt], which the driver clamps). *)
Record env `{Arith} := Env {
  nx : nat;
  nz : nat;
  i_beg : nat;
  k_beg : nat;
  nranks : Z;
  myrank : Z;
  left_rank : Z;
  right_rank : Z;
  hy_dens_cell : list F;
  hy_dens_theta_cell : list F;
  hy_dens_int : list F;
  hy_dens_theta_int : list F;
  hy_pressure_int : list F
}.

(** The heap: the contents of the four blocks. *)
Record mem `{Arith} := Mem {
  m_state : list F;
  m_state_tmp : list F;
  m_flux : list F;
  m_tend : list F
}.

(** A counted loop [for (i = 0; i < n; i++) body]. *)
Fixpoint for_ {S : Type} (n : nat) (body : nat -> S -> S) (s : S) : S :=
  match n with
  | O => s
  | Datatypes.S n' => body n' (for_ n' body s)
  end.

Section Program.
Context `{A : Arith}.
Local Open Scope fl_scope.

(** *** Constants *)

Definition pi : F := dec 314159265358979323846264338327 (-29).
Definition grav : F := dec 98 (-1).
Definition cp : F := #1004.
Definition cv : F := #717.
Definition rd : F := #287.
Definition p0 : F := #100000.
Definition C0 : F := dec 275629410929725921310572974482 (-28).
Definition gamm : F := dec 140027894002789400278940027894 (-29).

Definition xlen : F := #20000.
Definition zlen : F := #10000.
Definition hv_beta : F := dec 5 (-2).
Definition cfl : F := dec 150 (-2).
Definition max_speed : F := #450.
Definition hs : nat := 2.
Definition sten_size : nat := 4.

Definition NUM_VARS : nat := 4.
Definition ID_DENS : nat := 0.
Definition ID_UMOM : nat := 1.
Definition ID_WMOM : nat := 2.
Definition ID_RHOT : nat := 3.

Definition DIR_X : Z := 1.
Definition DIR_Z : Z := 2.

Definition DATA_SPEC_COLLISION : Z := 1.
Definition DATA_SPEC_THERMAL : Z := 2.
Definition DATA_SPEC_GRAVITY_WAVES : Z := 3.
Definition DATA_SPEC_DENSITY_CURRENT : Z := 5.
Definition DATA_SPEC_INJECTION : Z := 6.

Definition nqpoints : nat := 3.
Definition qpoints : list F :=
  [ dec 112701665379258311482073460022 (-30);
    dec 500000000000000000000000000000 (-30);
    dec 887298334620741688517926539980 (-30) ].
Definition qweights : list F :=
  [ dec 277777777777777777777777777779 (-30);
    dec 444444444444444444444444444444 (-30);
    dec 277777777777777777777777777779 (-30) ].

Variable cfg : config.

Definition dx : F := xlen / #(Z.of_nat (nx_glob cfg)).
Definition dz : F := zlen / #(Z.of_nat (nz_glob cfg)).

Definition dmin (a b : F) : F := if flt a b then a else b.

(** *** Memory *)

(** [a[i]] for one of the read-only profile arrays. *)
Definition at_ (a : list F) (i : nat) : F := nth i a #0.

Definition buf (m : mem) (p : ptr) : list F :=
  match p with
  | Pstate => m_state m
  | Pstate_tmp => m_state_tmp m
  | Pflux => m_flux m
  | Ptend => m_tend m
  end.

Definition setbuf (m : mem) (p : ptr) (l : list F) : mem :=
  match p with
  | Pstate => Mem _ l (m_state_tmp m) (m_flux m) (m_tend m)
  | Pstate_tmp => Mem _ (m_state m) l (m_flux m) (m_tend m)
  | Pflux => Mem _ (m_state m) (m_state_tmp m) l (m_tend m)
  | Ptend => Mem _ (m_state m) (m_state_tmp m) (m_flux m) l
  end.

(** [p[i]] *)
Definition ld (m : mem) (p : ptr) (i : nat) : F := nth i (buf m p) #0.

(** [p[i] = v] *)
Definition st (m : mem) (p : ptr) (i : nat) (v : F) : mem :=
  setbuf m p (<[i:=v]> (buf m p)).

Variable e : env.

(** Flat indices of the state (padded), flux and tendency arrays. *)
Definition sidx (ll k i : nat) : nat :=
  ll * (nz e + 2 * hs) * (nx e + 2 * hs) + k * (nx e + 2 * hs) + i.
Definition fidx (ll k i : nat) : nat :=
  ll * (nz e + 1) * (nx e + 1) + k * (nx e + 1) + i.
Definition tidx (ll k i : nat) : nat :=
  ll * nz e * nx e + k * nx e + i.

(** *** Flux and tendency kernels *)

(** Fourth-order interpolation and third-derivative proxy of a stencil. *)
Definition interp4 (s0 s1 s2 s3 : F) : F :=
  (((- s0) / #12 + (#7 * s1) / #12) + (#7 * s2) / #12) - s3 / #12.
Definition deriv3 (s0 s1 s2 s3 : F) : F :=
  (((- s0) + #3 * s1) - #3 * s2) + s3.

Definition hv_coef_x (dt : F) : F := ((- hv_beta) * dx) / (#16 * dt).
Definition hv_coef_z (dt : F) : F := ((- hv_beta) * dz) / (#16 * dt).

(** The body of the flux loop of [compute_tendencies_x] at [(k,i)]. *)
Definition flux_x_body (state flux : ptr) (dt : F) (k i : nat) (m : mem) : mem :=
  let stencil ll s := ld m state (sidx ll (k + hs) (i + s)) in
  let vals ll := interp4 (stencil ll 0) (stencil ll 1) (stencil ll 2) (stencil ll 3) in
  let d3_vals ll := deriv3 (stencil ll 0) (stencil ll 1) (stencil ll 2) (stencil ll 3) in
  let hv_coef := hv_coef_x dt in
  let r := vals ID_DENS + at_ (hy_dens_cell e) (k + hs) in
  let u := vals ID_UMOM / r in
  let w := vals ID_WMOM / r in
  let t := (vals ID_RHOT + at_ (hy_dens_theta_cell e) (k + hs)) / r in
  let p := C0 * fpow (r * t) gamm in
  let m := st m flux (fidx ID_DENS k i) (r * u - hv_coef * d3_vals ID_DENS) in
  let m := st m flux (fidx ID_UMOM k i) ((r * u * u + p) - hv_coef * d3_vals ID_UMOM) in
  let m := st m flux (fidx ID_WMOM k i) (r * u * w - hv_coef * d3_vals ID_WMOM) in
  st m flux (fidx ID_RHOT k i) (r * u * t - hv_coef * d3_vals ID_RHOT).

Definition tend_x_body (flux tend : ptr) (ll k i : nat) (m : mem) : mem :=
  st m tend (tidx ll k i)
     ((- (ld m flux (fidx ll k (i + 1)) - ld m flux (fidx ll k i))) / dx).

Definition compute_tendencies_x (state flux tend : ptr) (dt : F) (m : mem) : mem :=
  let m := for_ (nz e) (fun k => for_ (nx e + 1) (fun i => flux_x_body state flux dt k i)) m in
  for_ NUM_VARS (fun ll =>
    for_ (nz e) (fun k =>
      for_ (nx e) (fun i => tend_x_body flux tend ll k i))) m.

(** The body of the flux loop of [compute_tendencies_z] at [(k,i)]. *)
Definition flux_z_body (state flux : ptr) (dt : F) (k i : nat) (m : mem) : mem :=
  let stencil ll s := ld m state (sidx ll (k + s) (i + hs)) in
  let vals ll := interp4 (stencil ll 0) (stencil ll 1) (stencil ll 2) (stencil ll 3) in
  let d3_vals ll := deriv3 (stencil ll 0) (stencil ll 1) (stencil ll 2) (stencil ll 3) in
  let hv_coef := hv_coef_z dt in
  let r := vals ID_DENS + at_ (hy_dens_int e) k in
  let u := vals ID_UMOM / r in
  let w := vals ID_WMOM / r in
  let t := (vals ID_RHOT + at_ (hy_dens_theta_int e) k) / r in
  let p := C0 * fpow (r * t) gamm - at_ (hy_pressure_int e) k in
  let bnd := orb (Nat.eqb k 0) (Nat.eqb k (nz e)) in
  let w := if bnd then #0 else w in
  let d3_dens := if bnd then #0 else d3_vals ID_DENS in
  let m := st m flux (fidx ID_DENS k i) (r * w - hv_coef * d3_dens) in
  let m := st m flux (fidx ID_UMOM k i) (r * w * u - hv_coef * d3_vals ID_UMOM) in
  let m := st m flux (fidx ID_WMOM k i) ((r * w * w + p) - hv_coef * d3_vals ID_WMOM) in
  st m flux (fidx ID_RHOT k i) (r * w * t - hv_coef * d3_vals ID_RHOT).

Definition tend_z_body (state flux tend : ptr) (ll k i : nat) (m : mem) : mem :=
  let m := st m tend (tidx ll k i)
              ((- (ld m flux (fidx ll (k + 1) i) - ld m flux (fidx ll k i))) / dz) in
  if Nat.eqb ll ID_WMOM
  then st m tend (tidx ll k i)
          (ld m tend (tidx ll k i) - ld m state (sidx ID_DENS (k + hs) (i + hs)) * grav)
  else m.

Definition compute_tendencies_z (state flux tend : ptr) (dt : F) (m : mem) : mem :=
  let m := for_ (nz e + 1) (fun k => for_ (nx e) (fun i => flux_z_body state flux dt k i)) m in
  for_ NUM_VARS (fun ll =>
    for_ (nz e) (fun k =>
      for_ (nx e) (fun i => tend_z_body state flux tend ll k i))) m.

(** *** Halo manager *)

Definition halo_x_body (state : ptr) (ll k : nat) (m : mem) : mem :=
  let m := st m state (sidx ll (k + hs) 0) (ld m state (sidx ll (k + hs) (nx e + hs - 2))) in
  let m := st m state (sidx ll (k + hs) 1) (ld m state (sidx ll (k + hs) (nx e + hs - 1))) in
  let m := st m state (sidx ll (k + hs) (nx e + hs)) (ld m state (sidx ll (k + hs) hs)) in
  st m state (sidx ll (k + hs) (nx e + hs + 1)) (ld m state (sidx ll (k + hs) (hs + 1))).

(** The height test of the injection band, [fabs(z-3*zlen/4) <= zlen/16]. *)
Definition in_band (k : nat) : bool :=
  let z := (#(Z.of_nat (k_beg e + k)) + dec 5 (-1)) * dz in
  fle (ffabs (z - (#3 * zlen) / #4)) (zlen / #16).

Definition injection_body (state : ptr) (k i : nat) (m : mem) : mem :=
  if in_band k then
    let ind_r := sidx ID_DENS (k + hs) i in
    let ind_u := sidx ID_UMOM (k + hs) i in
    let ind_t := sidx ID_RHOT (k + hs) i in
    let m := st m state ind_u ((ld m state ind_r + at_ (hy_dens_cell e) (k + hs)) * #50) in
    st m state ind_t
       ((ld m state ind_r + at_ (hy_dens_cell e) (k + hs)) * #298
        - at_ (hy_dens_theta_cell e) (k + hs))
  else m.

Definition set_halo_values_x (state : ptr) (m : mem) : mem :=
  let m := for_ NUM_VARS (fun ll => for_ (nz e) (fun k => halo_x_body state ll k)) m in
  if Z.eqb (data_spec_int cfg) DATA_SPEC_INJECTION then
    if Z.eqb (myrank e) 0 then
      for_ (nz e) (fun k => for_ hs (fun i => injection_body state k i)) m
    else m
  else m.

Definition halo_z_body (state : ptr) (ll i : nat) (m : mem) : mem :=
  if Nat.eqb ll ID_WMOM then
    let m := st m state (sidx ll 0 i) #0 in
    let m := st m state (sidx ll 1 i) #0 in
    let m := st m state (sidx ll (nz e + hs) i) #0 in
    st m state (sidx ll (nz e + hs + 1) i) #0
  else if Nat.eqb ll ID_UMOM then
    let m := st m state (sidx ll 0 i)
      (ld m state (sidx ll hs i) / at_ (hy_dens_cell e) hs * at_ (hy_dens_cell e) 0) in
    let m := st m state (sidx ll 1 i)
      (ld m state (sidx ll hs i) / at_ (hy_dens_cell e) hs * at_ (hy_dens_cell e) 1) in
    let m := st m state (sidx ll (nz e + hs) i)
      (ld m state (sidx ll (nz e + hs - 1) i) / at_ (hy_dens_cell e) (nz e + hs - 1)
       * at_ (hy_dens_cell e) (nz e + hs)) in
    st m state (sidx ll (nz e + hs + 1) i)
      (ld m state (sidx ll (nz e + hs - 1) i) / at_ (hy_dens_cell e) (nz e + hs - 1)
       * at_ (hy_dens_cell e) (nz e + hs + 1))
  else
    let m := st m state (sidx ll 0 i) (ld m state (sidx ll hs i)) in
    let m := st m state (sidx ll 1 i) (ld m state (sidx ll hs i)) in
    let m := st m state (sidx ll (nz e + hs) i) (ld m state (sidx ll (nz e + hs - 1) i)) in
    st m state (sidx ll (nz e + hs + 1) i) (ld m state (sidx ll (nz e + hs - 1) i)).

Definition set_halo_values_z (state : ptr) (m : mem) : mem :=
  for_ NUM_VARS (fun ll => for_ (nx e + 2 * hs) (fun i => halo_z_body state ll i)) m.

(** *** Time integrator *)

(** The inlined [sample_ellipse_cosine] of the gravity-wave forcing. *)
Definition wpert_at (k i : nat) : F :=
  let x := (#(Z.of_nat (i_beg e + i)) + dec 5 (-1)) * dx in
  let z := (#(Z.of_nat (k_beg e + k)) + dec 5 (-1)) * dz in
  let x0 := xlen / #8 in
  let z0 := #1000 in
  let xrad := #500 in
  let zrad := #500 in
  let amp := dec 1 (-2) in
  let dist := fsqrt (((x - x0) / xrad) * ((x - x0) / xrad)
                     + ((z - z0) / zrad) * ((z - z0) / zrad)) * pi / #2 in
  if fle dist (pi / #2) then amp * fpow (fcos dist) #2 else #0.

Definition update_body (state_init state_out tend : ptr) (dt : F)
    (ll k i : nat) (m : mem) : mem :=
  let m :=
    if Z.eqb (data_spec_int cfg) DATA_SPEC_GRAVITY_WAVES then
      let indw := tidx ID_WMOM k i in
      st m tend indw (ld m tend indw + wpert_at k i * at_ (hy_dens_cell e) (hs + k))
    else m in
  let inds := sidx ll (k + hs) (i + hs) in
  let indt := tidx ll k i in
  st m state_out inds (ld m state_init inds + dt * ld m tend indt).

Definition semi_discrete_step (state_init state_forcing state_out : ptr) (dt : F)
    (dir : Z) (flux tend : ptr) (m : mem) : mem :=
  let m :=
    if Z.eqb dir DIR_X then
      compute_tendencies_x state_forcing flux tend dt (set_halo_values_x state_forcing m)
    else if Z.eqb dir DIR_Z then
      compute_tendencies_z state_forcing flux tend dt (set_halo_values_z state_forcing m)
    else m in
  for_ NUM_VARS (fun ll =>
    for_ (nz e) (fun k =>
      for_ (nx e) (fun i => update_body state_init state_out tend dt ll k i))) m.

(** [perform_timestep] also updates the global [direction_switch], which is
    threaded through as the second component. *)
Definition perform_timestep (state state_tmp flux tend : ptr) (dt : F)
    (s : mem * Z) : mem * Z :=
  let '(m, direction_switch) := s in
  let m :=
    if negb (Z.eqb direction_switch 0) then
      let m := semi_discrete_step state state state_tmp (dt / #3) DIR_X flux tend m in
      let m := semi_discrete_step state state_tmp state_tmp (dt / #2) DIR_X flux tend m in
      let m := semi_discrete_step state state_tmp state (dt / #1) DIR_X flux tend m in
      let m := semi_discrete_step state state state_tmp (dt / #3) DIR_Z flux tend m in
      let m := semi_discrete_step state state_tmp state_tmp (dt / #2) DIR_Z flux tend m in
      semi_discrete_step state state_tmp state (dt / #1) DIR_Z flux tend m
    else
      let m := semi_discrete_step state state state_tmp (dt / #3) DIR_Z flux tend m in
      let m := semi_discrete_step state state_tmp state_tmp (dt / #2) DIR_Z flux tend m in
      let m := semi_discrete_step state state_tmp state (dt / #1) DIR_Z flux tend m in
      let m := semi_discrete_step state state state_tmp (dt / #3) DIR_X flux tend m in
      let m := semi_discrete_step state state_tmp state_tmp (dt / #2) DIR_X flux tend m in
      semi_discrete_step state state_tmp state (dt / #1) DIR_X flux tend m in
  (m, if negb (Z.eqb direction_switch 0) then 0%Z else 1%Z).


(** *** Conservation reducer *)

(** One cell of [reductions]: the accumulators [(mass, te)] after cell
    [(k,i)].  [reductions] reads the global [state], not a pointer
    argument. *)
Definition reductions_body (m : mem) (k i : nat) (acc : F * F) : F * F :=
  let ind_r := sidx ID_DENS (k + hs) (i + hs) in
  let ind_u := sidx ID_UMOM (k + hs) (i + hs) in
  let ind_w := sidx ID_WMOM (k + hs) (i + hs) in
  let ind_t := sidx ID_RHOT (k + hs) (i + hs) in
  let r := ld m Pstate ind_r + at_ (hy_dens_cell e) (hs + k) in
  let u := ld m Pstate ind_u / r in
  let w := ld m Pstate ind_w / r in
  let th := (ld m Pstate ind_t + at_ (hy_dens_theta_cell e) (hs + k)) / r in
  let p := C0 * fpow (r * th) gamm in
  let t := th / fpow (p0 / p) (rd / cp) in
  let ke := r * (u * u + w * w) in
  let ie := r * cv * t in
  (fst acc + r * dx * dz, snd acc + (ke + ie) * dx * dz).

(** The serial build runs on one rank, so the all-reduce returns the local
    sums. *)
Definition reductions (m : mem) : F * F :=
  for_ (nz e) (fun k => for_ (nx e) (fun i => reductions_body m k i)) (#0, #0).

End Program.

(** ** Initial conditions *)

(** The six outputs [r], [u], [w], [t], [hr], [ht] of a scenario routine. *)
Record sample `{Arith} := Sample {
  s_r : F; s_u : F; s_w : F; s_t : F; s_hr : F; s_ht : F
}.

Section Init.
Context `{A : Arith}.
Local Open Scope fl_scope.

Definition hydro_const_theta (z : F) : F * F :=
  let theta0 := #300 in
  let exner0 := #1 in
  let t := theta0 in
  let exner := exner0 - (grav * z) / (cp * theta0) in
  let p := p0 * fpow exner (cp / rd) in
  let rt := fpow (p / C0) (#1 / gamm) in
  let r := rt / t in
  (r, t).

Definition hydro_const_bvfreq (z bv_freq0 : F) : F * F :=
  let theta0 := #300 in
  let exner0 := #1 in
  let t := theta0 * fexp (bv_freq0 * bv_freq0 / grav * z) in
  let exner := exner0 - grav * grav / (cp * bv_freq0 * bv_freq0) * (t - theta0) / (t * theta0) in
  let p := p0 * fpow exner (cp / rd) in
  let rt := fpow (p / C0) (#1 / gamm) in
  let r := rt / t in
  (r, t).

Definition sample_ellipse_cosine (x z amp x0 z0 xrad zrad : F) : F :=
  let dist := fsqrt (((x - x0) / xrad) * ((x - x0) / xrad)
                     + ((z - z0) / zrad) * ((z - z0) / zrad)) * pi / #2 in
  if fle dist (pi / #2) then amp * fpow (fcos dist) #2 else #0.

Definition injection (x z : F) : sample :=
  let '(hr, ht) := hydro_const_theta z in
  Sample _ #0 #0 #0 #0 hr ht.

Definition density_current (x z : F) : sample :=
  let '(hr, ht) := hydro_const_theta z in
  let t := #0 in
  let t := t + sample_ellipse_cosine x z (- #20) (xlen / #2) #5000 #4000 #2000 in
  Sample _ #0 #0 #0 t hr ht.

Definition gravity_waves (x z : F) : sample :=
  let '(hr, ht) := hydro_const_bvfreq z (dec 2 (-2)) in
  Sample _ #0 #15 #0 #0 hr ht.

Definition thermal (x z : F) : sample :=
  let '(hr, ht) := hydro_const_theta z in
  let t := #0 in
  let t := t + sample_ellipse_cosine x z #3 (xlen / #2) #2000 #2000 #2000 in
  Sample _ #0 #0 #0 t hr ht.

Definition collision (x z : F) : sample :=
  let '(hr, ht) := hydro_const_theta z in
  let t := #0 in
  let t := t + sample_ellipse_cosine x z #20 (xlen / #2) #2000 #2000 #2000 in
  let t := t + sample_ellipse_cosine x z (- #20) (xlen / #2) #8000 #2000 #2000 in
  Sample _ #0 #0 #0 t hr ht.

Variable cfg : config.

(** The chain of five [if (data_spec_int == ...)] statements of [init]:
    the locals [r,u,w,t,hr,ht] keep their previous contents when no test
    succeeds. *)
Definition scenario (x z : F) (loc : sample) : sample :=
  let loc := if Z.eqb (data_spec_int cfg) DATA_SPEC_COLLISION then collision x z else loc in
  let loc := if Z.eqb (data_spec_int cfg) DATA_SPEC_THERMAL then thermal x z else loc in
  let loc := if Z.eqb (data_spec_int cfg) DATA_SPEC_GRAVITY_WAVES then gravity_waves x z else loc in
  let loc := if Z.eqb (data_spec_int cfg) DATA_SPEC_DENSITY_CURRENT then density_current x z else loc in
  if Z.eqb (data_spec_int cfg) DATA_SPEC_INJECTION then injection x z else loc.

(** The grid and rank variables set at the top of [init] (the "MPI dummy
    section" of the serial build), with profile arrays as allocated. *)
Definition init_env (junk : F) : env :=
  let nx := nx_glob cfg in
  let nz := nz_glob cfg in
  Env _ nx nz 0 0 1 0 0 0
      (replicate (nz + 2 * hs) junk) (replicate (nz + 2 * hs) junk)
      (replicate (nz + 1) junk) (replicate (nz + 1) junk) (replicate (nz + 1) junk).

Definition init_mem (junk : F) : mem :=
  let nx := nx_glob cfg in
  let nz := nz_glob cfg in
  Mem _ (replicate ((nx + 2 * hs) * (nz + 2 * hs) * NUM_VARS) junk)
        (replicate ((nx + 2 * hs) * (nz + 2 * hs) * NUM_VARS) junk)
        (replicate ((nx + 1) * (nz + 1) * NUM_VARS) junk)
        (replicate (nx * nz * NUM_VARS) junk).

(** One quadrature point [(kk,ii)] of cell [(k,i)] of the state loop; the
    locals are threaded together with the heap. *)
Definition init_quad_body (e : env) (k i kk ii : nat) (s : mem * sample) : mem * sample :=
  let '(m, loc) := s in
  let center_x := (#(Z.of_nat (i_beg e) + Z.of_nat i - Z.of_nat hs) + dec 5 (-1)) * dx cfg in
  let center_z := (#(Z.of_nat (k_beg e) + Z.of_nat k - Z.of_nat hs) + dec 5 (-1)) * dz cfg in
  let x := center_x + (at_ qpoints ii - dec 5 (-1)) * dx cfg in
  let z := center_z + (at_ qpoints kk - dec 5 (-1)) * dz cfg in
  let loc := scenario x z loc in
  let '(Sample _ r u w t hr ht) := loc in
  let inds := sidx e ID_DENS k i in
  let m := st m Pstate inds (ld m Pstate inds + r * at_ qweights ii * at_ qweights kk) in
  let inds := sidx e ID_UMOM k i in
  let m := st m Pstate inds (ld m Pstate inds + (r + hr) * u * at_ qweights ii * at_ qweights kk) in
  let inds := sidx e ID_WMOM k i in
  let m := st m Pstate inds (ld m Pstate inds + (r + hr) * w * at_ qweights ii * at_ qweights kk) in
  let inds := sidx e ID_RHOT k i in
  let m := st m Pstate inds
    (ld m Pstate inds + ((r + hr) * (t + ht) - hr * ht) * at_ qweights ii * at_ qweights kk) in
  (m, loc).

Definition init_cell_body (e : env) (k i : nat) (s : mem * sample) : mem * sample :=
  let '(m, loc) := s in
  let m := for_ NUM_VARS (fun ll m => st m Pstate (sidx e ll k i) #0) m in
  let '(m, loc) :=
    for_ nqpoints (fun kk => for_ nqpoints (fun ii => init_quad_body e k i kk ii)) (m, loc) in
  let m := for_ NUM_VARS (fun ll m =>
             st m Pstate_tmp (sidx e ll k i) (ld m Pstate (sidx e ll k i))) m in
  (m, loc).

(** The profile arrays while [init] fills them. *)
Record hydro := Hydro {
  h_dens_cell : list F;
  h_dens_theta_cell : list F;
  h_dens_int : list F;
  h_dens_theta_int : list F;
  h_pressure_int : list F
}.

Definition hy_cell_body (e : env) (k kk : nat) (s : hydro * sample) : hydro * sample :=
  let '(h, loc) := s in
  let z := (#(Z.of_nat (k_beg e) + Z.of_nat k - Z.of_nat hs) + dec 5 (-1)) * dz cfg in
  let loc := scenario #0 z loc in
  let h := Hydro (<[k := at_ (h_dens_cell h) k + s_hr loc * at_ qweights kk]> (h_dens_cell h))
                 (h_dens_theta_cell h) (h_dens_int h) (h_dens_theta_int h) (h_pressure_int h) in
  let h := Hydro (h_dens_cell h)
                 (<[k := at_ (h_dens_theta_cell h) k + s_hr loc * s_ht loc * at_ qweights kk]>
                    (h_dens_theta_cell h))
                 (h_dens_int h) (h_dens_theta_int h) (h_pressure_int h) in
  (h, loc).

Definition hy_cell_row (e : env) (k : nat) (s : hydro * sample) : hydro * sample :=
  let '(h, loc) := s in
  let h := Hydro (<[k := #0]> (h_dens_cell h)) (<[k := #0]> (h_dens_theta_cell h))
                 (h_dens_int h) (h_dens_theta_int h) (h_pressure_int h) in
  for_ nqpoints (fun kk => hy_cell_body e k kk) (h, loc).

Definition hy_int_body (e : env) (k : nat) (s : hydro * sample) : hydro * sample :=
  let '(h, loc) := s in
  let z := #(Z.of_nat (k_beg e + k)) * dz cfg in
  let loc := scenario #0 z loc in
  let hr := s_hr loc in
  let ht := s_ht loc in
  (Hydro (h_dens_cell h) (h_dens_theta_cell h)
         (<[k := hr]> (h_dens_int h))
         (<[k := hr * ht]> (h_dens_theta_int h))
         (<[k := C0 * fpow (hr * ht) gamm]> (h_pressure_int h)), loc).

(** What [init] leaves in the globals. *)
Record started := Started {
  g_env : env;
  g_mem : mem;
  g_dt : F;
  g_etime : F;
  g_output_counter : F
}.

(** [init].  [junk] stands for the contents of freshly allocated memory
    and [junk_loc] for the uninitialised locals [r,u,w,t,hr,ht]. *)
Definition init (junk : F) (junk_loc : sample) : started :=
  let e := init_env junk in
  let dt := dmin (dx cfg) (dz cfg) / max_speed * cfl in
  let '(m, loc) :=
    for_ (nz e + 2 * hs) (fun k => for_ (nx e + 2 * hs) (fun i => init_cell_body e k i))
         (init_mem junk, junk_loc) in
  let h := Hydro (hy_dens_cell e) (hy_dens_theta_cell e) (hy_dens_int e)
                 (hy_dens_theta_int e) (hy_pressure_int e) in
  let '(h, loc) := for_ (nz e + 2 * hs) (fun k => hy_cell_row e k) (h, loc) in
  let '(h, loc) := for_ (nz e + 1) (fun k => hy_int_body e k) (h, loc) in
  Started (Env _ (nx e) (nz e) (i_beg e) (k_beg e) (nranks e) (myrank e)
                 (left_rank e) (right_rank e)
                 (h_dens_cell h) (h_dens_theta_cell h) (h_dens_int h)
                 (h_dens_theta_int h) (h_pressure_int h))
          m dt #0 #0.

End Init.

(** ** Driver *)

(** The dynamic globals of the time loop. *)
Record run `{Arith} := Run {
  r_mem : mem;
  r_dt : F;
  r_etime : F;
  r_output_counter : F;
  r_num_out : nat;
  r_direction_switch : Z
}.

(** How [main] ends: by returning from [main] (after printing the two
    conservation deltas), by [exit] inside [ncwrap], or not within the
    given number of loop iterations. *)
Inductive outcome `{Arith} :=
  | Returned (code : Z) (d_mass d_te : F)
  | Exited (code : Z)
  | OutOfFuel.

Section Driver.
Context `{A : Arith}.
Local Open Scope fl_scope.

Variable cfg : config.

(** The NetCDF writer is an external collaborator: [ncmpi n] tells whether
    every library call of output number [n] returns [NC_NOERR]. *)
Variable ncmpi : nat -> bool.

(** [output]: on a NetCDF error [ncwrap] calls [exit(-1)]. *)
Definition output (r : run) : run + Z :=
  if ncmpi (r_num_out r)
  then inl (Run _ (r_mem r) (r_dt r) (r_etime r) (r_output_counter r)
                (Datatypes.S (r_num_out r)) (r_direction_switch r))
  else inr (-1)%Z.

(** One iteration of the main time step loop. *)
Definition time_step (e : env) (r : run) : run + Z :=
  let dt := if flt (sim_time cfg) (r_etime r + r_dt r)
            then sim_time cfg - r_etime r else r_dt r in
  let '(m, sw) := perform_timestep cfg e Pstate Pstate_tmp Pflux Ptend dt
                    (r_mem r, r_direction_switch r) in
  let etime := r_etime r + dt in
  let output_counter := r_output_counter r + dt in
  if andb (fle #0 (output_freq cfg)) (fle (output_freq cfg) output_counter)
  then output (Run _ m dt etime (output_counter - output_freq cfg) (r_num_out r) sw)
  else inl (Run _ m dt etime output_counter (r_num_out r) sw).

(** [while (etime < sim_time)], unrolled at most [fuel] times. *)
Fixpoint time_loop (fuel : nat) (e : env) (r : run) : option (run + Z) :=
  if flt (r_etime r) (sim_time cfg) then
    match fuel with
    | O => None
    | Datatypes.S fuel' =>
        match time_step e r with
        | inl r' => time_loop fuel' e r'
        | inr code => Some (inr code)
        end
    end
  else Some (inl r).

Definition main (fuel : nat) (junk : F) (junk_loc : sample) : outcome :=
  let g := init cfg junk junk_loc in
  let e := g_env g in
  let '(mass0, te0) := reductions cfg e (g_mem g) in
  let r := Run _ (g_mem g) (g_dt g) (g_etime g) (g_output_counter g) 0 1 in
  let start := if fle #0 (output_freq cfg) then output r else inl r in
  match start with
  | inr code => Exited code
  | inl r =>
      match time_loop fuel e r with
      | None => OutOfFuel
      | Some (inr code) => Exited code
      | Some (inl r) =>
          let '(mass, te) := reductions cfg e (r_mem r) in
          Returned 0 ((mass - mass0) / mass0) ((te - te0) / te0)
      end
  end.

End Driver.

(** ** Two arithmetics *)

(** Exact arithmetic over the real numbers. *)
Definition Rdec (m ex : Z) : R :=
  if (0 <=? ex)%Z then IZR (m * 10 ^ ex) else (IZR m / IZR (10 ^ (- ex)))%R.

Definition Rleb (a b : R) : bool := if Rle_dec a b then true else false.
Definition Rltb (a b : R) : bool := if Rlt_dec a b then true else false.

#[global] Instance exact : Arith := {|
  F := R;
  fadd := Rplus; fsub := Rminus; fmul := Rmult; fdiv := Rdiv; fneg := Ropp;
  of_int := IZR; dec := Rdec;
  fle := Rleb; flt := Rltb;
  fsqrt := R_sqrt.sqrt; fcos := Rtrigo_def.cos; fexp := Rtrigo_def.exp; ffabs := Rabs;
  fpow := Rpower
|}.

(** IEEE 754 binary64, on the kernel's primitive floats.  [pow], [cos] and
    [exp] of [math.h] are not primitives and are arguments of the
    instance.  A decimal literal [m * 10^ex] is rounded once, to the
    nearest double, as the compiler does: for a negative [ex] it is
    [m / 5^-ex * 2^ex], and the quotient is taken to at least 64 bits,
    with one more bit telling whether the division left a remainder. *)
Definition float_of_Z (z : Z) : float :=
  SF2Prim (binary_normalize prec emax z 0 false).

Definition round_decimal (m ex : Z) : float :=
  if (0 <=? ex)%Z then float_of_Z (m * 10 ^ ex)
  else
    let d := (5 ^ (- ex))%Z in
    let k := Z.max 0 (Z.log2 d + 64 - Z.log2 (Z.abs m)) in
    let '(q, r) := Z.div_eucl (Z.shiftl (Z.abs m) k) d in
    let q := (2 * q + (if (r =? 0)%Z then 0 else 1))%Z in
    SF2Prim (binary_normalize prec emax (if (m <? 0)%Z then (- q)%Z else q) (ex - (k + 1)) false).

(** The literals of the program are converted when it is compiled, not
    when it runs: their doubles are tabulated ([float_dec_rounds_once]
    checks the table against [round_decimal]). *)
Definition program_literals : list (Z * Z * float) :=
  [ (314159265358979323846264338327, -29, 0x1.921fb54442d18p+1%float);
    (98, -1, 0x1.399999999999ap+3%float);
    (275629410929725921310572974482, -28, 0x1.b901ce84fe44cp+4%float);
    (140027894002789400278940027894, -29, 0x1.6678ae3cb2859p+0%float);
    (5, -2, 0x1.999999999999ap-5%float);
    (150, -2, 0x1.8000000000000p+0%float);
    (112701665379258311482073460022, -30, 0x1.cda042f0236e1p-4%float);
    (500000000000000000000000000000, -30, 0x1.0000000000000p-1%float);
    (887298334620741688517926539980, -30, 0x1.c64bf7a1fb924p-1%float);
    (277777777777777777777777777779, -30, 0x1.1c71c71c71c72p-2%float);
    (444444444444444444444444444444, -30, 0x1.c71c71c71c71cp-2%float);
    (5, -1, 0x1.0000000000000p-1%float);
    (1, -2, 0x1.47ae147ae147bp-7%float);
    (2, -2, 0x1.47ae147ae147bp-6%float) ]%Z.

Definition float_dec (m ex : Z) : float :=
  match find (fun l => (fst (fst l) =? m)%Z && (snd (fst l) =? ex)%Z) program_literals with
  | Some l => snd l
  | None => round_decimal m ex
  end.

Lemma float_dec_rounds_once (m ex : Z) : float_dec m ex = round_decimal m ex.
Proof.
  unfold float_dec.
  destruct (find _ program_literals) as [[[m' ex'] v]|] eqn:Hf; [|reflexivity].
  apply find_some in Hf as (Hin & Heq). cbn [fst snd] in *.
  apply andb_prop in Heq as (Hm & Hex).
  apply Z.eqb_eq in Hm, Hex. subst m' ex'.
  unfold program_literals in Hin.
  repeat (destruct Hin as [Hin | Hin];
          [injection Hin as <- <- <-; vm_compute; reflexivity|]).
  destruct Hin.
Qed.

Definition binary64 (pw : float -> float -> float) (cs ex : float -> float) : Arith := {|
  F := float;
  fadd := PrimFloat.add; fsub := PrimFloat.sub; fmul := PrimFloat.mul;
  fdiv := PrimFloat.div; fneg := PrimFloat.opp;
  of_int := float_of_Z; dec := float_dec;
  fle := PrimFloat.leb; flt := PrimFloat.ltb;
  fsqrt := PrimFloat.sqrt; fcos := cs; fexp := ex; ffabs := PrimFloat.abs;
  fpow := pw
|}.

(** ** A model of [math.h] for closed runs

    Evaluated in binary64 itself, within a few units in the last place
    of the correctly rounded results: [exp] by reduction modulo [ln 2]
    and a Taylor polynomial, [log] by [frexp] and the series of the
    inverse hyperbolic tangent, [cos] by a reduction modulo [pi/2]
    in fixed point, to 128 bits, and the Taylor polynomials of sine and
    cosine.  [pow] follows
    the case table of C99 (F.9.4.4): a small positive integer exponent
    is computed exactly and rounded once, a negative base with an
    integer exponent takes the sign of the parity, and the general case
    is [exp (y * log |x|)]. *)

Fixpoint horner (cs : list float) (x : float) : float :=
  match cs with
  | [] => 0%float
  | c :: cs' => (c + x * horner cs' x)%float
  end.

(** [1/k!, 1/(k+1)!, ...], [n] of them, given [fact = k!]. *)
Fixpoint inv_fact_from (n : nat) (k : Z) (fact : Z) : list float :=
  match n with
  | O => []
  | Datatypes.S n' =>
      (1 / float_of_Z fact)%float :: inv_fact_from n' (k + 1) (fact * (k + 1))
  end.

Definition ln2_hi : float := 0x1.62e42fee00000p-1%float.
Definition ln2_lo : float := 0x1.a39ef35793c76p-33%float.
Definition ln2 : float := 0x1.62e42fefa39efp-1%float.

(** The integer part of a finite float. *)
Definition Z_of_float (x : float) : Z :=
  match Prim2SF x with
  | S754_finite s m ex =>
      let a := if (0 <=? ex)%Z then (Z.pos m * 2 ^ ex)%Z else (Z.pos m / 2 ^ (- ex))%Z in
      if s then (- a)%Z else a
  | _ => 0%Z
  end.

(** The nearest integer, as a float, of a float below [2^51] in size. *)
Definition round_int (x : float) : float := ((x + 0x1.8p52) - 0x1.8p52)%float.

Definition libm_exp (x : float) : float :=
  if is_nan x then nan
  else if (710 <? x)%float then infinity
  else if (x <? -746)%float then 0%float
  else
    let k := round_int (x / ln2)%float in
    let r := ((x - k * ln2_hi) - k * ln2_lo)%float in
    Z.ldexp (horner (inv_fact_from 15 0 1) r) (Z_of_float k).

(** [1, 1/3, 1/5, ...], [n] of them from [1/(2k+1)]. *)
Fixpoint atanh_coeffs (n : nat) (k : Z) : list float :=
  match n with
  | O => []
  | Datatypes.S n' => (1 / float_of_Z (2 * k + 1))%float :: atanh_coeffs n' (k + 1)
  end.

Definition libm_log (x : float) : float :=
  if is_nan x then nan
  else if (x <? 0)%float then nan
  else if (x =? 0)%float then neg_infinity
  else if is_infinity x then infinity
  else
    let '(m, ex) := Z.frexp x in
    let '(m, ex) :=
      if (m <? 0x1.6a09e667f3bcdp-1)%float then ((m * 2)%float, (ex - 1)%Z) else (m, ex) in
    let s := ((m - 1) / (m + 1))%float in
    let ef := float_of_Z ex in
    (ef * ln2_hi + (2 * s * horner (atanh_coeffs 12 0) (s * s) + ef * ln2_lo))%float.

(** Whether a float is an integer, and whether it is an odd one. *)
Definition is_int (y : float) : bool :=
  match Prim2SF y with
  | S754_zero _ => true
  | S754_finite _ m ex => if (0 <=? ex)%Z then true else (Z.pos m mod 2 ^ (- ex) =? 0)%Z
  | _ => false
  end.

Definition is_odd_int (y : float) : bool :=
  match Prim2SF y with
  | S754_finite _ m ex =>
      if (0 <? ex)%Z then false
      else ((Z.pos m mod 2 ^ (- ex) =? 0)%Z && Z.odd (Z.pos m / 2 ^ (- ex)))%bool
  | _ => false
  end.

(** [x^n], rounded once. *)
Definition pow_int (x : float) (n : Z) : float :=
  match Prim2SF x with
  | S754_finite s m ex =>
      let a := (Z.pos m ^ n)%Z in
      SF2Prim (binary_normalize prec emax (if (s && Z.odd n)%bool then (- a)%Z else a)
                 (ex * n) false)
  | _ => nan
  end.

Definition libm_pow (x y : float) : float :=
  if (y =? 0)%float then 1%float
  else if (x =? 1)%float then 1%float
  else if (is_nan x || is_nan y)%bool then nan
  else if is_infinity y then
    if (abs x =? 1)%float then 1%float
    else if Bool.eqb (abs x <? 1)%float (y <? 0)%float then infinity else 0%float
  else
    let odd := is_odd_int y in
    if (x =? 0)%float then
      if (y <? 0)%float then (if odd then (1 / x)%float else infinity)
      else (if odd then x else 0%float)
    else if is_infinity x then
      if (x <? 0)%float then
        if (y <? 0)%float then (if odd then (- 0)%float else 0%float)
        else (if odd then neg_infinity else infinity)
      else if (y <? 0)%float then 0%float else infinity
    else if (is_int y && (0 <? y)%float && (y <=? 16)%float)%bool then pow_int x (Z_of_float y)
    else if (x <? 0)%float then
      if is_int y then
        let r := libm_exp (y * libm_log (- x))%float in
        if odd then (- r)%float else r
      else nan
    else libm_exp (y * libm_log x)%float.

(** [1/k!, -1/(k+2)!, 1/(k+4)!, ...], [n] of them, given [fact = k!]. *)
Fixpoint trig_coeffs (n : nat) (k : Z) (fact : Z) (neg : bool) : list float :=
  match n with
  | O => []
  | Datatypes.S n' =>
      let c := (1 / float_of_Z fact)%float in
      (if neg then (- c)%float else c)
        :: trig_coeffs n' (k + 2) (fact * (k + 1) * (k + 2)) (negb neg)
  end.

(** [pi/2] and a finite float, in units of [2^-128]. *)
Definition pio2_128 : Z := 534514292032483373929840186580935391650%Z.

Definition fixed_128 (x : float) : Z :=
  match Prim2SF x with
  | S754_finite s m ex =>
      let a := Z.shiftl (Z.pos m) (ex + 128) in
      if s then (- a)%Z else a
  | _ => 0%Z
  end.

Definition libm_cos (x : float) : float :=
  if is_nan x then nan
  else if is_infinity x then nan
  else
    let X := fixed_128 x in
    let k := ((2 * X + pio2_128) / (2 * pio2_128))%Z in
    let r := SF2Prim (binary_normalize prec emax (X - k * pio2_128) (-128) false) in
    let c := horner (trig_coeffs 11 0 1 false) (r * r)%float in
    let s := (r * horner (trig_coeffs 11 1 1 false) (r * r))%float in
    match (k mod 4)%Z with
    | 0%Z => c
    | 1%Z => (- s)%float
    | 2%Z => (- c)%float
    | _ => s
    end.

(** The arithmetic of the compiled program. *)
Definition double : Arith := binary64 libm_pow libm_cos libm_exp.

(** * Reasoning about the heap and about loops of independent writes *)

Section Memory.
Context `{A : Arith}.

Lemma nth_insert_eq (l : list F) (i : nat) (v d : F) :
  i < length l -> nth i (<[i:=v]> l) d = v.
Proof.
  revert i; induction l as [|a l IH]; intros [|i] Hi; simpl in *; try lia; auto.
  apply IH; lia.
Qed.

Lemma nth_insert_ne (l : list F) (i j : nat) (v d : F) :
  i <> j -> nth j (<[i:=v]> l) d = nth j l d.
Proof.
  revert i j; induction l as [|a l IH]; intros [|i] [|j] Hij; simpl; auto; try lia.
Qed.

Lemma buf_setbuf_eq (m : mem) p l : buf (setbuf m p l) p = l.
Proof. destruct p; reflexivity. Qed.

Lemma buf_setbuf_ne (m : mem) p q l : p <> q -> buf (setbuf m p l) q = buf m q.
Proof. destruct p, q; intros Hpq; try reflexivity; congruence. Qed.

Lemma buf_st_ne (m : mem) p q i v : p <> q -> buf (st m p i v) q = buf m q.
Proof. apply buf_setbuf_ne. Qed.

Lemma length_buf_st (m : mem) p q i v :
  length (buf (st m p i v) q) = length (buf m q).
Proof.
  unfold st. destruct (decide (p = q)) as [->|Hpq].
  - rewrite buf_setbuf_eq. apply length_insert.
  - rewrite buf_setbuf_ne; auto.
Qed.

Lemma ld_st_eq (m : mem) p i v : i < length (buf m p) -> ld (st m p i v) p i = v.
Proof. intros Hi. unfold ld, st. rewrite buf_setbuf_eq. apply nth_insert_eq; auto. Qed.

Lemma ld_st_ne (m : mem) p i v q j : (p, i) <> (q, j) -> ld (st m p i v) q j = ld m q j.
Proof.
  intros Hne. unfold ld, st. destruct (decide (p = q)) as [->|Hpq].
  - rewrite buf_setbuf_eq. apply nth_insert_ne. congruence.
  - rewrite buf_setbuf_ne; auto.
Qed.

(** A store of the value already there changes nothing. *)
Lemma st_same (m : mem) p i : st m p i (ld m p i) = m.
Proof.
  unfold st, ld.
  assert (Hl : <[i:=nth i (buf m p) (of_int 0)]> (buf m p) = buf m p).
  { generalize (buf m p) as l. intros l. revert i.
    induction l as [|a l IH]; intros [|i]; simpl; auto. f_equal. apply IH. }
  rewrite Hl. destruct m, p; reflexivity.
Qed.

(** A second store to a cell overwrites the first. *)
Lemma st_st (m : mem) p i v w : st (st m p i v) p i w = st m p i w.
Proof.
  unfold st. rewrite buf_setbuf_eq.
  assert (Hl : forall (l : list F) j, <[j:=w]> (<[j:=v]> l) = <[j:=w]> l).
  { induction l as [|a l IH]; intros [|j]; simpl; auto. f_equal. apply IH. }
  rewrite Hl. destruct m, p; reflexivity.
Qed.

(** Two heaps with the same cells are equal. *)
Lemma mem_ext (m m' : mem) :
  (forall p, length (buf m p) = length (buf m' p)) ->
  (forall p i, ld m p i = ld m' p i) ->
  m = m'.
Proof.
  intros Hlen Hld.
  assert (Hb : forall p, buf m p = buf m' p).
  { intros p. apply (nth_ext _ _ (of_int 0) (of_int 0)); auto.
    intros n _. apply (Hld p n). }
  destruct m, m'. simpl in *.
  f_equal; [apply (Hb Pstate) | apply (Hb Pstate_tmp) | apply (Hb Pflux) | apply (Hb Ptend)].
Qed.

End Memory.

Section ParLoop.
Context `{A : Arith}.

(** A loop nest whose iterations [x : X] each store one value [val x]
    (computed from the heap) into one cell [tgt x]. *)
Variable X : Type.
Variable tgt : X -> ptr * nat.
Variable val : X -> mem -> F.
Variable L : ptr -> nat.
Variable Stot : X -> Prop.

Definition sized (m : mem) : Prop := forall p, length (buf m p) = L p.
Definition peek (m : mem) (c : ptr * nat) : F := ld m (fst c) (snd c).

(** Distinct iterations store into distinct cells, and the value stored by
    an iteration does not depend on the cells the other iterations store
    into. *)
Hypothesis tgt_inj : forall x y, Stot x -> Stot y -> tgt x = tgt y -> x = y.
Hypothesis val_indep : forall x m m', Stot x ->
  (forall c, (forall y, Stot y -> tgt y = c -> y = x) -> peek m' c = peek m c) ->
  val x m' = val x m.

(** [summ S m m']: [m'] is [m] after the iterations in [S]. *)
Definition summ (S : X -> Prop) (m m' : mem) : Prop :=
  sized m' /\
  (forall x, S x -> peek m' (tgt x) = val x m) /\
  (forall c, (forall x, S x -> tgt x <> c) -> peek m' c = peek m c).

Definition good (S : X -> Prop) (f : mem -> mem) : Prop :=
  (forall x, S x -> Stot x) -> forall m, sized m -> summ S m (f m).

Lemma good_for (n : nat) (Si : nat -> X -> Prop) (body : nat -> mem -> mem) :
  (forall i j x, Si i x -> Si j x -> i = j) ->
  (forall i, i < n -> good (Si i) (body i)) ->
  good (fun x => exists i, i < n /\ Si i x) (for_ n body).
Proof.
  intros Hdisj. induction n as [|n IH]; intros Hbody Hsub m Hm.
  - simpl. split; [exact Hm|]. split.
    + intros x (i & Hi & _). lia.
    + reflexivity.
  - simpl.
    assert (Hprev : summ (fun x => exists i, i < n /\ Si i x) m (for_ n body m)).
    { apply IH; auto.
      intros x (i & Hi & Hx). apply Hsub. exists i. split; [lia | exact Hx]. }
    destruct Hprev as (Hsz1 & Hw1 & Hf1).
    assert (Hcur : summ (Si n) (for_ n body m) (body n (for_ n body m))).
    { apply Hbody; auto. intros x Hx. apply Hsub. exists n. split; [lia | exact Hx]. }
    destruct Hcur as (Hsz2 & Hw2 & Hf2).
    split; [exact Hsz2|]. split.
    + intros x (i & Hi & Hx).
      assert (HxS : Stot x) by (apply Hsub; exists i; split; [lia | exact Hx]).
      destruct (decide (i = n)) as [->|Hin].
      * rewrite Hw2 by exact Hx. apply val_indep; [exact HxS|].
        intros c Hc. apply Hf1. intros y (j & Hj & Hy) Hty.
        assert (y = x).
        { apply Hc; auto. apply Hsub. exists j. split; [lia | exact Hy]. }
        subst y. assert (j = n) by (eapply Hdisj; eauto). lia.
      * rewrite Hf2.
        -- apply Hw1. exists i. split; [lia | exact Hx].
        -- intros y Hy Hty.
           assert (y = x).
           { apply tgt_inj; auto. apply Hsub. exists n. split; [lia | exact Hy]. }
           subst y. assert (i = n) by (eapply Hdisj; eauto). lia.
    + intros c Hc. rewrite Hf2.
      * apply Hf1. intros x (i & Hi & Hx). apply Hc. exists i. split; [lia | exact Hx].
      * intros x Hx. apply Hc. exists n. split; [lia | exact Hx].
Qed.

(** An iteration set may be replaced by an equivalent one. *)
Lemma good_equiv (S S' : X -> Prop) f :
  (forall x, S x <-> S' x) -> good S f -> good S' f.
Proof.
  intros Heq Hg Hsub m Hm.
  destruct (Hg (fun x Hx => Hsub x (proj1 (Heq x) Hx)) m Hm) as (Hs & Hw & Hf).
  split; [exact Hs|]. split.
  - intros x Hx. apply Hw. apply Heq; exact Hx.
  - intros c Hc. apply Hf. intros x Hx. apply Hc. apply Heq; exact Hx.
Qed.

(** An iteration that stores nothing. *)
Lemma good_skip : good (fun _ => False) (fun m => m).
Proof.
  intros _ m Hm. split; [exact Hm|]. split; [intros x []|reflexivity].
Qed.

(** An iteration that is one store. *)
Lemma good_store (x : X) (p : ptr) (i : nat) :
  tgt x = (p, i) -> i < L p ->
  good (fun y => y = x) (fun m => st m p i (val x m)).
Proof.
  intros Ht Hi _ m Hm. split; [|split].
  - intros q. rewrite length_buf_st. apply Hm.
  - intros y ->. rewrite Ht. unfold peek; simpl. apply ld_st_eq. rewrite Hm. exact Hi.
  - intros [q j] Hc. unfold peek; simpl. apply ld_st_ne. rewrite <- Ht. apply Hc. reflexivity.
Qed.

(** Two pieces of code one after the other. *)
Lemma good_seq (S1 S2 : X -> Prop) (f g : mem -> mem) :
  (forall x, S1 x -> S2 x -> False) ->
  good S1 f -> good S2 g ->
  good (fun x => S1 x \/ S2 x) (fun m => g (f m)).
Proof.
  intros Hdisj Hf Hg Hsub m Hm.
  destruct (Hf (fun x Hx => Hsub x (or_introl Hx)) m Hm) as (Hs1 & Hw1 & Hf1).
  destruct (Hg (fun x Hx => Hsub x (or_intror Hx)) (f m) Hs1) as (Hs2 & Hw2 & Hf2).
  split; [exact Hs2|]. split.
  - intros x [Hx|Hx].
    + rewrite Hf2; [apply Hw1; exact Hx|].
      intros y Hy Hty.
      assert (y = x) by (apply tgt_inj; auto). subst y. eapply Hdisj; eauto.
    + rewrite Hw2 by exact Hx. apply val_indep; [auto|].
      intros c Hc. apply Hf1. intros y Hy Hty.
      assert (y = x) by (apply Hc; auto). subst y. eapply Hdisj; eauto.
  - intros c Hc. rewrite Hf2; [apply Hf1|]; intros x Hx; apply Hc; auto.
Qed.

(** Four stores one after the other, each computed from the heap it
    finds. *)
Lemma good_seq4 (x0 x1 x2 x3 : X) (f0 f1 f2 f3 : mem -> mem) :
  x0 <> x1 -> x0 <> x2 -> x0 <> x3 -> x1 <> x2 -> x1 <> x3 -> x2 <> x3 ->
  good (fun y => y = x0) f0 -> good (fun y => y = x1) f1 ->
  good (fun y => y = x2) f2 -> good (fun y => y = x3) f3 ->
  good (fun y => y = x0 \/ y = x1 \/ y = x2 \/ y = x3) (fun m => f3 (f2 (f1 (f0 m)))).
Proof.
  intros H01 H02 H03 H12 H13 H23 G0 G1 G2 G3.
  assert (G01 := good_seq _ _ _ _ (fun x (Ha : x = x0) (Hb : x = x1) =>
                   H01 (eq_trans (eq_sym Ha) Hb)) G0 G1).
  assert (G012 := good_seq _ _ _ _ (fun x (Ha : x = x0 \/ x = x1) (Hb : x = x2) =>
                   match Ha with
                   | or_introl Ha => H02 (eq_trans (eq_sym Ha) Hb)
                   | or_intror Ha => H12 (eq_trans (eq_sym Ha) Hb)
                   end) G01 G2).
  assert (G0123 := good_seq _ _ _ _ (fun x (Ha : (x = x0 \/ x = x1) \/ x = x2) (Hb : x = x3) =>
                   match Ha with
                   | or_introl (or_introl Ha) => H03 (eq_trans (eq_sym Ha) Hb)
                   | or_introl (or_intror Ha) => H13 (eq_trans (eq_sym Ha) Hb)
                   | or_intror Ha => H23 (eq_trans (eq_sym Ha) Hb)
                   end) G012 G3).
  revert G0123. apply good_equiv. intros y. tauto.
Qed.

(** Loop nests of depth two and three. *)
Lemma good_nest2 (n1 n2 : nat) (Sl : nat -> nat -> X -> Prop)
    (body : nat -> nat -> mem -> mem) :
  (forall a b a' b' x, Sl a b x -> Sl a' b' x -> a = a' /\ b = b') ->
  (forall a b, a < n1 -> b < n2 -> good (Sl a b) (body a b)) ->
  good (fun x => exists a b, a < n1 /\ b < n2 /\ Sl a b x)
       (for_ n1 (fun a => for_ n2 (fun b => body a b))).
Proof.
  intros Hd Hb.
  eapply good_equiv;
    [|apply (good_for n1 (fun a x => exists b, b < n2 /\ Sl a b x))].
  - intros x. split.
    + intros (a & Ha & b & Hb' & Hx). exists a, b. repeat split; assumption.
    + intros (a & b & Ha & Hb' & Hx). exists a. split; [exact Ha|]. exists b.
      split; assumption.
  - intros a a' x (b & _ & Hx) (b' & _ & Hx').
    destruct (Hd _ _ _ _ _ Hx Hx') as (H1 & _). exact H1.
  - intros a Ha. apply good_for.
    + intros b b' x Hx Hx'.
      destruct (Hd _ _ _ _ _ Hx Hx') as (_ & H2). exact H2.
    + intros b Hb'. apply Hb; auto.
Qed.

Lemma good_nest3 (n1 n2 n3 : nat) (Sl : nat -> nat -> nat -> X -> Prop)
    (body : nat -> nat -> nat -> mem -> mem) :
  (forall a b c a' b' c' x, Sl a b c x -> Sl a' b' c' x -> a = a' /\ b = b' /\ c = c') ->
  (forall a b c, a < n1 -> b < n2 -> c < n3 -> good (Sl a b c) (body a b c)) ->
  good (fun x => exists a b c, a < n1 /\ b < n2 /\ c < n3 /\ Sl a b c x)
       (for_ n1 (fun a => for_ n2 (fun b => for_ n3 (fun c => body a b c)))).
Proof.
  intros Hd Hb.
  eapply good_equiv;
    [|apply (good_for n1 (fun a x => exists b c, b < n2 /\ c < n3 /\ Sl a b c x))].
  - intros x. split.
    + intros (a & Ha & b & c & Hb' & Hc & Hx). exists a, b, c. repeat split; assumption.
    + intros (a & b & c & Ha & Hb' & Hc & Hx). exists a. split; [exact Ha|].
      exists b, c. repeat split; assumption.
  - intros a a' x (b & c & _ & _ & Hx) (b' & c' & _ & _ & Hx').
    destruct (Hd _ _ _ _ _ _ _ Hx Hx') as (H1 & _). exact H1.
  - intros a Ha. apply good_nest2.
    + intros b c b' c' x Hx Hx'.
      destruct (Hd _ _ _ _ _ _ _ Hx Hx') as (_ & H2). exact H2.
    + intros b c Hb' Hc. apply Hb; auto.
Qed.

(** What a summary says about the blocks that hold no target. *)
Lemma summ_buf (S : X -> Prop) (m m' : mem) (q : ptr) :
  sized m -> summ S m m' -> (forall x, S x -> fst (tgt x) <> q) -> buf m' q = buf m q.
Proof.
  intros Hm (Hs & _ & Hf) Hq.
  apply (nth_ext _ _ (of_int 0) (of_int 0)).
  - rewrite Hs, Hm. reflexivity.
  - intros i _. apply (Hf (q, i)). intros x Hx Heq. apply (Hq x Hx). rewrite Heq. reflexivity.
Qed.

End ParLoop.

Section GroupedLoop.
Context `{A : Arith}.

(** Loop nests whose iterations store into several cells: the stores
    [x : X] come in groups [grp x] (one group per iteration), and a value
    may depend on the cells of its own group. *)
Variable X : Type.
Variable G : Type.
Variable grp : X -> G.
Variable tgt : X -> ptr * nat.
Variable val : X -> mem -> F.
Variable L : ptr -> nat.
Variable Stot : X -> Prop.

Hypothesis tgt_inj : forall x y, Stot x -> Stot y -> tgt x = tgt y -> x = y.
Hypothesis val_indep : forall x m m', Stot x ->
  (forall c, (forall y, Stot y -> tgt y = c -> grp y = grp x) -> peek m' c = peek m c) ->
  val x m' = val x m.

Local Abbreviation ggood := (good X tgt val L Stot).

Lemma good_for_grp (n : nat) (Si : nat -> X -> Prop) (body : nat -> mem -> mem) :
  (forall i j x y, Si i x -> Si j y -> grp x = grp y -> i = j) ->
  (forall i, i < n -> ggood (Si i) (body i)) ->
  ggood (fun x => exists i, i < n /\ Si i x) (for_ n body).
Proof.
  intros Hdisj. induction n as [|n IH]; intros Hbody Hsub m Hm.
  - simpl. split; [exact Hm|]. split.
    + intros x (i & Hi & _). lia.
    + reflexivity.
  - simpl.
    assert (Hprev : summ X tgt val L (fun x => exists i, i < n /\ Si i x) m (for_ n body m)).
    { apply IH; auto.
      intros x (i & Hi & Hx). apply Hsub. exists i. split; [lia | exact Hx]. }
    destruct Hprev as (Hsz1 & Hw1 & Hf1).
    assert (Hcur : summ X tgt val L (Si n) (for_ n body m) (body n (for_ n body m))).
    { apply Hbody; auto. intros x Hx. apply Hsub. exists n. split; [lia | exact Hx]. }
    destruct Hcur as (Hsz2 & Hw2 & Hf2).
    split; [exact Hsz2|]. split.
    + intros x (i & Hi & Hx).
      assert (HxS : Stot x) by (apply Hsub; exists i; split; [lia | exact Hx]).
      destruct (decide (i = n)) as [->|Hin].
      * rewrite Hw2 by exact Hx. apply val_indep; [exact HxS|].
        intros c Hc. apply Hf1. intros y (j & Hj & Hy) Hty.
        assert (grp y = grp x).
        { apply Hc; auto. apply Hsub. exists j. split; [lia | exact Hy]. }
        assert (j = n) by (eapply Hdisj; eauto). lia.
      * rewrite Hf2.
        -- apply Hw1. exists i. split; [lia | exact Hx].
        -- intros y Hy Hty.
           assert (y = x).
           { apply tgt_inj; auto. apply Hsub. exists n. split; [lia | exact Hy]. }
           subst y. assert (i = n) by (eapply Hdisj; eauto). lia.
    + intros c Hc. rewrite Hf2.
      * apply Hf1. intros x (i & Hi & Hx). apply Hc. exists i. split; [lia | exact Hx].
      * intros x Hx. apply Hc. exists n. split; [lia | exact Hx].
Qed.

Lemma good_nest2_grp (n1 n2 : nat) (Sl : nat -> nat -> X -> Prop)
    (body : nat -> nat -> mem -> mem) :
  (forall a b a' b' x y, Sl a b x -> Sl a' b' y -> grp x = grp y -> a = a' /\ b = b') ->
  (forall a b, a < n1 -> b < n2 -> ggood (Sl a b) (body a b)) ->
  ggood (fun x => exists a b, a < n1 /\ b < n2 /\ Sl a b x)
        (for_ n1 (fun a => for_ n2 (fun b => body a b))).
Proof.
  intros Hd Hb.
  eapply good_equiv;
    [|apply (good_for_grp n1 (fun a x => exists b, b < n2 /\ Sl a b x))].
  - intros x. split.
    + intros (a & Ha & b & Hb' & Hx). exists a, b. repeat split; assumption.
    + intros (a & b & Ha & Hb' & Hx). exists a. split; [exact Ha|]. exists b.
      split; assumption.
  - intros a a' x y (b & _ & Hx) (b' & _ & Hy) Hg.
    destruct (Hd _ _ _ _ _ _ Hx Hy Hg) as (H1 & _). exact H1.
  - intros a Ha. apply good_for_grp.
    + intros b b' x y Hx Hy Hg.
      destruct (Hd _ _ _ _ _ _ Hx Hy Hg) as (_ & H2). exact H2.
    + intros b Hb'. apply Hb; auto.
Qed.

End GroupedLoop.

Section StoreLists.
Context `{A : Arith}.
Variable X : Type.
Variable tgt : X -> ptr * nat.
Variable val : X -> mem -> F.
Variable L : ptr -> nat.
Variable Stot : X -> Prop.
Hypothesis tgt_inj : forall x y, Stot x -> Stot y -> tgt x = tgt y -> x = y.

(** Several stores whose values were all computed before the first one. *)
Definition stores (xs : list X) (m0 m : mem) : mem :=
  fold_left (fun acc x => st acc (fst (tgt x)) (snd (tgt x)) (val x m0)) xs m.

Lemma stores_summ (xs : list X) (m0 acc : mem) :
  NoDup xs ->
  (forall x, In x xs -> Stot x /\ snd (tgt x) < L (fst (tgt x))) ->
  sized L acc ->
  sized L (stores xs m0 acc) /\
  (forall x, In x xs -> peek (stores xs m0 acc) (tgt x) = val x m0) /\
  (forall c, (forall x, In x xs -> tgt x <> c) -> peek (stores xs m0 acc) c = peek acc c).
Proof.
  revert acc. induction xs as [|x xs IH]; intros acc Hnd Hin Hacc; simpl.
  - split; [exact Hacc|]. split; [intros x []|reflexivity].
  - apply NoDup_cons in Hnd as [Hx Hnd].
    assert (Hacc' : sized L (st acc (fst (tgt x)) (snd (tgt x)) (val x m0))).
    { intros q. rewrite length_buf_st. apply Hacc. }
    destruct (IH _ Hnd (fun y Hy => Hin y (or_intror Hy)) Hacc') as (Hs & Hw & Hf).
    split; [exact Hs|]. split.
    + intros y [<-|Hy]; [|apply Hw; exact Hy].
      rewrite Hf.
      * unfold peek. apply ld_st_eq. rewrite Hacc. apply (Hin x). left; reflexivity.
      * intros y Hy Hty. apply Hx.
        assert (y = x).
        { apply tgt_inj; auto; apply Hin; [right; exact Hy | left; reflexivity]. }
        subst y. apply list_elem_of_In. exact Hy.
    + intros c Hc. rewrite Hf by (intros y Hy; apply Hc; right; exact Hy).
      unfold peek. apply ld_st_ne. rewrite <- !surjective_pairing.
      apply Hc. left; reflexivity.
Qed.

Lemma good_stores (xs : list X) :
  NoDup xs ->
  (forall x, In x xs -> snd (tgt x) < L (fst (tgt x))) ->
  good X tgt val L Stot (fun y => In y xs) (fun m => stores xs m m).
Proof.
  intros Hnd Hin Hsub m Hm.
  apply stores_summ; auto.
Qed.

End StoreLists.

(** ** Flat indices *)

Lemma flat_inj (H W ll k i ll' k' i' : nat) :
  k < H -> k' < H -> i < W -> i' < W ->
  ll * H * W + k * W + i = ll' * H * W + k' * W + i' ->
  ll = ll' /\ k = k' /\ i = i'.
Proof.
  intros Hk Hk' Hi Hi' Heq.
  assert (H1 : W * (ll * H + k) + i = W * (ll' * H + k') + i') by lia.
  apply Nat.div_mod_unique in H1 as [H2 H3]; try lia.
  assert (H4 : H * ll + k = H * ll' + k') by lia.
  apply Nat.div_mod_unique in H4 as [H5 H6]; lia.
Qed.

Lemma flat_lt (N H W ll k i : nat) :
  ll < N -> k < H -> i < W -> ll * H * W + k * W + i < N * H * W.
Proof.
  intros Hl Hk Hi.
  assert (ll * H + k + 1 <= N * H) by nia.
  assert ((ll * H + k + 1) * W <= N * H * W) by (apply Nat.mul_le_mono_r; lia).
  lia.
Qed.

Section Geometry.
Context `{A : Arith}.
Variable e : env.

(** The sizes of the four blocks as [init] allocates them. *)
Definition block_size (p : ptr) : nat :=
  match p with
  | Pstate | Pstate_tmp => NUM_VARS * (nz e + 2 * hs) * (nx e + 2 * hs)
  | Pflux => NUM_VARS * (nz e + 1) * (nx e + 1)
  | Ptend => NUM_VARS * nz e * nx e
  end.

Definition wf (m : mem) : Prop := sized block_size m.

(** A pointer to one of the two state arrays. *)
Definition is_state (p : ptr) : Prop := p = Pstate \/ p = Pstate_tmp.

Lemma sidx_inj ll k i ll' k' i' :
  k < nz e + 2 * hs -> k' < nz e + 2 * hs -> i < nx e + 2 * hs -> i' < nx e + 2 * hs ->
  sidx e ll k i = sidx e ll' k' i' -> ll = ll' /\ k = k' /\ i = i'.
Proof. unfold sidx. apply flat_inj. Qed.

Lemma sidx_lt p ll k i :
  is_state p -> ll < NUM_VARS -> k < nz e + 2 * hs -> i < nx e + 2 * hs ->
  sidx e ll k i < block_size p.
Proof. intros [-> | ->] Hl Hk Hi; unfold sidx, block_size; apply flat_lt; auto. Qed.

Lemma fidx_inj ll k i ll' k' i' :
  k < nz e + 1 -> k' < nz e + 1 -> i < nx e + 1 -> i' < nx e + 1 ->
  fidx e ll k i = fidx e ll' k' i' -> ll = ll' /\ k = k' /\ i = i'.
Proof. unfold fidx. apply flat_inj. Qed.

Lemma fidx_lt ll k i :
  ll < NUM_VARS -> k < nz e + 1 -> i < nx e + 1 -> fidx e ll k i < block_size Pflux.
Proof. intros Hl Hk Hi; unfold fidx, block_size; apply flat_lt; auto. Qed.

Lemma tidx_inj ll k i ll' k' i' :
  k < nz e -> k' < nz e -> i < nx e -> i' < nx e ->
  tidx e ll k i = tidx e ll' k' i' -> ll = ll' /\ k = k' /\ i = i'.
Proof. unfold tidx. apply flat_inj. Qed.

Lemma tidx_lt ll k i :
  ll < NUM_VARS -> k < nz e -> i < nx e -> tidx e ll k i < block_size Ptend.
Proof. intros Hl Hk Hi; unfold tidx, block_size; apply flat_lt; auto. Qed.

End Geometry.

(** * The halo manager *)

Section HaloX.
Context `{A : Arith}.
Variable e : env.
Variable p : ptr.
Hypothesis Hp : is_state p.
Hypothesis Hnx : 2 <= nx e.

(** The four copies of one row: destination and source columns. *)
Definition hx_dst (j : nat) : nat :=
  match j with 0 => 0 | 1 => 1 | 2 => nx e + hs | _ => nx e + hs + 1 end.
Definition hx_src (j : nat) : nat :=
  match j with 0 => nx e + hs - 2 | 1 => nx e + hs - 1 | 2 => hs | _ => hs + 1 end.

Definition hx_tgt (x : nat * nat * nat) : ptr * nat :=
  let '(ll, k, j) := x in (p, sidx e ll (k + hs) (hx_dst j)).
Definition hx_val (x : nat * nat * nat) (m : mem) : F :=
  let '(ll, k, j) := x in ld m p (sidx e ll (k + hs) (hx_src j)).
Definition hx_S (x : nat * nat * nat) : Prop :=
  let '(ll, k, j) := x in ll < NUM_VARS /\ k < nz e /\ j < 4.

Lemma hx_dst_lt j : j < 4 -> hx_dst j < nx e + 2 * hs.
Proof. unfold hx_dst, hs. destruct j as [|[|[|[|j]]]]; lia. Qed.

Lemma hx_src_lt j : j < 4 -> hx_src j < nx e + 2 * hs.
Proof. unfold hx_src, hs. destruct j as [|[|[|[|j]]]]; lia. Qed.

Lemma hx_dst_inj j j' : j < 4 -> j' < 4 -> hx_dst j = hx_dst j' -> j = j'.
Proof.
  unfold hx_dst, hs.
  destruct j as [|[|[|[|j]]]]; destruct j' as [|[|[|[|j']]]]; lia.
Qed.

Lemma hx_src_dst j j' : j < 4 -> j' < 4 -> hx_src j <> hx_dst j'.
Proof.
  unfold hx_dst, hx_src, hs.
  destruct j as [|[|[|[|j]]]]; destruct j' as [|[|[|[|j']]]]; lia.
Qed.

Lemma hx_tgt_inj x y : hx_S x -> hx_S y -> hx_tgt x = hx_tgt y -> x = y.
Proof.
  destruct x as [[ll k] j], y as [[ll' k'] j']. simpl.
  intros (Hl & Hk & Hj) (Hl' & Hk' & Hj') Heq.
  injection Heq as Heq.
  apply sidx_inj in Heq as (-> & Hkk & Hjj);
    try (unfold hs; lia); try (apply hx_dst_lt; lia).
  apply hx_dst_inj in Hjj; auto. assert (k = k') by lia. congruence.
Qed.

(** A copy reads a cell that no copy writes. *)
Lemma hx_val_frame x m m' : hx_S x ->
  (forall c, (forall y, hx_S y -> hx_tgt y <> c) -> peek m' c = peek m c) ->
  hx_val x m' = hx_val x m.
Proof.
  destruct x as [[ll k] j]. simpl. intros (Hl & Hk & Hj) Hag.
  apply (Hag (p, sidx e ll (k + hs) (hx_src j))).
  intros [[ll' k'] j'] (Hl' & Hk' & Hj') Heq. simpl in Heq.
  injection Heq as Heq.
  apply sidx_inj in Heq as (_ & _ & Hjj);
    try (unfold hs; lia); try (apply hx_dst_lt; lia); try (apply hx_src_lt; lia).
  symmetry in Hjj. revert Hjj. apply hx_src_dst; lia.
Qed.

Lemma hx_val_indep x m m' : hx_S x ->
  (forall c, (forall y, hx_S y -> hx_tgt y = c -> y = x) -> peek m' c = peek m c) ->
  hx_val x m' = hx_val x m.
Proof.
  intros Hx Hag. apply hx_val_frame; auto.
  intros c Hc. apply Hag. intros y Hy Hty. exfalso. eapply Hc; eauto.
Qed.

Lemma hx_tgt_lt x : hx_S x -> snd (hx_tgt x) < block_size e (fst (hx_tgt x)).
Proof.
  destruct x as [[ll k] j]. simpl. intros (Hl & Hk & Hj).
  apply sidx_lt; auto; [unfold hs; lia | apply hx_dst_lt; lia].
Qed.

Local Abbreviation hx_good := (good _ hx_tgt hx_val (block_size e) hx_S).

Lemma halo_x_body_good ll k :
  hx_good (fun x => fst (fst x) = ll /\ snd (fst x) = k /\ snd x < 4) (halo_x_body e p ll k).
Proof.
  intros Hsub.
  assert (Hs : forall j, j < 4 -> hx_S (ll, k, j)) by (intros j Hj; apply Hsub; simpl; auto).
  assert (Hst : forall j, j < 4 ->
    hx_good (fun y => y = (ll, k, j))
      (fun m => st m p (sidx e ll (k + hs) (hx_dst j)) (hx_val (ll, k, j) m))).
  { intros j Hj. apply (good_store _ hx_tgt hx_val (block_size e) hx_S (ll, k, j)).
    - reflexivity.
    - apply (hx_tgt_lt (ll, k, j)). apply Hs; exact Hj. }
  pose proof (good_seq _ hx_tgt hx_val (block_size e) hx_S hx_tgt_inj hx_val_indep) as Hseq.
  assert (H01 := Hseq _ _ _ _ (fun x (H0 : x = (ll, k, 0)) (H1 : x = (ll, k, 1)) =>
                  ltac:(congruence) : False) (Hst 0 ltac:(lia)) (Hst 1 ltac:(lia))).
  assert (H012 := Hseq _ _ _ _ (fun x (H0 : x = (ll, k, 0) \/ x = (ll, k, 1))
                  (H1 : x = (ll, k, 2)) =>
                  ltac:(destruct H0; congruence) : False) H01 (Hst 2 ltac:(lia))).
  assert (H0123 := Hseq _ _ _ _ (fun x
                  (H0 : (x = (ll, k, 0) \/ x = (ll, k, 1)) \/ x = (ll, k, 2))
                  (H1 : x = (ll, k, 3)) =>
                  ltac:(destruct H0 as [[|]|]; congruence) : False) H012 (Hst 3 ltac:(lia))).
  revert Hsub. apply (good_equiv _ hx_tgt hx_val (block_size e) hx_S _ _ _ ) with (2 := H0123).
  intros [[ll' k'] j']. simpl. split.
  - intros [[[|]|]|]; injection H as -> -> ->; lia.
  - intros (-> & -> & Hj). destruct j' as [|[|[|[|j']]]]; auto; lia.
Qed.

Definition halo_x_copy (m : mem) : mem :=
  for_ NUM_VARS (fun ll => for_ (nz e) (fun k => halo_x_body e p ll k)) m.

Lemma halo_x_copy_good : hx_good hx_S halo_x_copy.
Proof.
  unfold halo_x_copy.
  eapply good_equiv; [|apply (good_for _ hx_tgt hx_val (block_size e) hx_S hx_tgt_inj hx_val_indep
                               NUM_VARS (fun ll x => fst (fst x) = ll /\ snd (fst x) < nz e /\ snd x < 4))].
  - intros [[ll k] j]. simpl. split.
    + intros (i & Hi & -> & Hk & Hj). auto.
    + intros (Hl & Hk & Hj). exists ll. auto.
  - intros i j x (Hi & _) (Hj & _). congruence.
  - intros ll Hll.
    eapply good_equiv; [|apply (good_for _ hx_tgt hx_val (block_size e) hx_S hx_tgt_inj hx_val_indep
                               (nz e) (fun k x => fst (fst x) = ll /\ snd (fst x) = k /\ snd x < 4))].
    + intros [[ll' k] j]. simpl. split.
      * intros (i & Hi & -> & -> & Hj). auto.
      * intros (-> & Hk & Hj). exists k. auto.
    + intros i j x (_ & Hi & _) (_ & Hj & _). congruence.
    + intros k Hk. apply halo_x_body_good.
Qed.

End HaloX.

Section HaloXInjection.
Context `{A : Arith}.
Variable cfg : config.
Variable e : env.
Variable p : ptr.
Hypothesis Hp : is_state p.
Local Open Scope fl_scope.

Definition inj_var (j : nat) : nat := match j with 0 => ID_UMOM | _ => ID_RHOT end.

Definition inj_tgt (x : nat * nat * nat) : ptr * nat :=
  let '(k, i, j) := x in (p, sidx e (inj_var j) (k + hs) i).
Definition inj_val (x : nat * nat * nat) (m : mem) : F :=
  let '(k, i, j) := x in
  match j with
  | 0 => (ld m p (sidx e ID_DENS (k + hs) i) + at_ (hy_dens_cell e) (k + hs)) * #50
  | _ => (ld m p (sidx e ID_DENS (k + hs) i) + at_ (hy_dens_cell e) (k + hs)) * #298
         - at_ (hy_dens_theta_cell e) (k + hs)
  end.
Definition inj_S (x : nat * nat * nat) : Prop :=
  let '(k, i, j) := x in k < nz e /\ i < hs /\ j < 2 /\ in_band cfg e k = true.

Lemma inj_tgt_inj x y : inj_S x -> inj_S y -> inj_tgt x = inj_tgt y -> x = y.
Proof.
  destruct x as [[k i] j], y as [[k' i'] j']. simpl.
  intros (Hk & Hi & Hj & _) (Hk' & Hi' & Hj' & _) Heq.
  injection Heq as Heq.
  apply sidx_inj in Heq as (Hv & Hkk & ->); try (unfold hs in *; lia).
  assert (k = k') by lia. subst k'.
  assert (j = j'); [|congruence].
  destruct j as [|[|j]], j' as [|[|j']]; try lia; discriminate Hv.
Qed.

Lemma inj_val_frame x m m' : inj_S x ->
  (forall c, (forall y, inj_S y -> inj_tgt y <> c) -> peek m' c = peek m c) ->
  inj_val x m' = inj_val x m.
Proof.
  destruct x as [[k i] j]. simpl. intros (Hk & Hi & Hj & Hb) Hag.
  assert (Hr : ld m' p (sidx e ID_DENS (k + hs) i) = ld m p (sidx e ID_DENS (k + hs) i)).
  { apply (Hag (p, sidx e ID_DENS (k + hs) i)).
    intros [[k' i'] j'] (Hk' & Hi' & Hj' & _) Heq. simpl in Heq.
    injection Heq as Heq.
    apply sidx_inj in Heq as (Hv & _ & _); try (unfold hs in *; lia).
    destruct j' as [|j']; discriminate Hv. }
  rewrite Hr. reflexivity.
Qed.

Lemma inj_val_indep x m m' : inj_S x ->
  (forall c, (forall y, inj_S y -> inj_tgt y = c -> y = x) -> peek m' c = peek m c) ->
  inj_val x m' = inj_val x m.
Proof.
  intros Hx Hag. apply inj_val_frame; auto.
  intros c Hc. apply Hag. intros y Hy Hty. exfalso. eapply Hc; eauto.
Qed.

Local Abbreviation inj_good := (good _ inj_tgt inj_val (block_size e) inj_S).

Lemma injection_body_good k i :
  inj_good (fun x => fst (fst x) = k /\ snd (fst x) = i /\ snd x < 2 /\ in_band cfg e k = true)
           (injection_body cfg e p k i).
Proof.
  unfold injection_body. destruct (in_band cfg e k) eqn:Hb.
  - intros Hsub.
    assert (Hs : forall j, j < 2 -> inj_S (k, i, j)) by (intros j Hj; apply Hsub; simpl; auto).
    assert (Hst : forall j, j < 2 ->
      inj_good (fun y => y = (k, i, j))
        (fun m => st m p (sidx e (inj_var j) (k + hs) i) (inj_val (k, i, j) m))).
    { intros j Hj. apply (good_store _ inj_tgt inj_val (block_size e) inj_S (k, i, j)).
      - reflexivity.
      - destruct (Hs j Hj) as (Hk & Hi & _ & _).
        apply sidx_lt; auto; try (unfold hs in *; lia).
        unfold NUM_VARS. destruct j as [|[|j]]; simpl; unfold ID_UMOM, ID_RHOT; lia. }
    pose proof (good_seq _ inj_tgt inj_val (block_size e) inj_S inj_tgt_inj inj_val_indep) as Hseq.
    assert (H01 := Hseq _ _ _ _ (fun x (H0 : x = (k, i, 0)) (H1 : x = (k, i, 1)) =>
                    ltac:(congruence) : False) (Hst 0 ltac:(lia)) (Hst 1 ltac:(lia))).
    revert Hsub. apply (good_equiv _ inj_tgt inj_val (block_size e) inj_S _ _ _) with (2 := H01).
    intros [[k' i'] j']. simpl. split.
    + intros [|]; injection H as -> -> ->; repeat split; auto; lia.
    + intros (-> & -> & Hj & _). destruct j' as [|[|j']]; auto; lia.
  - apply (good_equiv _ inj_tgt inj_val (block_size e) inj_S (fun _ => False)).
    + intros x. split; [intros [] | intros (_ & _ & _ & Hf); discriminate Hf].
    + apply good_skip.
Qed.

Definition injection_loop (m : mem) : mem :=
  for_ (nz e) (fun k => for_ hs (fun i => injection_body cfg e p k i)) m.

Lemma injection_loop_good : inj_good inj_S injection_loop.
Proof.
  unfold injection_loop.
  eapply good_equiv;
    [|apply (good_nest2 _ inj_tgt inj_val (block_size e) inj_S inj_tgt_inj inj_val_indep
               (nz e) hs
               (fun k i x => fst (fst x) = k /\ snd (fst x) = i /\ snd x < 2
                             /\ in_band cfg e k = true))].
  - intros [[k i] j]. simpl. split.
    + intros (a & b & Ha & Hb & -> & -> & Hj & Hband). auto.
    + intros (Hk & Hi & Hj & Hband). exists k, i. auto 10.
  - intros a b a' b' x (H1 & H2 & _) (H3 & H4 & _). split; congruence.
  - intros k i _ _. apply injection_body_good.
Qed.

End HaloXInjection.

Section HaloXSpec.
Context `{A : Arith}.
Variable cfg : config.
Variable e : env.
Variable p : ptr.
Hypothesis Hp : is_state p.
Hypothesis Hnx : 2 <= nx e.
Local Open Scope fl_scope.

(** The interior column a padded column takes its periodic value from. *)
Definition xwrap (c : nat) : nat :=
  if c <? hs then c + nx e else if c <? nx e + hs then c else c - nx e.

Definition inj_active : bool :=
  Z.eqb (data_spec_int cfg) DATA_SPEC_INJECTION && Z.eqb (myrank e) 0.

(** Row [k+hs] of the array [p] after [set_halo_values_x], read off the
    heap [m] before the call. *)
Definition halo_x_read (m : mem) (ll k c : nat) : F :=
  let base ll := ld m p (sidx e ll (k + hs) (xwrap c)) in
  if inj_active && in_band cfg e k && (c <? hs) then
    if Nat.eqb ll ID_UMOM then
      (base ID_DENS + at_ (hy_dens_cell e) (k + hs)) * #50
    else if Nat.eqb ll ID_RHOT then
      (base ID_DENS + at_ (hy_dens_cell e) (k + hs)) * #298
      - at_ (hy_dens_theta_cell e) (k + hs)
    else base ll
  else base ll.

Local Close Scope fl_scope.

Lemma halo_x_copy_read (m : mem) ll k c :
  wf e m -> ll < NUM_VARS -> k < nz e -> c < nx e + 2 * hs ->
  ld (halo_x_copy e p m) p (sidx e ll (k + hs) c) = ld m p (sidx e ll (k + hs) (xwrap c)).
Proof.
  intros Hm Hl Hk Hc.
  destruct (halo_x_copy_good e p Hp Hnx (fun x Hx => Hx) m Hm) as (_ & Hw & Hf).
  unfold xwrap, hs in *.
  destruct (Nat.ltb_spec c 2) as [Hc2|Hc2].
  - assert (Hj : c < 4) by lia.
    specialize (Hw (ll, k, c) (conj Hl (conj Hk Hj))). unfold peek in Hw. simpl in Hw.
    destruct c as [|[|c]]; try lia; simpl in Hw; unfold hs in Hw; rewrite Hw; f_equal; f_equal; lia.
  - destruct (Nat.ltb_spec c (nx e + 2)) as [Hc3|Hc3].
    + apply (Hf (p, sidx e ll (k + 2) c)).
      intros [[ll' k'] j'] (Hl' & Hk' & Hj') Heq. simpl in Heq. injection Heq as Heq.
      apply sidx_inj in Heq as (_ & _ & Hjj);
        try (unfold hs; lia); try (apply hx_dst_lt; lia).
      unfold hx_dst, hs in Hjj. destruct j' as [|[|[|[|j']]]]; lia.
    + assert (Hcc : c = nx e + 2 \/ c = nx e + 3) by lia.
      destruct Hcc as [-> | ->].
      * specialize (Hw (ll, k, 2) (conj Hl (conj Hk (ltac:(lia) : 2 < 4)))). unfold peek in Hw.
        simpl in Hw. unfold hs in Hw. rewrite Hw. f_equal. f_equal. lia.
      * specialize (Hw (ll, k, 3) (conj Hl (conj Hk (ltac:(lia) : 3 < 4)))). unfold peek in Hw.
        simpl in Hw. unfold hs in Hw.
        replace (nx e + 3) with (nx e + 2 + 1) by lia. rewrite Hw. f_equal. f_equal. lia.
Qed.

Lemma halo_x_copy_frame (m : mem) q i :
  wf e m ->
  (forall ll k c, ll < NUM_VARS -> k < nz e -> c < nx e + 2 * hs ->
     (q, i) <> (p, sidx e ll (k + hs) c)) ->
  ld (halo_x_copy e p m) q i = ld m q i.
Proof.
  intros Hm Hne.
  destruct (halo_x_copy_good e p Hp Hnx (fun x Hx => Hx) m Hm) as (_ & _ & Hf).
  apply (Hf (q, i)).
  intros [[ll k] j] (Hl & Hk & Hj) Heq. simpl in Heq.
  apply (Hne ll k (hx_dst e j)); auto. apply hx_dst_lt; lia.
Qed.

Lemma halo_x_copy_wf (m : mem) : wf e m -> wf e (halo_x_copy e p m).
Proof.
  intros Hm.
  destruct (halo_x_copy_good e p Hp Hnx (fun x Hx => Hx) m Hm) as (Hs & _ & _). exact Hs.
Qed.

Lemma set_halo_values_x_unfold (m : mem) :
  set_halo_values_x cfg e p m =
  if inj_active then injection_loop cfg e p (halo_x_copy e p m) else halo_x_copy e p m.
Proof.
  unfold set_halo_values_x, inj_active, injection_loop, halo_x_copy.
  destruct (Z.eqb (data_spec_int cfg) DATA_SPEC_INJECTION); simpl; [|reflexivity].
  destruct (Z.eqb (myrank e) 0); reflexivity.
Qed.

Lemma set_halo_values_x_wf (m : mem) : wf e m -> wf e (set_halo_values_x cfg e p m).
Proof.
  intros Hm. rewrite set_halo_values_x_unfold.
  destruct inj_active; [|apply halo_x_copy_wf; auto].
  destruct (injection_loop_good cfg e p Hp (fun x Hx => Hx) _ (halo_x_copy_wf m Hm))
    as (Hs & _ & _).
  exact Hs.
Qed.

Lemma set_halo_values_x_read (m : mem) ll k c :
  wf e m -> ll < NUM_VARS -> k < nz e -> c < nx e + 2 * hs ->
  ld (set_halo_values_x cfg e p m) p (sidx e ll (k + hs) c) = halo_x_read m ll k c.
Proof.
  intros Hm Hl Hk Hc. rewrite set_halo_values_x_unfold. unfold halo_x_read.
  destruct inj_active; simpl; [|apply halo_x_copy_read; auto].
  destruct (injection_loop_good cfg e p Hp (fun x Hx => Hx) _ (halo_x_copy_wf m Hm))
    as (_ & Hw & Hf).
  destruct (in_band cfg e k) eqn:Hb; simpl.
  - destruct (Nat.ltb_spec c hs) as [Hc2|Hc2].
    + destruct (Nat.eqb_spec ll ID_UMOM) as [->|Hu].
      * specialize (Hw (k, c, 0) (conj Hk (conj Hc2 (conj (ltac:(lia) : 0 < 2) Hb)))).
        unfold peek in Hw. simpl in Hw. rewrite Hw.
        rewrite halo_x_copy_read; auto. unfold NUM_VARS, ID_DENS; lia.
      * destruct (Nat.eqb_spec ll ID_RHOT) as [->|Ht].
        -- specialize (Hw (k, c, 1) (conj Hk (conj Hc2 (conj (ltac:(lia) : 1 < 2) Hb)))).
           unfold peek in Hw. simpl in Hw. rewrite Hw.
           rewrite halo_x_copy_read; auto. unfold NUM_VARS, ID_DENS; lia.
        -- rewrite <- halo_x_copy_read; auto.
           apply (Hf (p, sidx e ll (k + hs) c)).
           intros [[k' i'] j'] (Hk' & Hi' & Hj' & _) Heq. simpl in Heq. injection Heq as Heq.
           apply sidx_inj in Heq as (Hv & _ & _); try (unfold hs in *; lia).
           destruct j' as [|j']; simpl in Hv; congruence.
    + rewrite <- halo_x_copy_read; auto.
      apply (Hf (p, sidx e ll (k + hs) c)).
      intros [[k' i'] j'] (Hk' & Hi' & Hj' & _) Heq. simpl in Heq. injection Heq as Heq.
      apply sidx_inj in Heq as (_ & _ & Hi); try (unfold hs in *; lia).
  - rewrite <- halo_x_copy_read; auto.
    apply (Hf (p, sidx e ll (k + hs) c)).
    intros [[k' i'] j'] (Hk' & Hi' & Hj' & Hb') Heq. simpl in Heq. injection Heq as Heq.
    apply sidx_inj in Heq as (_ & Hkk & _); try (unfold hs in *; lia).
    assert (k' = k) by lia. subst k'. congruence.
Qed.

Lemma set_halo_values_x_frame (m : mem) q i :
  wf e m ->
  (forall ll k c, ll < NUM_VARS -> k < nz e -> c < nx e + 2 * hs ->
     (q, i) <> (p, sidx e ll (k + hs) c)) ->
  ld (set_halo_values_x cfg e p m) q i = ld m q i.
Proof.
  intros Hm Hne. rewrite set_halo_values_x_unfold.
  destruct inj_active; [|apply halo_x_copy_frame; auto].
  destruct (injection_loop_good cfg e p Hp (fun x Hx => Hx) _ (halo_x_copy_wf m Hm))
    as (_ & _ & Hf).
  rewrite <- (halo_x_copy_frame m q i); auto.
  apply (Hf (q, i)).
  intros [[k' i'] j'] (Hk' & Hi' & Hj' & _) Heq. simpl in Heq.
  apply (Hne (inj_var j') k' i'); auto; try (unfold hs in *; lia).
  unfold NUM_VARS. destruct j' as [|j']; simpl; unfold ID_UMOM, ID_RHOT; lia.
Qed.

(** Interior columns are left alone. *)
Lemma halo_x_read_interior (m : mem) ll k c :
  hs <= c -> c < nx e + hs -> halo_x_read m ll k c = ld m p (sidx e ll (k + hs) c).
Proof.
  intros H1 H2. unfold halo_x_read, xwrap.
  destruct (Nat.ltb_spec c hs); [lia|]. rewrite andb_false_r.
  destruct (Nat.ltb_spec c (nx e + hs)); [reflexivity | lia].
Qed.

Lemma xwrap_interior c : c < nx e + 2 * hs -> hs <= xwrap c /\ xwrap c < nx e + hs.
Proof.
  clear Hp. unfold xwrap, hs. intros Hc.
  destruct (Nat.ltb_spec c 2); [lia|].
  destruct (Nat.ltb_spec c (nx e + 2)); lia.
Qed.

End HaloXSpec.

Section HaloZ.
Context `{A : Arith}.
Variable e : env.
Variable p : ptr.
Hypothesis Hp : is_state p.
Hypothesis Hnz : 1 <= nz e.

(** The four halo rows and the interior row each takes its value from. *)
Definition hz_row (j : nat) : nat :=
  match j with 0 => 0 | 1 => 1 | 2 => nz e + hs | _ => nz e + hs + 1 end.
Definition hz_src (j : nat) : nat :=
  match j with 0 => hs | 1 => hs | _ => nz e + hs - 1 end.

Definition hz_tgt (x : nat * nat * nat) : ptr * nat :=
  let '(ll, i, j) := x in (p, sidx e ll (hz_row j) i).
Definition hz_val (x : nat * nat * nat) (m : mem) : F :=
  let '(ll, i, j) := x in
  if Nat.eqb ll ID_WMOM then of_int 0
  else if Nat.eqb ll ID_UMOM then
    fmul (fdiv (ld m p (sidx e ll (hz_src j) i)) (at_ (hy_dens_cell e) (hz_src j)))
         (at_ (hy_dens_cell e) (hz_row j))
  else ld m p (sidx e ll (hz_src j) i).
Definition hz_S (x : nat * nat * nat) : Prop :=
  let '(ll, i, j) := x in ll < NUM_VARS /\ i < nx e + 2 * hs /\ j < 4.

Lemma hz_row_lt j : j < 4 -> hz_row j < nz e + 2 * hs.
Proof. unfold hz_row, hs. destruct j as [|[|[|[|j]]]]; lia. Qed.

Lemma hz_src_lt j : hz_src j < nz e + 2 * hs.
Proof. unfold hz_src, hs. destruct j as [|[|j]]; lia. Qed.

Lemma hz_row_inj j j' : j < 4 -> j' < 4 -> hz_row j = hz_row j' -> j = j'.
Proof.
  unfold hz_row, hs.
  destruct j as [|[|[|[|j]]]]; destruct j' as [|[|[|[|j']]]]; lia.
Qed.

Lemma hz_src_row j j' : j' < 4 -> hz_src j <> hz_row j'.
Proof.
  unfold hz_row, hz_src, hs.
  destruct j as [|[|j]]; destruct j' as [|[|[|[|j']]]]; lia.
Qed.

Lemma hz_tgt_inj x y : hz_S x -> hz_S y -> hz_tgt x = hz_tgt y -> x = y.
Proof.
  destruct x as [[ll i] j], y as [[ll' i'] j']. simpl.
  intros (Hl & Hi & Hj) (Hl' & Hi' & Hj') Heq.
  injection Heq as Heq.
  apply sidx_inj in Heq as (-> & Hjj & ->); auto; try (apply hz_row_lt; lia).
  apply hz_row_inj in Hjj; try lia. congruence.
Qed.

Lemma hz_val_frame x m m' : hz_S x ->
  (forall c, (forall y, hz_S y -> hz_tgt y <> c) -> peek m' c = peek m c) ->
  hz_val x m' = hz_val x m.
Proof.
  destruct x as [[ll i] j]. simpl. intros (Hl & Hi & Hj) Hag.
  assert (Hr : ld m' p (sidx e ll (hz_src j) i) = ld m p (sidx e ll (hz_src j) i)).
  { apply (Hag (p, sidx e ll (hz_src j) i)).
    intros [[ll' i'] j'] (Hl' & Hi' & Hj') Heq. simpl in Heq.
    injection Heq as Heq.
    apply sidx_inj in Heq as (_ & Hjj & _); auto;
      try (apply hz_row_lt; lia); try apply hz_src_lt.
    symmetry in Hjj. revert Hjj. apply hz_src_row; lia. }
  rewrite Hr. reflexivity.
Qed.

Lemma hz_val_indep x m m' : hz_S x ->
  (forall c, (forall y, hz_S y -> hz_tgt y = c -> y = x) -> peek m' c = peek m c) ->
  hz_val x m' = hz_val x m.
Proof.
  intros Hx Hag. apply hz_val_frame; auto.
  intros c Hc. apply Hag. intros y Hy Hty. exfalso. eapply Hc; eauto.
Qed.

Local Abbreviation hz_good := (good _ hz_tgt hz_val (block_size e) hz_S).

Lemma halo_z_body_good ll i :
  hz_good (fun x => fst (fst x) = ll /\ snd (fst x) = i /\ snd x < 4) (halo_z_body e p ll i).
Proof.
  intros Hsub.
  assert (Hs : forall j, j < 4 -> hz_S (ll, i, j)) by (intros j Hj; apply Hsub; simpl; auto).
  assert (Hst : forall j, j < 4 ->
    hz_good (fun y => y = (ll, i, j))
      (fun m => st m p (sidx e ll (hz_row j) i) (hz_val (ll, i, j) m))).
  { intros j Hj. apply (good_store _ hz_tgt hz_val (block_size e) hz_S (ll, i, j)).
    - reflexivity.
    - destruct (Hs j Hj) as (Hl & Hi & _).
      apply sidx_lt; auto. apply hz_row_lt; lia. }
  destruct (Hs 0 ltac:(lia)) as (Hl & _ & _).
  assert (G := good_seq4 _ hz_tgt hz_val (block_size e) hz_S hz_tgt_inj hz_val_indep
                 (ll, i, 0) (ll, i, 1) (ll, i, 2) (ll, i, 3) _ _ _ _
                 ltac:(congruence) ltac:(congruence) ltac:(congruence)
                 ltac:(congruence) ltac:(congruence) ltac:(congruence)
                 (Hst 0 ltac:(lia)) (Hst 1 ltac:(lia)) (Hst 2 ltac:(lia)) (Hst 3 ltac:(lia))).
  revert Hsub.
  apply (good_equiv _ hz_tgt hz_val (block_size e) hz_S
           (fun y => y = (ll, i, 0) \/ y = (ll, i, 1) \/ y = (ll, i, 2) \/ y = (ll, i, 3))).
  - intros [[ll' i'] j']. simpl. split.
    + intros [H|[H|[H|H]]]; injection H as -> -> ->; lia.
    + intros (-> & -> & Hj). destruct j' as [|[|[|[|j']]]]; auto; lia.
  - unfold NUM_VARS in Hl.
    destruct ll as [|[|[|[|ll]]]]; [exact G | exact G | exact G | exact G | lia].
Qed.

Lemma set_halo_values_z_good : hz_good hz_S (set_halo_values_z e p).
Proof.
  unfold set_halo_values_z.
  eapply good_equiv;
    [|apply (good_nest2 _ hz_tgt hz_val (block_size e) hz_S hz_tgt_inj hz_val_indep
               NUM_VARS (nx e + 2 * hs)
               (fun ll i x => fst (fst x) = ll /\ snd (fst x) = i /\ snd x < 4))].
  - intros [[ll i] j]. simpl. split.
    + intros (a & b & Ha & Hb & -> & -> & Hj). auto.
    + intros (Hl & Hi & Hj). exists ll, i. auto 10.
  - intros a b a' b' x (H1 & H2 & _) (H3 & H4 & _). split; congruence.
  - intros ll i _ _. apply halo_z_body_good.
Qed.

(** The array [p] after [set_halo_values_z], read off the heap before. *)
Definition halo_z_read (m : mem) (ll r i : nat) : F :=
  if (r <? hs) || (nz e + hs <=? r) then
    let src := if r <? hs then hs else nz e + hs - 1 in
    if Nat.eqb ll ID_WMOM then of_int 0
    else if Nat.eqb ll ID_UMOM then
      fmul (fdiv (ld m p (sidx e ll src i)) (at_ (hy_dens_cell e) src))
           (at_ (hy_dens_cell e) r)
    else ld m p (sidx e ll src i)
  else ld m p (sidx e ll r i).

Lemma set_halo_values_z_wf (m : mem) : wf e m -> wf e (set_halo_values_z e p m).
Proof.
  intros Hm. destruct (set_halo_values_z_good (fun x Hx => Hx) m Hm) as (Hs & _ & _). exact Hs.
Qed.

Lemma set_halo_values_z_read (m : mem) ll r i :
  wf e m -> ll < NUM_VARS -> r < nz e + 2 * hs -> i < nx e + 2 * hs ->
  ld (set_halo_values_z e p m) p (sidx e ll r i) = halo_z_read m ll r i.
Proof.
  intros Hm Hl Hr Hi.
  destruct (set_halo_values_z_good (fun x Hx => Hx) m Hm) as (_ & Hw & Hf).
  unfold halo_z_read, hs in *.
  assert (Hcase : r = 0 \/ r = 1 \/ r = nz e + 2 \/ r = nz e + 3 \/ (2 <= r < nz e + 2)) by lia.
  destruct Hcase as [-> | [-> | [-> | [-> | Hin]]]].
  - specialize (Hw (ll, i, 0) (conj Hl (conj Hi (ltac:(lia) : 0 < 4)))).
    unfold peek in Hw. simpl in Hw. rewrite Hw. reflexivity.
  - specialize (Hw (ll, i, 1) (conj Hl (conj Hi (ltac:(lia) : 1 < 4)))).
    unfold peek in Hw. simpl in Hw. rewrite Hw. reflexivity.
  - specialize (Hw (ll, i, 2) (conj Hl (conj Hi (ltac:(lia) : 2 < 4)))).
    unfold peek in Hw. simpl in Hw. unfold hs in Hw. rewrite Hw.
    destruct (Nat.ltb_spec (nz e + 2) 2); [lia|].
    destruct (Nat.leb_spec (nz e + 2) (nz e + 2)); [|lia]. simpl. unfold hs. reflexivity.
  - specialize (Hw (ll, i, 3) (conj Hl (conj Hi (ltac:(lia) : 3 < 4)))).
    unfold peek in Hw. simpl in Hw. unfold hs in Hw.
    replace (nz e + 3) with (nz e + 2 + 1) by lia. rewrite Hw.
    destruct (Nat.ltb_spec (nz e + 2 + 1) 2); [lia|].
    destruct (Nat.leb_spec (nz e + 2) (nz e + 2 + 1)); [|lia]. simpl. unfold hs. reflexivity.
  - destruct (Nat.ltb_spec r 2); [lia|].
    destruct (Nat.leb_spec (nz e + 2) r); [lia|]. simpl.
    apply (Hf (p, sidx e ll r i)).
    intros [[ll' i'] j'] (Hl' & Hi' & Hj') Heq. simpl in Heq. injection Heq as Heq.
    apply sidx_inj in Heq as (_ & Hjj & _); auto; try (unfold hs; lia);
      try (apply hz_row_lt; lia).
    unfold hz_row, hs in Hjj. destruct j' as [|[|[|[|j']]]]; lia.
Qed.

Lemma set_halo_values_z_frame (m : mem) q : wf e m -> q <> p ->
  buf (set_halo_values_z e p m) q = buf m q.
Proof.
  intros Hm Hq.
  apply (summ_buf _ hz_tgt hz_val (block_size e) hz_S m _ q Hm
           (set_halo_values_z_good (fun x Hx => Hx) m Hm)).
  intros [[ll i] j] _. simpl. congruence.
Qed.

End HaloZ.

(** * Flux and tendency kernels *)

(** A generic loop invariant. *)
Lemma for_inv {S : Type} (P : S -> Prop) (n : nat) (body : nat -> S -> S) (s : S) :
  P s -> (forall i s', i < n -> P s' -> P (body i s')) -> P (for_ n body s).
Proof.
  intros H0. induction n as [|n IH]; intros Hstep; simpl; auto.
  apply Hstep; [lia|]. apply IH. intros i s' Hi. apply Hstep. lia.
Qed.

(** A loop invariant that knows the iteration count. *)
Lemma for_inv_idx {S : Type} (P : nat -> S -> Prop) (n : nat) (body : nat -> S -> S) (s : S) :
  P 0 s -> (forall i s', i < n -> P i s' -> P (Datatypes.S i) (body i s')) -> P n (for_ n body s).
Proof.
  intros H0. induction n as [|n IH]; intros Hstep; simpl; auto.
  apply Hstep; [lia|]. apply IH. intros i s' Hi. apply Hstep. lia.
Qed.

Section KernelFormulas.
Context `{A : Arith}.
Variable cfg : config.
Variable e : env.
Local Open Scope fl_scope.

(** The padded state array [p] of a heap as a function of variable, row
    and column, and the flux array as a function of variable, interface
    row and interface column. *)
Definition grid (m : mem) (p : ptr) (ll r c : nat) : F := ld m p (sidx e ll r c).
Definition fluxes (m : mem) (ll k i : nat) : F := ld m Pflux (fidx e ll k i).

(** The flux that [compute_tendencies_x] stores for variable [ll] at
    interface [(k,i)], as a function of the padded state [g]. *)
Definition flux_x_of (g : nat -> nat -> nat -> F) (dt : F) (ll k i : nat) : F :=
  let stencil ll s := g ll (k + hs)%nat (i + s)%nat in
  let vals ll := interp4 (stencil ll 0%nat) (stencil ll 1%nat) (stencil ll 2%nat) (stencil ll 3%nat) in
  let d3_vals ll := deriv3 (stencil ll 0%nat) (stencil ll 1%nat) (stencil ll 2%nat) (stencil ll 3%nat) in
  let hv_coef := hv_coef_x cfg dt in
  let r := vals ID_DENS + at_ (hy_dens_cell e) (k + hs) in
  let u := vals ID_UMOM / r in
  let w := vals ID_WMOM / r in
  let t := (vals ID_RHOT + at_ (hy_dens_theta_cell e) (k + hs)) / r in
  let p := C0 * fpow (r * t) gamm in
  match ll with
  | 0 => r * u - hv_coef * d3_vals ID_DENS
  | 1 => (r * u * u + p) - hv_coef * d3_vals ID_UMOM
  | 2 => r * u * w - hv_coef * d3_vals ID_WMOM
  | _ => r * u * t - hv_coef * d3_vals ID_RHOT
  end.

Definition flux_z_of (g : nat -> nat -> nat -> F) (dt : F) (ll k i : nat) : F :=
  let stencil ll s := g ll (k + s)%nat (i + hs)%nat in
  let vals ll := interp4 (stencil ll 0%nat) (stencil ll 1%nat) (stencil ll 2%nat) (stencil ll 3%nat) in
  let d3_vals ll := deriv3 (stencil ll 0%nat) (stencil ll 1%nat) (stencil ll 2%nat) (stencil ll 3%nat) in
  let hv_coef := hv_coef_z cfg dt in
  let r := vals ID_DENS + at_ (hy_dens_int e) k in
  let u := vals ID_UMOM / r in
  let w := vals ID_WMOM / r in
  let t := (vals ID_RHOT + at_ (hy_dens_theta_int e) k) / r in
  let p := C0 * fpow (r * t) gamm - at_ (hy_pressure_int e) k in
  let bnd := orb (Nat.eqb k 0) (Nat.eqb k (nz e)) in
  let w := if bnd then #0 else w in
  let d3_dens := if bnd then #0 else d3_vals ID_DENS in
  match ll with
  | 0 => r * w - hv_coef * d3_dens
  | 1 => r * w * u - hv_coef * d3_vals ID_UMOM
  | 2 => (r * w * w + p) - hv_coef * d3_vals ID_WMOM
  | _ => r * w * t - hv_coef * d3_vals ID_RHOT
  end.

(** The tendencies as functions of the fluxes [fl] (and of the state, for
    the gravity source). *)
Definition tend_x_of (fl : nat -> nat -> nat -> F) (ll k i : nat) : F :=
  (- (fl ll k (i + 1)%nat - fl ll k i)) / dx cfg.

Definition tend_z_of (fl g : nat -> nat -> nat -> F) (ll k i : nat) : F :=
  let t := (- (fl ll (k + 1)%nat i - fl ll k i)) / dz cfg in
  if Nat.eqb ll ID_WMOM then t - g ID_DENS (k + hs)%nat (i + hs)%nat * grav else t.

End KernelFormulas.

Section FluxLoops.
Context `{A : Arith}.
Variable cfg : config.
Variable e : env.
Variable p : ptr.
Hypothesis Hp : is_state p.
Variable dt : F.

Lemma state_not_flux : p <> Pflux.
Proof. destruct Hp; subst; discriminate. Qed.

Lemma state_not_tend : p <> Ptend.
Proof. destruct Hp; subst; discriminate. Qed.

Definition fl_tgt (x : nat * nat * nat) : ptr * nat :=
  let '(k, i, ll) := x in (Pflux, fidx e ll k i).

(** *** The flux loop in x *)

Definition fx_val (x : nat * nat * nat) (m : mem) : F :=
  let '(k, i, ll) := x in flux_x_of cfg e (grid e m p) dt ll k i.
Definition fx_S (x : nat * nat * nat) : Prop :=
  let '(k, i, ll) := x in k < nz e /\ i < nx e + 1 /\ ll < NUM_VARS.

Lemma fx_tgt_inj x y : fx_S x -> fx_S y -> fl_tgt x = fl_tgt y -> x = y.
Proof.
  destruct x as [[k i] ll], y as [[k' i'] ll']. simpl.
  intros (Hk & Hi & Hl) (Hk' & Hi' & Hl') Heq. injection Heq as Heq.
  apply fidx_inj in Heq as (-> & -> & ->); auto; lia.
Qed.

(** A flux value depends on the heap through the array [p] only. *)
Lemma flux_x_of_ext (g g' : nat -> nat -> nat -> F) ll k i :
  (forall l s, l < NUM_VARS -> s < sten_size -> g l (k + hs) (i + s) = g' l (k + hs) (i + s)) ->
  flux_x_of cfg e g dt ll k i = flux_x_of cfg e g' dt ll k i.
Proof.
  intros Hg. unfold flux_x_of.
  rewrite !(Hg ID_DENS), !(Hg ID_UMOM), !(Hg ID_WMOM), !(Hg ID_RHOT);
    unfold ID_DENS, ID_UMOM, ID_WMOM, ID_RHOT, NUM_VARS, sten_size; try lia.
  reflexivity.
Qed.

(** The same, between two interfaces of one row. *)
Lemma flux_x_of_shift (g g' : nat -> nat -> nat -> F) ll k i i' :
  (forall l s, l < NUM_VARS -> s < sten_size -> g l (k + hs) (i + s) = g' l (k + hs) (i' + s)) ->
  flux_x_of cfg e g dt ll k i = flux_x_of cfg e g' dt ll k i'.
Proof.
  intros Hg. unfold flux_x_of.
  rewrite !(Hg ID_DENS), !(Hg ID_UMOM), !(Hg ID_WMOM), !(Hg ID_RHOT);
    unfold ID_DENS, ID_UMOM, ID_WMOM, ID_RHOT, NUM_VARS, sten_size; try lia.
  reflexivity.
Qed.

Lemma fx_val_indep x m m' : fx_S x ->
  (forall c, (forall y, fx_S y -> fl_tgt y = c -> y = x) -> peek m' c = peek m c) ->
  fx_val x m' = fx_val x m.
Proof.
  destruct x as [[k i] ll]. simpl. intros _ Hag.
  apply flux_x_of_ext. intros l s _ _. unfold grid.
  apply (Hag (p, sidx e l (k + hs) (i + s))).
  intros [[k' i'] ll'] _ Heq. simpl in Heq. injection Heq as Heq _.
  exfalso. apply state_not_flux. congruence.
Qed.

Local Abbreviation fx_good := (good _ fl_tgt fx_val (block_size e) fx_S).

Lemma flux_x_body_good k i :
  fx_good (fun x => fst (fst x) = k /\ snd (fst x) = i /\ snd x < NUM_VARS)
          (flux_x_body cfg e p Pflux dt k i).
Proof.
  apply (good_equiv _ fl_tgt fx_val (block_size e) fx_S
           (fun y => In y [(k, i, 0); (k, i, 1); (k, i, 2); (k, i, 3)])).
  - intros [[k' i'] ll']. simpl. unfold NUM_VARS. split.
    + intros [H|[H|[H|[H|[]]]]]; injection H as <- <- <-; lia.
    + intros (-> & -> & Hl). destruct ll' as [|[|[|[|ll']]]]; auto; lia.
  - intros Hsub.
    refine (good_stores _ fl_tgt fx_val (block_size e) fx_S fx_tgt_inj
              [(k, i, 0); (k, i, 1); (k, i, 2); (k, i, 3)] _ _ Hsub).
    + repeat constructor; rewrite ?list_elem_of_In; simpl; intuition congruence.
    + intros x Hx. pose proof (Hsub x Hx) as Hs. destruct x as [[k' i'] ll']. simpl in *.
      destruct Hs as (Hk & Hi & Hl). apply fidx_lt; auto; lia.
Qed.

Definition flux_x_loop (m : mem) : mem :=
  for_ (nz e) (fun k => for_ (nx e + 1) (fun i => flux_x_body cfg e p Pflux dt k i)) m.

Lemma flux_x_loop_good : fx_good fx_S flux_x_loop.
Proof.
  unfold flux_x_loop.
  eapply good_equiv;
    [|apply (good_nest2 _ fl_tgt fx_val (block_size e) fx_S fx_tgt_inj fx_val_indep
               (nz e) (nx e + 1)
               (fun k i x => fst (fst x) = k /\ snd (fst x) = i /\ snd x < NUM_VARS))].
  - intros [[k i] ll]. simpl. split.
    + intros (a & b & Ha & Hb & -> & -> & Hl). auto.
    + intros (Hk & Hi & Hl). exists k, i. auto 10.
  - intros a b a' b' x (H1 & H2 & _) (H3 & H4 & _). split; congruence.
  - intros k i _ _. apply flux_x_body_good.
Qed.

(** *** The flux loop in z *)

Definition fz_val (x : nat * nat * nat) (m : mem) : F :=
  let '(k, i, ll) := x in flux_z_of cfg e (grid e m p) dt ll k i.
Definition fz_S (x : nat * nat * nat) : Prop :=
  let '(k, i, ll) := x in k < nz e + 1 /\ i < nx e /\ ll < NUM_VARS.

Lemma fz_tgt_inj x y : fz_S x -> fz_S y -> fl_tgt x = fl_tgt y -> x = y.
Proof.
  destruct x as [[k i] ll], y as [[k' i'] ll']. simpl.
  intros (Hk & Hi & Hl) (Hk' & Hi' & Hl') Heq. injection Heq as Heq.
  apply fidx_inj in Heq as (-> & -> & ->); auto; lia.
Qed.

Lemma flux_z_of_ext (g g' : nat -> nat -> nat -> F) ll k i :
  (forall l s, l < NUM_VARS -> s < sten_size -> g l (k + s) (i + hs) = g' l (k + s) (i + hs)) ->
  flux_z_of cfg e g dt ll k i = flux_z_of cfg e g' dt ll k i.
Proof.
  intros Hg. unfold flux_z_of.
  rewrite !(Hg ID_DENS), !(Hg ID_UMOM), !(Hg ID_WMOM), !(Hg ID_RHOT);
    unfold ID_DENS, ID_UMOM, ID_WMOM, ID_RHOT, NUM_VARS, sten_size; try lia.
  reflexivity.
Qed.

Lemma fz_val_indep x m m' : fz_S x ->
  (forall c, (forall y, fz_S y -> fl_tgt y = c -> y = x) -> peek m' c = peek m c) ->
  fz_val x m' = fz_val x m.
Proof.
  destruct x as [[k i] ll]. simpl. intros _ Hag.
  apply flux_z_of_ext. intros l s _ _. unfold grid.
  apply (Hag (p, sidx e l (k + s) (i + hs))).
  intros [[k' i'] ll'] _ Heq. simpl in Heq. injection Heq as Heq _.
  exfalso. apply state_not_flux. congruence.
Qed.

Local Abbreviation fz_good := (good _ fl_tgt fz_val (block_size e) fz_S).

Lemma flux_z_body_good k i :
  fz_good (fun x => fst (fst x) = k /\ snd (fst x) = i /\ snd x < NUM_VARS)
          (flux_z_body cfg e p Pflux dt k i).
Proof.
  apply (good_equiv _ fl_tgt fz_val (block_size e) fz_S
           (fun y => In y [(k, i, 0); (k, i, 1); (k, i, 2); (k, i, 3)])).
  - intros [[k' i'] ll']. simpl. unfold NUM_VARS. split.
    + intros [H|[H|[H|[H|[]]]]]; injection H as <- <- <-; lia.
    + intros (-> & -> & Hl). destruct ll' as [|[|[|[|ll']]]]; auto; lia.
  - intros Hsub.
    refine (good_stores _ fl_tgt fz_val (block_size e) fz_S fz_tgt_inj
              [(k, i, 0); (k, i, 1); (k, i, 2); (k, i, 3)] _ _ Hsub).
    + repeat constructor; rewrite ?list_elem_of_In; simpl; intuition congruence.
    + intros x Hx. pose proof (Hsub x Hx) as Hs. destruct x as [[k' i'] ll']. simpl in *.
      destruct Hs as (Hk & Hi & Hl). apply fidx_lt; auto; lia.
Qed.

Definition flux_z_loop (m : mem) : mem :=
  for_ (nz e + 1) (fun k => for_ (nx e) (fun i => flux_z_body cfg e p Pflux dt k i)) m.

Lemma flux_z_loop_good : fz_good fz_S flux_z_loop.
Proof.
  unfold flux_z_loop.
  eapply good_equiv;
    [|apply (good_nest2 _ fl_tgt fz_val (block_size e) fz_S fz_tgt_inj fz_val_indep
               (nz e + 1) (nx e)
               (fun k i x => fst (fst x) = k /\ snd (fst x) = i /\ snd x < NUM_VARS))].
  - intros [[k i] ll]. simpl. split.
    + intros (a & b & Ha & Hb & -> & -> & Hl). auto.
    + intros (Hk & Hi & Hl). exists k, i. auto 10.
  - intros a b a' b' x (H1 & H2 & _) (H3 & H4 & _). split; congruence.
  - intros k i _ _. apply flux_z_body_good.
Qed.

End FluxLoops.

Section TendLoops.
Context `{A : Arith}.
Variable cfg : config.
Variable e : env.
Variable p : ptr.
Hypothesis Hp : is_state p.
Variable dt : F.

Definition td_tgt (x : nat * nat * nat) : ptr * nat :=
  let '(ll, k, i) := x in (Ptend, tidx e ll k i).
Definition td_S (x : nat * nat * nat) : Prop :=
  let '(ll, k, i) := x in ll < NUM_VARS /\ k < nz e /\ i < nx e.

Definition tx_val (x : nat * nat * nat) (m : mem) : F :=
  let '(ll, k, i) := x in tend_x_of cfg (fluxes e m) ll k i.
Definition tz_val (x : nat * nat * nat) (m : mem) : F :=
  let '(ll, k, i) := x in tend_z_of cfg (fluxes e m) (grid e m p) ll k i.

Lemma td_tgt_inj x y : td_S x -> td_S y -> td_tgt x = td_tgt y -> x = y.
Proof.
  destruct x as [[ll k] i], y as [[ll' k'] i']. simpl.
  intros (Hl & Hk & Hi) (Hl' & Hk' & Hi') Heq. injection Heq as Heq.
  apply tidx_inj in Heq as (-> & -> & ->); auto.
Qed.

Lemma td_tgt_lt x : td_S x -> snd (td_tgt x) < block_size e (fst (td_tgt x)).
Proof.
  destruct x as [[ll k] i]. simpl. intros (Hl & Hk & Hi). apply tidx_lt; auto.
Qed.

(** Cells outside the tendency array are targets of no iteration. *)
Lemma td_off (x : nat * nat * nat) (m m' : mem) (q : ptr) (j : nat) :
  q <> Ptend ->
  (forall c, (forall y, td_S y -> td_tgt y = c -> y = x) -> peek m' c = peek m c) ->
  ld m' q j = ld m q j.
Proof.
  intros Hq Hag. apply (Hag (q, j)).
  intros [[ll' k'] i'] _ Heq. simpl in Heq. injection Heq as Heq _. congruence.
Qed.

Lemma tx_val_indep x m m' : td_S x ->
  (forall c, (forall y, td_S y -> td_tgt y = c -> y = x) -> peek m' c = peek m c) ->
  tx_val x m' = tx_val x m.
Proof.
  destruct x as [[ll k] i]. simpl. intros _ Hag.
  unfold tend_x_of, fluxes.
  rewrite !(td_off (ll, k, i) m m' Pflux) by (auto; discriminate). reflexivity.
Qed.

Lemma tz_val_indep x m m' : td_S x ->
  (forall c, (forall y, td_S y -> td_tgt y = c -> y = x) -> peek m' c = peek m c) ->
  tz_val x m' = tz_val x m.
Proof.
  destruct x as [[ll k] i]. simpl. intros _ Hag.
  unfold tend_z_of, fluxes, grid.
  rewrite !(td_off (ll, k, i) m m' Pflux) by (auto; discriminate).
  rewrite !(td_off (ll, k, i) m m' p) by (auto; apply state_not_tend; exact Hp).
  reflexivity.
Qed.

Local Abbreviation tx_good := (good _ td_tgt tx_val (block_size e) td_S).
Local Abbreviation tz_good := (good _ td_tgt tz_val (block_size e) td_S).

Definition tend_x_loop (m : mem) : mem :=
  for_ NUM_VARS (fun ll =>
    for_ (nz e) (fun k =>
      for_ (nx e) (fun i => tend_x_body cfg e Pflux Ptend ll k i))) m.

Definition tend_z_loop (m : mem) : mem :=
  for_ NUM_VARS (fun ll =>
    for_ (nz e) (fun k =>
      for_ (nx e) (fun i => tend_z_body cfg e p Pflux Ptend ll k i))) m.

Lemma td_S_nest x :
  (exists a b c, a < NUM_VARS /\ b < nz e /\ c < nx e /\ x = (a, b, c)) <-> td_S x.
Proof.
  destruct x as [[ll k] i]. simpl. split.
  - intros (a & b & c & Ha & Hb & Hc & Heq). injection Heq as -> -> ->. auto.
  - intros (Hl & Hk & Hi). exists ll, k, i. auto.
Qed.

Lemma tend_x_loop_good : tx_good td_S tend_x_loop.
Proof.
  unfold tend_x_loop.
  eapply good_equiv; [apply td_S_nest|].
  apply (good_nest3 _ td_tgt tx_val (block_size e) td_S td_tgt_inj tx_val_indep
           NUM_VARS (nz e) (nx e) (fun a b c x => x = (a, b, c))).
  - intros a b c a' b' c' x -> Heq. injection Heq as -> -> ->. auto.
  - intros ll k i Hl Hk Hi.
    apply (good_store _ td_tgt tx_val (block_size e) td_S (ll, k, i)).
    + reflexivity.
    + apply tidx_lt; auto.
Qed.

Lemma tend_z_body_eq ll k i (m : mem) :
  wf e m -> ll < NUM_VARS -> k < nz e -> i < nx e ->
  tend_z_body cfg e p Pflux Ptend ll k i m
  = st m Ptend (tidx e ll k i) (tz_val (ll, k, i) m).
Proof.
  intros Hm Hl Hk Hi. unfold tend_z_body, tz_val, tend_z_of, fluxes, grid.
  destruct (Nat.eqb ll ID_WMOM); [|reflexivity].
  rewrite st_st. f_equal.
  rewrite ld_st_eq by (rewrite Hm; apply tidx_lt; auto).
  rewrite ld_st_ne; [reflexivity|].
  intros Heq. injection Heq as Heq _. symmetry in Heq. revert Heq.
  apply state_not_tend. exact Hp.
Qed.

Lemma tend_z_loop_good : tz_good td_S tend_z_loop.
Proof.
  unfold tend_z_loop.
  eapply good_equiv; [apply td_S_nest|].
  apply (good_nest3 _ td_tgt tz_val (block_size e) td_S td_tgt_inj tz_val_indep
           NUM_VARS (nz e) (nx e) (fun a b c x => x = (a, b, c))).
  - intros a b c a' b' c' x -> Heq. injection Heq as -> -> ->. auto.
  - intros ll k i Hl Hk Hi Hsub m Hm.
    rewrite tend_z_body_eq; auto.
    apply (good_store _ td_tgt tz_val (block_size e) td_S (ll, k, i)); auto.
    apply tidx_lt; auto.
Qed.

(** *** The two kernels *)

Lemma compute_tendencies_x_spec (m : mem) :
  wf e m ->
  let m' := compute_tendencies_x cfg e p Pflux Ptend dt m in
  wf e m' /\
  (forall ll k i, ll < NUM_VARS -> k < nz e -> i < nx e ->
     ld m' Ptend (tidx e ll k i) = tend_x_of cfg (flux_x_of cfg e (grid e m p) dt) ll k i) /\
  (forall q, q <> Pflux -> q <> Ptend -> buf m' q = buf m q).
Proof.
  intros Hm m'.
  pose proof (flux_x_loop_good cfg e p Hp dt (fun x Hx => Hx) m Hm) as Hfl.
  pose proof Hfl as (Hs1 & Hw1 & Hf1).
  pose proof (tend_x_loop_good (fun x Hx => Hx) _ Hs1) as Htd.
  pose proof Htd as (Hs2 & Hw2 & Hf2).
  split; [exact Hs2|]. split.
  - intros ll k i Hl Hk Hi.
    specialize (Hw2 (ll, k, i) (conj Hl (conj Hk Hi))). unfold peek in Hw2. simpl in Hw2.
    unfold m', compute_tendencies_x. fold (flux_x_loop cfg e p dt m).
    fold (tend_x_loop (flux_x_loop cfg e p dt m)). rewrite Hw2.
    unfold tend_x_of, fluxes.
    pose proof (Hw1 (k, i, ll) (conj Hk (conj (ltac:(lia) : i < nx e + 1) Hl))) as H1.
    pose proof (Hw1 (k, i + 1, ll) (conj Hk (conj (ltac:(lia) : i + 1 < nx e + 1) Hl))) as H2.
    unfold peek in H1, H2. simpl in H1, H2. rewrite H1, H2. reflexivity.
  - intros q Hq1 Hq2. unfold m', compute_tendencies_x.
    fold (flux_x_loop cfg e p dt m). fold (tend_x_loop (flux_x_loop cfg e p dt m)).
    rewrite (summ_buf _ _ _ _ _ _ _ q Hs1 Htd)
      by (intros [[a b] c] _; simpl; congruence).
    apply (summ_buf _ _ _ _ _ _ _ q Hm Hfl). intros [[a b] c] _; simpl; congruence.
Qed.

Lemma compute_tendencies_z_spec (m : mem) :
  wf e m ->
  let m' := compute_tendencies_z cfg e p Pflux Ptend dt m in
  wf e m' /\
  (forall ll k i, ll < NUM_VARS -> k < nz e -> i < nx e ->
     ld m' Ptend (tidx e ll k i)
     = tend_z_of cfg (flux_z_of cfg e (grid e m p) dt) (grid e m p) ll k i) /\
  (forall q, q <> Pflux -> q <> Ptend -> buf m' q = buf m q).
Proof.
  intros Hm m'.
  pose proof (flux_z_loop_good cfg e p Hp dt (fun x Hx => Hx) m Hm) as Hfl.
  pose proof Hfl as (Hs1 & Hw1 & Hf1).
  pose proof (tend_z_loop_good (fun x Hx => Hx) _ Hs1) as Htd.
  pose proof Htd as (Hs2 & Hw2 & Hf2).
  assert (Hp1 : buf (flux_z_loop cfg e p dt m) p = buf m p).
  { apply (summ_buf _ _ _ _ _ _ _ p Hm Hfl). intros [[a b] c] _; simpl.
    intros Heq. apply (state_not_flux p Hp). congruence. }
  split; [exact Hs2|]. split.
  - intros ll k i Hl Hk Hi.
    specialize (Hw2 (ll, k, i) (conj Hl (conj Hk Hi))). unfold peek in Hw2. simpl in Hw2.
    unfold m', compute_tendencies_z. fold (flux_z_loop cfg e p dt m).
    fold (tend_z_loop (flux_z_loop cfg e p dt m)). rewrite Hw2.
    assert (Hg : forall j, ld (flux_z_loop cfg e p dt m) p j = ld m p j)
      by (intros j; unfold ld; rewrite Hp1; reflexivity).
    unfold tend_z_of, fluxes, grid. rewrite Hg.
    pose proof (Hw1 (k, i, ll) (conj (ltac:(lia) : k < nz e + 1) (conj Hi Hl))) as H1.
    pose proof (Hw1 (k + 1, i, ll) (conj (ltac:(lia) : k + 1 < nz e + 1) (conj Hi Hl))) as H2.
    unfold peek in H1, H2. simpl in H1, H2. rewrite H1, H2. reflexivity.
  - intros q Hq1 Hq2. unfold m', compute_tendencies_z.
    fold (flux_z_loop cfg e p dt m). fold (tend_z_loop (flux_z_loop cfg e p dt m)).
    rewrite (summ_buf _ _ _ _ _ _ _ q Hs1 Htd)
      by (intros [[a b] c] _; simpl; congruence).
    apply (summ_buf _ _ _ _ _ _ _ q Hm Hfl). intros [[a b] c] _; simpl; congruence.
Qed.

End TendLoops.

(** * The state update of a stage *)

Section UpdateLoop.
Context `{A : Arith}.
Variable cfg : config.
Variable e : env.
Variables pi po : ptr.
Hypothesis Hpi : is_state pi.
Hypothesis Hpo : is_state po.
Variable dt : F.

(** Whether the gravity-wave forcing is on, and the forcing of a cell. *)
Definition gflag : bool := Z.eqb (data_spec_int cfg) DATA_SPEC_GRAVITY_WAVES.
Definition gforce (k i : nat) : F :=
  fmul (wpert_at cfg e k i) (at_ (hy_dens_cell e) (hs + k)).

(** [c] added [n] times to [t], one addition after the other. *)
Fixpoint addn (n : nat) (t c : F) : F :=
  match n with
  | O => t
  | Datatypes.S n' => fadd (addn n' t c) c
  end.

Section OneVariable.
Variable ll : nat.
Hypothesis Hll : ll < NUM_VARS.

(** Store 0 of iteration [(k,i)] is the forcing added to the tendency,
    store 1 the new state. *)
Definition up_tgt (x : nat * nat * nat) : ptr * nat :=
  let '(k, i, j) := x in
  match j with
  | 0 => (Ptend, tidx e ID_WMOM k i)
  | _ => (po, sidx e ll (k + hs) (i + hs))
  end.
Definition up_val (x : nat * nat * nat) (m : mem) : F :=
  let '(k, i, j) := x in
  match j with
  | 0 => fadd (ld m Ptend (tidx e ID_WMOM k i)) (gforce k i)
  | _ => fadd (ld m pi (sidx e ll (k + hs) (i + hs)))
              (fmul dt (if gflag && Nat.eqb ll ID_WMOM
                        then fadd (ld m Ptend (tidx e ID_WMOM k i)) (gforce k i)
                        else ld m Ptend (tidx e ll k i)))
  end.
Definition up_S (x : nat * nat * nat) : Prop :=
  let '(k, i, j) := x in k < nz e /\ i < nx e /\ j < 2 /\ (j = 0 -> gflag = true).
Definition up_grp (x : nat * nat * nat) : nat * nat := fst x.

Lemma up_tgt_inj x y : up_S x -> up_S y -> up_tgt x = up_tgt y -> x = y.
Proof.
  destruct x as [[k i] j], y as [[k' i'] j']. simpl.
  intros (Hk & Hi & Hj & _) (Hk' & Hi' & Hj' & _) Heq.
  destruct j as [|[|j]], j' as [|[|j']]; try lia.
  - injection Heq as Heq. apply tidx_inj in Heq as (_ & -> & ->); auto.
  - exfalso. assert (Ptend = po) by congruence. destruct Hpo; congruence.
  - exfalso. assert (Ptend = po) by congruence. destruct Hpo; congruence.
  - injection Heq as Heq.
    apply sidx_inj in Heq as (_ & Hkk & Hii); unfold hs in *; try lia.
    assert (k = k') by lia. assert (i = i') by lia. congruence.
Qed.

Lemma up_tgt_tend (y : nat * nat * nat) l k i :
  up_S y -> k < nz e -> i < nx e -> up_tgt y = (Ptend, tidx e l k i) -> up_grp y = (k, i).
Proof.
  destruct y as [[k' i'] j']. unfold up_grp. simpl.
  intros (Hk' & Hi' & _ & _) Hk Hi Heq.
  destruct j' as [|j'].
  - injection Heq as Heq. apply tidx_inj in Heq as (_ & -> & ->); auto.
  - exfalso. assert (Ptend = po) by congruence. destruct Hpo; congruence.
Qed.

Lemma up_tgt_state (y : nat * nat * nat) q l k i :
  up_S y -> k < nz e -> i < nx e -> q <> Ptend ->
  up_tgt y = (q, sidx e l (k + hs) (i + hs)) -> up_grp y = (k, i).
Proof.
  destruct y as [[k' i'] j']. unfold up_grp. simpl.
  intros (Hk' & Hi' & _ & _) Hk Hi Hq Heq.
  destruct j' as [|j'].
  - exfalso. apply Hq. congruence.
  - assert (Heq' : sidx e ll (k' + hs) (i' + hs) = sidx e l (k + hs) (i + hs)) by congruence.
    apply sidx_inj in Heq' as (_ & Hkk & Hii); unfold hs in *; try lia.
    f_equal; lia.
Qed.

Lemma up_val_indep x m m' : up_S x ->
  (forall c, (forall y, up_S y -> up_tgt y = c -> up_grp y = up_grp x) -> peek m' c = peek m c) ->
  up_val x m' = up_val x m.
Proof.
  destruct x as [[k i] j]. unfold up_grp. simpl. intros (Hk & Hi & Hj & _) Hag.
  assert (Ht : forall l, ld m' Ptend (tidx e l k i) = ld m Ptend (tidx e l k i)).
  { intros l. apply (Hag (Ptend, tidx e l k i)). intros y Hy Hty.
    apply (up_tgt_tend y l k i); auto. }
  assert (Hs : ld m' pi (sidx e ll (k + hs) (i + hs)) = ld m pi (sidx e ll (k + hs) (i + hs))).
  { apply (Hag (pi, sidx e ll (k + hs) (i + hs))). intros y Hy Hty.
    apply (up_tgt_state y pi ll k i); auto. apply state_not_tend; exact Hpi. }
  rewrite !Ht, Hs. reflexivity.
Qed.

Local Abbreviation up_good := (good _ up_tgt up_val (block_size e) up_S).

Lemma update_body_eq k i (m : mem) :
  wf e m -> k < nz e -> i < nx e ->
  update_body cfg e pi po Ptend dt ll k i m
  = if gflag then stores _ up_tgt up_val [(k, i, 0); (k, i, 1)] m m
    else stores _ up_tgt up_val [(k, i, 1)] m m.
Proof.
  intros Hm Hk Hi. unfold update_body. fold gflag.
  destruct gflag eqn:Hg; cbn [stores fold_left up_tgt up_val fst snd]; rewrite Hg;
    [|reflexivity].
  fold (gforce k i). cbn [andb]. f_equal.
  rewrite ld_st_ne
    by (intros Heq; injection Heq as Heq _; symmetry in Heq; revert Heq;
        apply state_not_tend; exact Hpi).
  f_equal. f_equal.
  destruct (Nat.eqb_spec ll ID_WMOM) as [->|Hne].
  - apply ld_st_eq. rewrite Hm. apply tidx_lt; auto; unfold ID_WMOM, NUM_VARS; lia.
  - apply ld_st_ne. intros Heq. injection Heq as Heq.
    apply tidx_inj in Heq as (Heq & _ & _); auto.
Qed.

Lemma update_body_good k i :
  k < nz e -> i < nx e ->
  up_good (fun x => fst (fst x) = k /\ snd (fst x) = i /\ snd x < 2 /\ (snd x = 0 -> gflag = true))
          (update_body cfg e pi po Ptend dt ll k i).
Proof.
  intros Hk Hi Hsub m Hm. rewrite update_body_eq; auto.
  assert (Hb1 : snd (up_tgt (k, i, 1)) < block_size e (fst (up_tgt (k, i, 1)))).
  { simpl. apply sidx_lt; auto; unfold hs; lia. }
  assert (Hb0 : snd (up_tgt (k, i, 0)) < block_size e (fst (up_tgt (k, i, 0)))).
  { simpl. apply tidx_lt; auto; unfold ID_WMOM, NUM_VARS; lia. }
  destruct gflag eqn:Hg.
  - refine (good_equiv _ up_tgt up_val (block_size e) up_S
              (fun y => In y [(k, i, 0); (k, i, 1)]) _ _ _
              (good_stores _ up_tgt up_val (block_size e) up_S up_tgt_inj _ _ _) Hsub m Hm).
    + intros [[k' i'] j']. simpl. split.
      * intros [H|[H|[]]]; injection H as <- <- <-; repeat split; auto.
      * intros (-> & -> & Hj & _). destruct j' as [|[|j']]; auto; lia.
    + repeat constructor; rewrite ?list_elem_of_In; simpl; intuition congruence.
    + intros x [<-|[<-|[]]]; assumption.
  - refine (good_equiv _ up_tgt up_val (block_size e) up_S
              (fun y => In y [(k, i, 1)]) _ _ _
              (good_stores _ up_tgt up_val (block_size e) up_S up_tgt_inj _ _ _) Hsub m Hm).
    + intros [[k' i'] j']. simpl. split.
      * intros [H|[]]; injection H as <- <- <-; repeat split; auto. discriminate.
      * intros (-> & -> & Hj & Hz). destruct j' as [|[|j']]; auto; [|lia].
        specialize (Hz eq_refl). discriminate.
    + repeat constructor; rewrite ?list_elem_of_In; simpl; intuition congruence.
    + intros x [<-|[]]; assumption.
Qed.

Definition update_rows (m : mem) : mem :=
  for_ (nz e) (fun k => for_ (nx e) (fun i => update_body cfg e pi po Ptend dt ll k i)) m.

Lemma update_rows_good : up_good up_S update_rows.
Proof.
  unfold update_rows.
  eapply good_equiv;
    [|apply (good_nest2_grp _ _ up_grp up_tgt up_val (block_size e) up_S up_tgt_inj up_val_indep
               (nz e) (nx e)
               (fun k i x => (k < nz e /\ i < nx e) /\ fst (fst x) = k /\ snd (fst x) = i
                             /\ snd x < 2 /\ (snd x = 0 -> gflag = true)))].
  - intros [[k i] j]. simpl. split.
    + intros (a & b & Ha & Hb & _ & -> & -> & Hj & Hz). auto.
    + intros (Hk & Hi & Hj & Hz). exists k, i. auto 10.
  - intros a b a' b' [[k i] j] [[k' i'] j'] (_ & H1 & H2 & _) (_ & H3 & H4 & _) Hg.
    unfold up_grp in Hg. simpl in *. injection Hg as -> ->. split; congruence.
  - intros k i Hk Hi.
    eapply good_equiv; [|apply (update_body_good k i Hk Hi)].
    intros x. simpl. tauto.
Qed.

End OneVariable.

(** The tendency a state write reads. *)
Definition tend_at_write (m : mem) (ll k i : nat) : F :=
  if gflag && Nat.eqb ll ID_WMOM
  then addn 3 (ld m Ptend (tidx e ID_WMOM k i)) (gforce k i)
  else ld m Ptend (tidx e ll k i).

Definition update_loop (m : mem) : mem :=
  for_ NUM_VARS (fun ll =>
    for_ (nz e) (fun k =>
      for_ (nx e) (fun i => update_body cfg e pi po Ptend dt ll k i))) m.

(** The heap after the first [n] variables have been updated. *)
Definition update_inv (m : mem) (n : nat) (m' : mem) : Prop :=
  wf e m' /\
  (forall ll k i, ll < n -> k < nz e -> i < nx e ->
     ld m' po (sidx e ll (k + hs) (i + hs))
     = fadd (ld m pi (sidx e ll (k + hs) (i + hs))) (fmul dt (tend_at_write m ll k i))) /\
  (forall q j, q <> Ptend ->
     (forall ll k i, ll < n -> k < nz e -> i < nx e -> (q, j) <> (po, sidx e ll (k + hs) (i + hs))) ->
     ld m' q j = ld m q j) /\
  (forall k i, k < nz e -> i < nx e ->
     ld m' Ptend (tidx e ID_WMOM k i)
     = if gflag then addn n (ld m Ptend (tidx e ID_WMOM k i)) (gforce k i)
       else ld m Ptend (tidx e ID_WMOM k i)) /\
  (forall j, (forall k i, k < nz e -> i < nx e -> j <> tidx e ID_WMOM k i) ->
     ld m' Ptend j = ld m Ptend j).

Lemma po_not_tend : po <> Ptend.
Proof. apply state_not_tend. exact Hpo. Qed.

Lemma update_rows_step (m m' : mem) (ll : nat) :
  ll < NUM_VARS -> update_inv m ll m' -> update_inv m (Datatypes.S ll) (update_rows ll m').
Proof.
  intros Hll (Hwf & HA & HB & HC & HD).
  destruct (update_rows_good ll Hll (fun x Hx => Hx) m' Hwf) as (Hs & Hw & Hf).
  assert (Hfs : forall q j, q <> Ptend ->
            (forall k i, k < nz e -> i < nx e -> (q, j) <> (po, sidx e ll (k + hs) (i + hs))) ->
            ld (update_rows ll m') q j = ld m' q j).
  { intros q j Hq Hne. apply (Hf (q, j)).
    intros [[k i] [|j']] (Hk & Hi & _ & _) Heq; simpl in Heq.
    - apply Hq. congruence.
    - apply (Hne k i Hk Hi). congruence. }
  assert (Hft : forall j, (gflag = true -> forall k i, k < nz e -> i < nx e ->
                                  j <> tidx e ID_WMOM k i) ->
            ld (update_rows ll m') Ptend j = ld m' Ptend j).
  { intros j Hne. apply (Hf (Ptend, j)).
    intros [[k i] [|j']] (Hk & Hi & _ & Hz) Heq; simpl in Heq.
    - apply (Hne (Hz eq_refl) k i Hk Hi). congruence.
    - apply po_not_tend. congruence. }
  split; [exact Hs|]. split; [|split; [|split]].
  - intros l k i Hl Hk Hi.
    destruct (decide (l = ll)) as [->|Hne].
    + pose proof (Hw (k, i, 1) (conj Hk (conj Hi (conj (ltac:(lia) : 1 < 2)
                    (fun H : 1 = 0 => ltac:(discriminate H)))))) as H1.
      unfold peek in H1. simpl in H1. rewrite H1.
      rewrite (HB pi (sidx e ll (k + hs) (i + hs))).
      * f_equal. f_equal. unfold tend_at_write.
        destruct gflag eqn:Hg; simpl.
        -- destruct (Nat.eqb_spec ll ID_WMOM) as [->|Hw2].
           ++ rewrite HC by auto. rewrite ?Hg. reflexivity.
           ++ apply HD. intros k' i' Hk' Hi' Heq.
              apply tidx_inj in Heq as (Heq & _ & _); auto.
        -- destruct (Nat.eqb_spec ll ID_WMOM) as [->|Hw2].
           ++ rewrite HC by auto. rewrite ?Hg. reflexivity.
           ++ apply HD. intros k' i' Hk' Hi' Heq.
              apply tidx_inj in Heq as (Heq & _ & _); auto.
      * apply state_not_tend. exact Hpi.
      * intros l' k' i' Hl' Hk' Hi' Heq. injection Heq as _ Heq.
        apply sidx_inj in Heq as (Heq & _ & _); unfold hs; lia.
    + rewrite Hfs.
      * apply HA; auto. lia.
      * apply po_not_tend.
      * intros k' i' Hk' Hi' Heq. injection Heq as Heq.
        apply sidx_inj in Heq as (Heq & _ & _); unfold hs; lia.
  - intros q j Hq Hne. rewrite Hfs.
    + apply HB; [exact Hq|]. intros l k i Hl Hk Hi. apply Hne; auto.
    + exact Hq.
    + intros k i Hk Hi. apply Hne; auto.
  - intros k i Hk Hi. destruct gflag eqn:Hg.
    + pose proof (Hw (k, i, 0) (conj Hk (conj Hi (conj (ltac:(lia) : 0 < 2)
                    (fun _ : 0 = 0 => Hg))))) as H0.
      unfold peek in H0. simpl in H0. rewrite H0. rewrite HC by auto. rewrite ?Hg. reflexivity.
    + rewrite Hft by (intros Hc; congruence). rewrite HC by auto. rewrite ?Hg. reflexivity.
  - intros j Hne. rewrite Hft by (intros _; exact Hne). apply HD. exact Hne.
Qed.

Lemma update_loop_inv (m : mem) : wf e m -> update_inv m NUM_VARS (update_loop m).
Proof.
  intros Hm. unfold update_loop.
  apply (for_inv_idx (update_inv m) NUM_VARS
           (fun ll => for_ (nz e) (fun k => for_ (nx e) (fun i =>
              update_body cfg e pi po Ptend dt ll k i)))).
  - split; [exact Hm|]. split; [intros; lia|]. split; [reflexivity|]. split.
    + intros k i _ _. destruct gflag; reflexivity.
    + reflexivity.
  - intros ll m' Hll Hinv. apply (update_rows_step m m' ll Hll Hinv).
Qed.

End UpdateLoop.

(** * Frames of the kernels *)

Section KernelFrames.
Context `{A : Arith}.
Variable cfg : config.
Variable e : env.

Lemma flux_x_body_frame state flux dt k i (m : mem) q :
  q <> flux -> buf (flux_x_body cfg e state flux dt k i m) q = buf m q.
Proof.
  intros Hq. unfold flux_x_body. cbv zeta.
  rewrite !buf_st_ne by congruence. reflexivity.
Qed.

Lemma flux_z_body_frame state flux dt k i (m : mem) q :
  q <> flux -> buf (flux_z_body cfg e state flux dt k i m) q = buf m q.
Proof.
  intros Hq. unfold flux_z_body. cbv zeta.
  rewrite !buf_st_ne by congruence. reflexivity.
Qed.

Lemma tend_x_body_frame flux tend ll k i (m : mem) q :
  q <> tend -> buf (tend_x_body cfg e flux tend ll k i m) q = buf m q.
Proof. intros Hq. unfold tend_x_body. rewrite buf_st_ne by congruence. reflexivity. Qed.

Lemma tend_z_body_frame state flux tend ll k i (m : mem) q :
  q <> tend -> buf (tend_z_body cfg e state flux tend ll k i m) q = buf m q.
Proof.
  intros Hq. unfold tend_z_body. cbv zeta.
  destruct (Nat.eqb ll ID_WMOM); rewrite !buf_st_ne by congruence; reflexivity.
Qed.

(** A loop nest leaves a block alone when every iteration does. *)
Lemma for2_frame (n1 n2 : nat) (body : nat -> nat -> mem -> mem) (q : ptr) (m : mem) :
  (forall a b m', buf (body a b m') q = buf m' q) ->
  buf (for_ n1 (fun a => for_ n2 (fun b => body a b)) m) q = buf m q.
Proof.
  intros Hb.
  apply (for_inv (fun m' => buf m' q = buf m q)); [reflexivity|].
  intros a m1 _ H1.
  apply (for_inv (fun m' => buf m' q = buf m q)); [exact H1|].
  intros b m2 _ H2. rewrite Hb. exact H2.
Qed.

Lemma for3_frame (n1 n2 n3 : nat) (body : nat -> nat -> nat -> mem -> mem) (q : ptr) (m : mem) :
  (forall a b c m', buf (body a b c m') q = buf m' q) ->
  buf (for_ n1 (fun a => for_ n2 (fun b => for_ n3 (fun c => body a b c))) m) q = buf m q.
Proof.
  intros Hb.
  apply (for_inv (fun m' => buf m' q = buf m q)); [reflexivity|].
  intros a m1 _ H1. rewrite for2_frame; [exact H1|]. intros b c m'. apply Hb.
Qed.

Lemma compute_tendencies_x_frame state flux tend dt (m : mem) q :
  q <> flux -> q <> tend -> buf (compute_tendencies_x cfg e state flux tend dt m) q = buf m q.
Proof.
  intros Hf Ht. unfold compute_tendencies_x. cbv zeta.
  rewrite for3_frame by (intros; apply tend_x_body_frame; exact Ht).
  apply for2_frame. intros. apply flux_x_body_frame; exact Hf.
Qed.

Lemma compute_tendencies_z_frame state flux tend dt (m : mem) q :
  q <> flux -> q <> tend -> buf (compute_tendencies_z cfg e state flux tend dt m) q = buf m q.
Proof.
  intros Hf Ht. unfold compute_tendencies_z. cbv zeta.
  rewrite for3_frame by (intros; apply tend_z_body_frame; exact Ht).
  apply for2_frame. intros. apply flux_z_body_frame; exact Hf.
Qed.

End KernelFrames.

(** C10. Neither [compute_tendencies_x] nor [compute_tendencies_z] writes
    to the state array it is given: every block other than the flux and
    tendency arrays, the state array among them, is unchanged by an
    evaluation of the right-hand side. *)
Theorem compute_tendencies_write_only_flux_tend `{A : Arith}
    (cfg : config) (e : env) (state flux tend : ptr) (dt : F) (m : mem) (q : ptr) :
  q <> flux -> q <> tend ->
  buf (compute_tendencies_x cfg e state flux tend dt m) q = buf m q /\
  buf (compute_tendencies_z cfg e state flux tend dt m) q = buf m q.
Proof.
  intros Hf Ht. split.
  - apply compute_tendencies_x_frame; assumption.
  - apply compute_tendencies_z_frame; assumption.
Qed.

(** * One stage of the integrator *)

Section Stage.
Context `{A : Arith}.
Variable cfg : config.
Variable e : env.
Hypothesis Hnx : 2 <= nx e.
Hypothesis Hnz : 1 <= nz e.

(** The cell-interior part of a state array. *)
Definition interior (m : mem) (p : ptr) (ll k i : nat) : F :=
  ld m p (sidx e ll (k + hs) (i + hs)).

(** The padded state the kernels see after the halo routine ran on the
    array [p] of the heap [m]. *)
Definition xpad (p : ptr) (m : mem) (ll r c : nat) : F := halo_x_read cfg e p m ll (r - hs) c.
Definition zpad (p : ptr) (m : mem) (ll r c : nat) : F := halo_z_read e p m ll r c.

(** The right-hand side: halo, then flux and tendency. *)
Definition rhs_x (p : ptr) (dt : F) (m : mem) (ll k i : nat) : F :=
  tend_x_of cfg (flux_x_of cfg e (xpad p m) dt) ll k i.
Definition rhs_z (p : ptr) (dt : F) (m : mem) (ll k i : nat) : F :=
  tend_z_of cfg (flux_z_of cfg e (zpad p m) dt) (zpad p m) ll k i.
Definition rhs (dir : Z) (p : ptr) (dt : F) (m : mem) (ll k i : nat) : F :=
  if Z.eqb dir DIR_X then rhs_x p dt m ll k i else rhs_z p dt m ll k i.

(** The tendency the state write of a stage reads. *)
Definition stage_tend (dir : Z) (p : ptr) (dt : F) (m : mem) (ll k i : nat) : F :=
  if gflag cfg && Nat.eqb ll ID_WMOM
  then addn 3 (rhs dir p dt m ID_WMOM k i) (gforce cfg e k i)
  else rhs dir p dt m ll k i.

Lemma state_cases (q pf : ptr) : is_state q -> is_state pf -> q = pf \/ q <> pf.
Proof. intros. destruct (decide (q = pf)); auto. Qed.

Lemma rhs_eval_x (pf : ptr) (dt : F) (m : mem) :
  is_state pf -> wf e m ->
  let m1 := compute_tendencies_x cfg e pf Pflux Ptend dt (set_halo_values_x cfg e pf m) in
  wf e m1 /\
  (forall ll k i, ll < NUM_VARS -> k < nz e -> i < nx e ->
     ld m1 Ptend (tidx e ll k i) = rhs_x pf dt m ll k i) /\
  (forall q ll k i, is_state q -> ll < NUM_VARS -> k < nz e -> i < nx e ->
     interior m1 q ll k i = interior m q ll k i).
Proof.
  intros Hpf Hm m1.
  pose proof (set_halo_values_x_wf cfg e pf Hpf Hnx m Hm) as Hmh.
  destruct (compute_tendencies_x_spec cfg e pf Hpf dt _ Hmh) as (Hw1 & Ht & Hfr).
  split; [exact Hw1|]. split.
  - intros ll k i Hl Hk Hi. unfold m1. rewrite Ht by auto.
    unfold rhs_x, tend_x_of.
    assert (Hfl : forall i', i' < nx e + 1 ->
      flux_x_of cfg e (grid e (set_halo_values_x cfg e pf m) pf) dt ll k i'
      = flux_x_of cfg e (xpad pf m) dt ll k i').
    { intros i' Hi'. apply flux_x_of_ext. intros l s Hl' Hs.
      unfold grid, xpad. rewrite Nat.add_sub.
      apply set_halo_values_x_read; auto. unfold sten_size, hs in *. lia. }
    rewrite !Hfl by lia. reflexivity.
  - intros q ll k i Hq Hl Hk Hi. unfold interior, m1, ld.
    rewrite Hfr by (try apply state_not_flux; try apply state_not_tend; exact Hq).
    change (ld (set_halo_values_x cfg e pf m) q (sidx e ll (k + hs) (i + hs))
            = ld m q (sidx e ll (k + hs) (i + hs))).
    destruct (state_cases q pf Hq Hpf) as [->|Hne].
    + rewrite set_halo_values_x_read; auto; [|unfold hs; lia].
      apply halo_x_read_interior; unfold hs; lia.
    + apply set_halo_values_x_frame; auto.
      intros l' k' c' _ _ _ Heq. apply Hne. congruence.
Qed.

Lemma halo_z_read_interior (p : ptr) (m : mem) ll r i :
  hs <= r -> r < nz e + hs -> halo_z_read e p m ll r i = ld m p (sidx e ll r i).
Proof.
  intros H1 H2. unfold halo_z_read.
  destruct (Nat.ltb_spec r hs); [lia|].
  destruct (Nat.leb_spec (nz e + hs) r); [lia|]. reflexivity.
Qed.

Lemma rhs_eval_z (pf : ptr) (dt : F) (m : mem) :
  is_state pf -> wf e m ->
  let m1 := compute_tendencies_z cfg e pf Pflux Ptend dt (set_halo_values_z e pf m) in
  wf e m1 /\
  (forall ll k i, ll < NUM_VARS -> k < nz e -> i < nx e ->
     ld m1 Ptend (tidx e ll k i) = rhs_z pf dt m ll k i) /\
  (forall q ll k i, is_state q -> ll < NUM_VARS -> k < nz e -> i < nx e ->
     interior m1 q ll k i = interior m q ll k i).
Proof.
  intros Hpf Hm m1.
  pose proof (set_halo_values_z_wf e pf Hpf Hnz m Hm) as Hmh.
  destruct (compute_tendencies_z_spec cfg e pf Hpf dt _ Hmh) as (Hw1 & Ht & Hfr).
  split; [exact Hw1|]. split.
  - intros ll k i Hl Hk Hi. unfold m1. rewrite Ht by auto.
    unfold rhs_z, tend_z_of.
    assert (Hfl : forall k', k' < nz e + 1 ->
      flux_z_of cfg e (grid e (set_halo_values_z e pf m) pf) dt ll k' i
      = flux_z_of cfg e (zpad pf m) dt ll k' i).
    { intros k' Hk'. apply flux_z_of_ext. intros l s Hl' Hs.
      unfold grid, zpad.
      apply set_halo_values_z_read; auto; unfold sten_size, hs in *; lia. }
    rewrite !Hfl by lia.
    assert (Hg : grid e (set_halo_values_z e pf m) pf ID_DENS (k + hs) (i + hs)
                 = zpad pf m ID_DENS (k + hs) (i + hs)).
    { unfold grid, zpad. apply set_halo_values_z_read; auto; unfold ID_DENS, NUM_VARS, hs; lia. }
    rewrite Hg. reflexivity.
  - intros q ll k i Hq Hl Hk Hi. unfold interior, m1, ld.
    rewrite Hfr by (try apply state_not_flux; try apply state_not_tend; exact Hq).
    change (ld (set_halo_values_z e pf m) q (sidx e ll (k + hs) (i + hs))
            = ld m q (sidx e ll (k + hs) (i + hs))).
    destruct (state_cases q pf Hq Hpf) as [->|Hne].
    + rewrite set_halo_values_z_read; auto; try (unfold hs; lia).
      apply halo_z_read_interior; unfold hs; lia.
    + unfold ld. rewrite set_halo_values_z_frame; auto.
Qed.

Lemma semi_discrete_step_spec (pi pf po : ptr) (dt : F) (dir : Z) (m : mem) :
  is_state pi -> is_state pf -> is_state po -> dir = DIR_X \/ dir = DIR_Z -> wf e m ->
  let m' := semi_discrete_step cfg e pi pf po dt dir Pflux Ptend m in
  wf e m' /\
  (forall ll k i, ll < NUM_VARS -> k < nz e -> i < nx e ->
     interior m' po ll k i
     = fadd (interior m pi ll k i) (fmul dt (stage_tend dir pf dt m ll k i))) /\
  (forall q ll k i, is_state q -> q <> po -> ll < NUM_VARS -> k < nz e -> i < nx e ->
     interior m' q ll k i = interior m q ll k i).
Proof.
  intros Hpi Hpf Hpo Hdir Hm m'.
  set (m1 := if Z.eqb dir DIR_X
             then compute_tendencies_x cfg e pf Pflux Ptend dt (set_halo_values_x cfg e pf m)
             else compute_tendencies_z cfg e pf Pflux Ptend dt (set_halo_values_z e pf m)).
  assert (Hm' : m' = update_loop cfg e pi po dt m1).
  { unfold m', semi_discrete_step, update_loop, m1.
    destruct Hdir as [-> | ->]; reflexivity. }
  assert (H1 : wf e m1 /\
    (forall ll k i, ll < NUM_VARS -> k < nz e -> i < nx e ->
       ld m1 Ptend (tidx e ll k i) = rhs dir pf dt m ll k i) /\
    (forall q ll k i, is_state q -> ll < NUM_VARS -> k < nz e -> i < nx e ->
       interior m1 q ll k i = interior m q ll k i)).
  { unfold m1, rhs. destruct Hdir as [-> | ->]; simpl.
    - apply rhs_eval_x; auto.
    - apply rhs_eval_z; auto. }
  destruct H1 as (Hw1 & Ht1 & Hi1).
  destruct (update_loop_inv cfg e pi po Hpi Hpo dt m1 Hw1) as (Hw2 & HA & HB & _ & _).
  rewrite Hm'. split; [exact Hw2|]. split.
  - intros ll k i Hl Hk Hi. unfold interior at 1. rewrite HA by auto.
    fold (interior m1 pi ll k i). rewrite Hi1 by auto.
    f_equal. f_equal. unfold tend_at_write, stage_tend.
    destruct (gflag cfg && Nat.eqb ll ID_WMOM).
    + rewrite Ht1; auto. unfold ID_WMOM, NUM_VARS. lia.
    + apply Ht1; auto.
  - intros q ll k i Hq Hne Hl Hk Hi. unfold interior at 1.
    rewrite HB.
    + apply Hi1; auto.
    + apply state_not_tend. exact Hq.
    + intros l' k' i' _ _ _ Heq. apply Hne. congruence.
Qed.

(** The heap after the right-hand side of a stage has been evaluated,
    before the state update. *)
Definition eval_rhs (dir : Z) (pf : ptr) (dt : F) (m : mem) : mem :=
  if Z.eqb dir DIR_X
  then compute_tendencies_x cfg e pf Pflux Ptend dt (set_halo_values_x cfg e pf m)
  else compute_tendencies_z cfg e pf Pflux Ptend dt (set_halo_values_z e pf m).

Lemma eval_rhs_spec (dir : Z) (pf : ptr) (dt : F) (m : mem) :
  is_state pf -> dir = DIR_X \/ dir = DIR_Z -> wf e m ->
  wf e (eval_rhs dir pf dt m) /\
  (forall ll k i, ll < NUM_VARS -> k < nz e -> i < nx e ->
     ld (eval_rhs dir pf dt m) Ptend (tidx e ll k i) = rhs dir pf dt m ll k i) /\
  (forall q ll k i, is_state q -> ll < NUM_VARS -> k < nz e -> i < nx e ->
     interior (eval_rhs dir pf dt m) q ll k i = interior m q ll k i).
Proof.
  intros Hpf Hdir Hm. unfold eval_rhs, rhs. destruct Hdir as [-> | ->]; simpl.
  - apply rhs_eval_x; auto.
  - apply rhs_eval_z; auto.
Qed.

Lemma semi_discrete_step_unfold (pi pf po : ptr) (dt : F) (dir : Z) (m : mem) :
  dir = DIR_X \/ dir = DIR_Z ->
  semi_discrete_step cfg e pi pf po dt dir Pflux Ptend m
  = update_loop cfg e pi po dt (eval_rhs dir pf dt m).
Proof.
  intros Hdir. unfold semi_discrete_step, update_loop, eval_rhs.
  destruct Hdir as [-> | ->]; reflexivity.
Qed.

(** The tendency array a stage leaves behind, in the vertical-momentum
    slot. *)
Lemma semi_discrete_step_tend (pi pf po : ptr) (dt : F) (dir : Z) (m : mem) k i :
  is_state pi -> is_state pf -> is_state po -> dir = DIR_X \/ dir = DIR_Z -> wf e m ->
  k < nz e -> i < nx e ->
  ld (semi_discrete_step cfg e pi pf po dt dir Pflux Ptend m) Ptend (tidx e ID_WMOM k i)
  = if gflag cfg then addn 4 (rhs dir pf dt m ID_WMOM k i) (gforce cfg e k i)
    else rhs dir pf dt m ID_WMOM k i.
Proof.
  intros Hpi Hpf Hpo Hdir Hm Hk Hi.
  rewrite semi_discrete_step_unfold by exact Hdir.
  destruct (eval_rhs_spec dir pf dt m Hpf Hdir Hm) as (Hw1 & Ht1 & _).
  destruct (update_loop_inv cfg e pi po Hpi Hpo dt _ Hw1) as (_ & _ & _ & HC & _).
  rewrite HC by auto. rewrite Ht1; auto. unfold ID_WMOM, NUM_VARS. lia.
Qed.

End Stage.

(** * The integrator on cell-interior fields *)

Section Fields.
Context `{A : Arith}.
Variable cfg : config.
Variable e : env.
Hypothesis Hnx : 2 <= nx e.
Hypothesis Hnz : 1 <= nz e.

(** A field gives the four variables on the interior cells [(k,i)]. *)
Definition field : Type := nat -> nat -> nat -> F.

(** Two fields with the same values on the grid. *)
Definition feq (Q Q' : field) : Prop :=
  forall ll k i, ll < NUM_VARS -> k < nz e -> i < nx e -> Q ll k i = Q' ll k i.

(** The padded array that [set_halo_values_x] makes of a field: periodic
    columns, and the injection override on the left. *)
Definition xpad_of (Q : field) (ll r c : nat) : F :=
  let k := r - hs in
  let base ll := Q ll k (xwrap e c - hs) in
  if inj_active cfg e && in_band cfg e k && (c <? hs) then
    if Nat.eqb ll ID_UMOM then
      fmul (fadd (base ID_DENS) (at_ (hy_dens_cell e) (k + hs))) (of_int 50)
    else if Nat.eqb ll ID_RHOT then
      fsub (fmul (fadd (base ID_DENS) (at_ (hy_dens_cell e) (k + hs))) (of_int 298))
           (at_ (hy_dens_theta_cell e) (k + hs))
    else base ll
  else base ll.

(** The padded array that [set_halo_values_z] makes of a field, on the
    interior columns. *)
Definition zpad_of (Q : field) (ll r c : nat) : F :=
  let i := c - hs in
  if (r <? hs) || (nz e + hs <=? r) then
    let src := if r <? hs then hs else nz e + hs - 1 in
    if Nat.eqb ll ID_WMOM then of_int 0
    else if Nat.eqb ll ID_UMOM then
      fmul (fdiv (Q ll (src - hs) i) (at_ (hy_dens_cell e) src)) (at_ (hy_dens_cell e) r)
    else Q ll (src - hs) i
  else Q ll (r - hs) i.

(** The right-hand side of a field: halo, then flux and tendency. *)
Definition rhs_f (dir : Z) (dt : F) (Q : field) : field :=
  if Z.eqb dir DIR_X
  then tend_x_of cfg (flux_x_of cfg e (xpad_of Q) dt)
  else tend_z_of cfg (flux_z_of cfg e (zpad_of Q) dt) (zpad_of Q).

Lemma xpad_of_ext (Q Q' : field) ll k c :
  feq Q Q' -> ll < NUM_VARS -> k < nz e -> c < nx e + 2 * hs ->
  xpad_of Q ll (k + hs) c = xpad_of Q' ll (k + hs) c.
Proof.
  intros HQ Hl Hk Hc. unfold xpad_of. cbv zeta. rewrite Nat.add_sub.
  destruct (xwrap_interior e Hnx c Hc) as (H1 & H2).
  rewrite (HQ ll), (HQ ID_DENS); auto; unfold ID_DENS, NUM_VARS, hs in *; lia.
Qed.

Lemma zpad_of_ext (Q Q' : field) ll r i :
  feq Q Q' -> ll < NUM_VARS -> r < nz e + 2 * hs -> i < nx e ->
  zpad_of Q ll r (i + hs) = zpad_of Q' ll r (i + hs).
Proof.
  intros HQ Hl Hr Hi. unfold zpad_of. cbv zeta. rewrite Nat.add_sub.
  destruct (Nat.ltb_spec r hs); simpl.
  - rewrite (HQ ll); auto; unfold hs in *; lia.
  - destruct (Nat.leb_spec (nz e + hs) r).
    + rewrite (HQ ll); auto; unfold hs in *; lia.
    + rewrite (HQ ll); auto; unfold hs in *; lia.
Qed.

Lemma rhs_f_ext (dir : Z) (dt : F) (Q Q' : field) :
  feq Q Q' -> feq (rhs_f dir dt Q) (rhs_f dir dt Q').
Proof using Hnx Hnz.
  intros HQ ll k i Hl Hk Hi. unfold rhs_f.
  destruct (Z.eqb dir DIR_X).
  - unfold tend_x_of.
    assert (Hfl : forall i', i' < nx e + 1 ->
      flux_x_of cfg e (xpad_of Q) dt ll k i' = flux_x_of cfg e (xpad_of Q') dt ll k i').
    { intros i' Hi'. apply flux_x_of_ext. intros l s Hl' Hs.
      apply xpad_of_ext; auto. unfold sten_size, hs in *. lia. }
    rewrite !Hfl by lia. reflexivity.
  - unfold tend_z_of.
    assert (Hfl : forall k', k' < nz e + 1 ->
      flux_z_of cfg e (zpad_of Q) dt ll k' i = flux_z_of cfg e (zpad_of Q') dt ll k' i).
    { intros k' Hk'. apply flux_z_of_ext. intros l s Hl' Hs.
      apply zpad_of_ext; auto. unfold sten_size, hs in *. lia. }
    rewrite !Hfl by lia.
    rewrite (zpad_of_ext Q Q' ID_DENS (k + hs) i); auto; unfold ID_DENS, NUM_VARS, hs; lia.
Qed.

(** The right-hand side computed on the heap is the right-hand side of
    the interior field of the forcing array. *)
Lemma rhs_heap_field (dir : Z) (p : ptr) (dt : F) (m : mem) :
  feq (rhs cfg e dir p dt m) (rhs_f dir dt (interior e m p)).
Proof using Hnx Hnz.
  intros ll k i Hl Hk Hi. unfold rhs, rhs_f, rhs_x, rhs_z.
  destruct (Z.eqb dir DIR_X).
  - unfold tend_x_of.
    assert (Hfl : forall i', i' < nx e + 1 ->
      flux_x_of cfg e (xpad cfg e p m) dt ll k i'
      = flux_x_of cfg e (xpad_of (interior e m p)) dt ll k i').
    { intros i' Hi'. apply flux_x_of_ext. intros l s Hl' Hs.
      unfold xpad, xpad_of, halo_x_read, interior. cbv zeta. rewrite Nat.add_sub.
      assert (Hc : i' + s < nx e + 2 * hs) by (unfold sten_size, hs in *; lia).
      destruct (xwrap_interior e Hnx (i' + s) Hc) as (H1 & H2).
      replace (xwrap e (i' + s) - hs + hs) with (xwrap e (i' + s)) by lia.
      reflexivity. }
    rewrite !Hfl by lia. reflexivity.
  - unfold tend_z_of.
    assert (Hz : forall l r, r < nz e + 2 * hs ->
      zpad e p m l r (i + hs) = zpad_of (interior e m p) l r (i + hs)).
    { intros l r Hr. unfold zpad, zpad_of, halo_z_read, interior. cbv zeta.
      rewrite Nat.add_sub.
      destruct (Nat.ltb_spec r hs); simpl.
      - replace (hs - hs + hs) with hs by lia. reflexivity.
      - destruct (Nat.leb_spec (nz e + hs) r).
        + replace (nz e + hs - 1 - hs + hs) with (nz e + hs - 1) by (unfold hs; lia).
          reflexivity.
        + replace (r - hs + hs) with r by lia. reflexivity. }
    assert (Hfl : forall k', k' < nz e + 1 ->
      flux_z_of cfg e (zpad e p m) dt ll k' i
      = flux_z_of cfg e (zpad_of (interior e m p)) dt ll k' i).
    { intros k' Hk'. apply flux_z_of_ext. intros l s Hl' Hs.
      apply Hz. unfold sten_size, hs in *. lia. }
    rewrite !Hfl by lia. rewrite Hz by (unfold hs; lia). reflexivity.
Qed.

End Fields.

(** * The time step as the specification words it *)

Section RungeKutta.
Context `{A : Arith}.

(** [Q + a * T], cell by cell. *)
Definition axpy (Q : field) (a : F) (T : field) : field :=
  fun ll k i => fadd (Q ll k i) (fmul a (T ll k i)).

(** One dimension sweep as the specification states it:
    Q1 = Q + (dt/3) RHS(Q), Q2 = Q + (dt/2) RHS(Q1), Q = Q + (dt/1) RHS(Q2),
    where [RHS] takes the stage's time step first. *)
Definition rk3_sweep (RHS : F -> field -> field) (dt : F) (Q : field) : field :=
  let Q1 := axpy Q (fdiv dt (of_int 3)) (RHS (fdiv dt (of_int 3)) Q) in
  let Q2 := axpy Q (fdiv dt (of_int 2)) (RHS (fdiv dt (of_int 2)) Q1) in
  axpy Q (fdiv dt (of_int 1)) (RHS (fdiv dt (of_int 1)) Q2).

(** The Strang alternation as the specification states it: X then Z when
    [direction_switch] is true, Z then X otherwise, and the switch is
    toggled. *)
Definition strang_step (RHSx RHSz : F -> field -> field) (direction_switch : Z)
    (dt : F) (Q : field) : field * Z :=
  if negb (Z.eqb direction_switch 0)
  then (rk3_sweep RHSz dt (rk3_sweep RHSx dt Q), 0%Z)
  else (rk3_sweep RHSx dt (rk3_sweep RHSz dt Q), 1%Z).

Variable cfg : config.
Variable e : env.
Hypothesis Hnx : 2 <= nx e.
Hypothesis Hnz : 1 <= nz e.

Lemma axpy_ext (Q Q' : field) a (T T' : field) :
  feq e Q Q' -> feq e T T' -> feq e (axpy Q a T) (axpy Q' a T').
Proof.
  intros HQ HT ll k i Hl Hk Hi. unfold axpy. rewrite HQ, HT by auto. reflexivity.
Qed.

Lemma rk3_sweep_ext (dir : Z) (dt : F) (Q Q' : field) :
  feq e Q Q' ->
  feq e (rk3_sweep (rhs_f cfg e dir) dt Q) (rk3_sweep (rhs_f cfg e dir) dt Q').
Proof using Hnx Hnz.
  intros HQ. unfold rk3_sweep. cbv zeta.
  apply axpy_ext; [exact HQ|]. apply (rhs_f_ext cfg e Hnx Hnz).
  apply axpy_ext; [exact HQ|]. apply (rhs_f_ext cfg e Hnx Hnz).
  apply axpy_ext; [exact HQ|]. apply (rhs_f_ext cfg e Hnx Hnz). exact HQ.
Qed.

(** The three stages of one sweep, with the buffers [perform_timestep]
    gives them. *)
Definition sweep (dir : Z) (dt : F) (m : mem) : mem :=
  let m := semi_discrete_step cfg e Pstate Pstate Pstate_tmp (fdiv dt (of_int 3)) dir Pflux Ptend m in
  let m := semi_discrete_step cfg e Pstate Pstate_tmp Pstate_tmp (fdiv dt (of_int 2)) dir Pflux Ptend m in
  semi_discrete_step cfg e Pstate Pstate_tmp Pstate (fdiv dt (of_int 1)) dir Pflux Ptend m.

(** A stage without the gravity-wave forcing, on fields. *)
Lemma stage_field (pi pf po : ptr) (dt : F) (dir : Z) (m : mem) :
  gflag cfg = false ->
  is_state pi -> is_state pf -> is_state po -> dir = DIR_X \/ dir = DIR_Z -> wf e m ->
  let m' := semi_discrete_step cfg e pi pf po dt dir Pflux Ptend m in
  wf e m' /\
  feq e (interior e m' po) (axpy (interior e m pi) dt (rhs_f cfg e dir dt (interior e m pf))) /\
  (forall q, is_state q -> q <> po -> feq e (interior e m' q) (interior e m q)).
Proof using Hnx Hnz.
  intros Hg Hpi Hpf Hpo Hdir Hm m'.
  destruct (semi_discrete_step_spec cfg e Hnx Hnz pi pf po dt dir m Hpi Hpf Hpo Hdir Hm)
    as (Hw & Hout & Hfr).
  split; [exact Hw|]. split.
  - intros ll k i Hl Hk Hi. unfold m'. rewrite Hout by auto.
    unfold axpy, stage_tend. rewrite Hg. simpl.
    rewrite (rhs_heap_field cfg e Hnx Hnz dir pf dt m) by auto. reflexivity.
  - intros q Hq Hne ll k i Hl Hk Hi. apply Hfr; auto.
Qed.

Lemma sweep_field (dir : Z) (dt : F) (m : mem) :
  gflag cfg = false -> dir = DIR_X \/ dir = DIR_Z -> wf e m ->
  wf e (sweep dir dt m) /\
  feq e (interior e (sweep dir dt m) Pstate)
        (rk3_sweep (rhs_f cfg e dir) dt (interior e m Pstate)).
Proof using Hnx Hnz.
  intros Hg Hdir Hm. unfold sweep. cbv zeta.
  assert (HS : is_state Pstate) by (left; reflexivity).
  assert (HT : is_state Pstate_tmp) by (right; reflexivity).
  destruct (stage_field Pstate Pstate Pstate_tmp (fdiv dt (of_int 3)) dir m Hg HS HS HT Hdir Hm)
    as (Hw1 & Ho1 & Hf1).
  set (m1 := semi_discrete_step cfg e Pstate Pstate Pstate_tmp (fdiv dt (of_int 3)) dir
               Pflux Ptend m) in *.
  destruct (stage_field Pstate Pstate_tmp Pstate_tmp (fdiv dt (of_int 2)) dir m1 Hg HS HT HT Hdir Hw1)
    as (Hw2 & Ho2 & Hf2).
  set (m2 := semi_discrete_step cfg e Pstate Pstate_tmp Pstate_tmp (fdiv dt (of_int 2)) dir
               Pflux Ptend m1) in *.
  destruct (stage_field Pstate Pstate_tmp Pstate (fdiv dt (of_int 1)) dir m2 Hg HS HT HS Hdir Hw2)
    as (Hw3 & Ho3 & Hf3).
  split; [exact Hw3|].
  assert (HS1 : feq e (interior e m1 Pstate) (interior e m Pstate))
    by (apply Hf1; [exact HS | discriminate]).
  assert (HS2 : feq e (interior e m2 Pstate) (interior e m Pstate)).
  { intros ll k i Hl Hk Hi. rewrite (Hf2 Pstate HS ltac:(discriminate)) by auto.
    apply HS1; auto. }
  intros ll k i Hl Hk Hi. rewrite Ho3 by auto.
  unfold rk3_sweep. cbv zeta.
  apply axpy_ext; auto.
  apply (rhs_f_ext cfg e Hnx Hnz).
  intros ll' k' i' Hl' Hk' Hi'. rewrite Ho2 by auto.
  apply axpy_ext; auto.
  apply (rhs_f_ext cfg e Hnx Hnz).
  intros ll'' k'' i'' Hl'' Hk'' Hi''. rewrite Ho1 by auto. reflexivity.
Qed.

Lemma perform_timestep_unfold (dt : F) (m : mem) (sw : Z) :
  perform_timestep cfg e Pstate Pstate_tmp Pflux Ptend dt (m, sw)
  = (if negb (Z.eqb sw 0)
     then sweep DIR_Z dt (sweep DIR_X dt m)
     else sweep DIR_X dt (sweep DIR_Z dt m),
     if negb (Z.eqb sw 0) then 0%Z else 1%Z).
Proof. unfold perform_timestep, sweep. destruct (negb (Z.eqb sw 0)); reflexivity. Qed.

End RungeKutta.

(** * The conservation reducer *)

Lemma for_ext {S : Type} (n : nat) (body body' : nat -> S -> S) (s : S) :
  (forall i s', i < n -> body i s' = body' i s') -> for_ n body s = for_ n body' s.
Proof.
  induction n as [|n IH]; intros Hb; simpl; [reflexivity|].
  rewrite IH by (intros i s' Hi; apply Hb; lia). apply Hb. lia.
Qed.

Section Reductions.
Context `{A : Arith}.
Variable cfg : config.
Variable e : env.

(** [reductions] reads the interior of [state] only. *)
Lemma reductions_ext (m m' : mem) :
  feq e (interior e m Pstate) (interior e m' Pstate) ->
  reductions cfg e m = reductions cfg e m'.
Proof.
  intros HQ. unfold reductions.
  apply for_ext. intros k acc Hk. apply for_ext. intros i acc' Hi.
  unfold reductions_body. cbv zeta.
  pose proof (HQ ID_DENS k i) as H0. pose proof (HQ ID_UMOM k i) as H1.
  pose proof (HQ ID_WMOM k i) as H2. pose proof (HQ ID_RHOT k i) as H3.
  unfold interior, ID_DENS, ID_UMOM, ID_WMOM, ID_RHOT, NUM_VARS in *.
  rewrite H0, H1, H2, H3 by lia. reflexivity.
Qed.

End Reductions.

(** ** A small concrete grid *)

(** Four columns and two rows over the exact reals, a uniform background
    of density one, and a heap of zeros. *)
Definition demo_cfg (spec : Z) : @config exact :=
  @Config exact 4 2 1%R (-1)%R spec.

Definition demo_env : @env exact :=
  @Env exact 4 2 0 0 1 0 0 0
       (replicate 6 1%R) (replicate 6 300%R)
       (replicate 3 1%R) (replicate 3 300%R) (replicate 3 0%R).

Definition demo_mem : @mem exact :=
  @Mem exact (replicate 192 0%R) (replicate 192 0%R) (replicate 60 0%R) (replicate 32 0%R).

Lemma demo_wf : wf demo_env demo_mem.
Proof. intros []; reflexivity. Qed.

(** ** Halo idempotence *)

Section HaloXIdempotence.
Context `{A : Arith}.
Variable cfg : config.
Variable e : env.
Variable p : ptr.
Hypothesis Hp : is_state p.
Hypothesis Hnx : 2 <= nx e.

(** The halo routine reads only interior columns, which it does not
    change. *)
Lemma halo_x_read_stable (m : mem) ll k c :
  wf e m -> ll < NUM_VARS -> k < nz e -> c < nx e + 2 * hs ->
  halo_x_read cfg e p (set_halo_values_x cfg e p m) ll k c = halo_x_read cfg e p m ll k c.
Proof.
  intros Hm Hl Hk Hc.
  destruct (xwrap_interior e Hnx c Hc) as (H1 & H2).
  assert (Hb : forall l, l < NUM_VARS ->
    ld (set_halo_values_x cfg e p m) p (sidx e l (k + hs) (xwrap e c))
    = ld m p (sidx e l (k + hs) (xwrap e c))).
  { intros l Hl'. rewrite set_halo_values_x_read; auto; [|unfold hs in *; lia].
    apply halo_x_read_interior; auto. }
  unfold halo_x_read. rewrite (Hb ll Hl), (Hb ID_DENS); [reflexivity|].
  unfold ID_DENS, NUM_VARS. lia.
Qed.

End HaloXIdempotence.

(** C6, amended. Halo idempotence: on a grid with at least as many interior columns
    as the halo is wide, calling [set_halo_values_x] twice in succession on
    a state array leaves the heap exactly as one call does, in every
    scenario (the injection override on rank 0 included) and for every
    arithmetic. *)
Theorem set_halo_values_x_idempotent `{A : Arith} (cfg : config) (e : env) (p : ptr) (m : mem) :
  is_state p -> 2 <= nx e -> wf e m ->
  set_halo_values_x cfg e p (set_halo_values_x cfg e p m) = set_halo_values_x cfg e p m.
Proof.
  intros Hp Hnx Hm.
  pose proof (set_halo_values_x_wf cfg e p Hp Hnx m Hm) as Hm1.
  pose proof (set_halo_values_x_wf cfg e p Hp Hnx _ Hm1) as Hm2.
  apply mem_ext.
  - intros q. rewrite Hm2, Hm1. reflexivity.
  - intros q i.
    destruct (classic (exists ll k c, ll < NUM_VARS /\ k < nz e /\ c < nx e + 2 * hs
                                      /\ (q, i) = (p, sidx e ll (k + hs) c)))
      as [(ll & k & c & Hl & Hk & Hc & Heq) | Hno].
    + injection Heq as -> ->.
      rewrite !set_halo_values_x_read; auto.
      apply halo_x_read_stable; auto.
    + apply set_halo_values_x_frame; auto.
      intros ll k c Hl Hk Hc Heq. apply Hno. exists ll, k, c. auto.
Qed.

Lemma set_halo_values_x_idempotent_witness :
  set_halo_values_x (demo_cfg 6) demo_env Pstate
    (set_halo_values_x (demo_cfg 6) demo_env Pstate demo_mem)
  = set_halo_values_x (demo_cfg 6) demo_env Pstate demo_mem.
Proof.
  apply (set_halo_values_x_idempotent (demo_cfg 6) demo_env Pstate demo_mem).
  - left; reflexivity.
  - simpl; lia.
  - exact demo_wf.
Defined.

Lemma compute_tendencies_write_only_flux_tend_witness :
  buf (compute_tendencies_x (demo_cfg 2) demo_env Pstate Pflux Ptend 1%R demo_mem) Pstate
    = buf demo_mem Pstate /\
  buf (compute_tendencies_z (demo_cfg 2) demo_env Pstate Pflux Ptend 1%R demo_mem) Pstate
    = buf demo_mem Pstate.
Proof.
  apply (compute_tendencies_write_only_flux_tend (demo_cfg 2) demo_env
           Pstate Pflux Ptend 1%R demo_mem Pstate); discriminate.
Defined.

(** ** A heap that is not uniform *)

(** The density of cell [(0,3)], in the last interior column, is perturbed
    by one; the left halo holds zeros. *)
Definition alias_mem : @mem exact := st demo_mem Pstate 21 1%R.

Lemma alias_mem_wf : wf demo_env alias_mem.
Proof. intros q. unfold alias_mem. rewrite length_buf_st. apply demo_wf. Qed.

(** ** The gravity-wave forcing *)

(** C4 on the code. In the gravity-wave scenario every stage adds the
    forcing [wpert * hy_dens_cell[hs+k]] to [tend[WMOM,k,i]] once per
    iteration of the variable loop: three times before the vertical
    momentum is written, and four times in all. *)
Theorem gravity_forcing_added_once_per_variable `{A : Arith}
    (cfg : config) (e : env) (pi pf po : ptr) (dt : F) (dir : Z) (m : mem) (k i : nat) :
  is_state pi -> is_state pf -> is_state po ->
  dir = DIR_X \/ dir = DIR_Z ->
  2 <= nx e -> 1 <= nz e -> wf e m ->
  data_spec_int cfg = DATA_SPEC_GRAVITY_WAVES ->
  k < nz e -> i < nx e ->
  let m' := semi_discrete_step cfg e pi pf po dt dir Pflux Ptend m in
  let t := rhs cfg e dir pf dt m ID_WMOM k i in
  let c := fmul (wpert_at cfg e k i) (at_ (hy_dens_cell e) (hs + k)) in
  interior e m' po ID_WMOM k i
    = fadd (interior e m pi ID_WMOM k i) (fmul dt (fadd (fadd (fadd t c) c) c))
  /\ ld m' Ptend (tidx e ID_WMOM k i) = fadd (fadd (fadd (fadd t c) c) c) c.
Proof.
  intros Hpi Hpf Hpo Hdir Hnx Hnz Hm Hg Hk Hi m' t c.
  assert (Hgf : gflag cfg = true) by (unfold gflag; rewrite Hg; reflexivity).
  destruct (semi_discrete_step_spec cfg e Hnx Hnz pi pf po dt dir m Hpi Hpf Hpo Hdir Hm)
    as (_ & Hout & _).
  split.
  - unfold m'. rewrite Hout by (auto; unfold ID_WMOM, NUM_VARS; lia).
    unfold stage_tend. rewrite Hgf. reflexivity.
  - unfold m'. rewrite (semi_discrete_step_tend cfg e Hnx Hnz); auto.
    rewrite Hgf. reflexivity.
Qed.

(** ** The time step *)

(** A grid of four columns and five rows, on which the centre of cell
    [(0,0)] is the centre of the gravity-wave forcing. *)
Definition wave_cfg : @config exact := @Config exact 4 5 1%R (-1)%R 3.

Definition wave_env : @env exact :=
  @Env exact 4 5 0 0 1 0 0 0
       (replicate 9 1%R) (replicate 9 300%R)
       (replicate 6 1%R) (replicate 6 300%R) (replicate 6 0%R).

Definition wave_mem : @mem exact :=
  @Mem exact (replicate 288 0%R) (replicate 288 0%R) (replicate 120 0%R) (replicate 80 0%R).

Lemma wave_wf : wf wave_env wave_mem.
Proof. intros []; reflexivity. Qed.

Ltac calc_IZR :=
  repeat match goal with
  | |- context [IZR ?z] =>
      let z' := eval vm_compute in z in
      progress change (IZR z) with (IZR z')
  end.

Lemma Rdec_neg (m : Z) (ex : positive) : Rdec m (Z.neg ex) = (IZR m / IZR (10 ^ Z.pos ex))%R.
Proof. reflexivity. Qed.

Lemma pi_pos : (0 < @pi exact)%R.
Proof.
  unfold pi. simpl dec. rewrite Rdec_neg.
  apply Rdiv_lt_0_compat; apply IZR_lt; reflexivity.
Qed.

(** The forcing at the centre of the ellipse is its amplitude. *)
Lemma wave_wpert : wpert_at wave_cfg wave_env 0 0 = (1 / 100)%R.
Proof.
  unfold wpert_at. cbv zeta.
  set (x := (fmul (fadd (of_int (Z.of_nat (i_beg wave_env + 0))) (dec 5 (-1))) (dx wave_cfg))).
  set (z := (fmul (fadd (of_int (Z.of_nat (k_beg wave_env + 0))) (dec 5 (-1))) (dz wave_cfg))).
  assert (Hx : x = 2500%R).
  { unfold x, dx, xlen. simpl. rewrite Rdec_neg. calc_IZR. lra. }
  assert (Hz : z = 1000%R).
  { unfold z, dz, zlen. simpl. rewrite Rdec_neg. calc_IZR. lra. }
  rewrite Hx, Hz. unfold xlen. simpl.
  replace ((2500 - 20000 / 8) / 500 * ((2500 - 20000 / 8) / 500)
           + (1000 - 1000) / 500 * ((1000 - 1000) / 500))%R with 0%R by lra.
  rewrite sqrt_0. rewrite Rmult_0_l.
  replace (0 / 2)%R with 0%R by lra.
  unfold Rleb.
  match goal with |- context [Rle_dec ?a ?b] => destruct (Rle_dec a b) as [_|Hn] end.
  - rewrite cos_0. unfold Rpower. rewrite ln_1, Rmult_0_r, exp_0. rewrite Rdec_neg.
    calc_IZR. lra.
  - exfalso. apply Hn. pose proof pi_pos. simpl in *. lra.
Qed.

(** The first stage of the X sweep on the gravity-wave grid, at the cell
    whose centre is the centre of the forcing: there the forcing is
    [c = 1/100]. *)
Lemma gravity_forcing_added_once_per_variable_witness :
  let m' := semi_discrete_step wave_cfg wave_env Pstate Pstate Pstate_tmp (1 / 3)%R DIR_X
              Pflux Ptend wave_mem in
  let t := rhs wave_cfg wave_env DIR_X Pstate (1 / 3)%R wave_mem ID_WMOM 0 0 in
  let c := fmul (wpert_at wave_cfg wave_env 0 0) (at_ (hy_dens_cell wave_env) (hs + 0)) in
  (interior wave_env m' Pstate_tmp ID_WMOM 0 0
    = fadd (interior wave_env wave_mem Pstate ID_WMOM 0 0)
           (fmul (1 / 3)%R (fadd (fadd (fadd t c) c) c))
   /\ ld m' Ptend (tidx wave_env ID_WMOM 0 0) = fadd (fadd (fadd (fadd t c) c) c) c)
  /\ c = (1 / 100)%R.
Proof.
  intros m' t c. split.
  - apply (gravity_forcing_added_once_per_variable wave_cfg wave_env
             Pstate Pstate Pstate_tmp (1 / 3)%R DIR_X wave_mem 0 0).
    + left; reflexivity.
    + left; reflexivity.
    + right; reflexivity.
    + left; reflexivity.
    + simpl; lia.
    + simpl; lia.
    + exact wave_wf.
    + reflexivity.
    + simpl; lia.
    + simpl; lia.
  - unfold c. rewrite wave_wpert.
    change (at_ (hy_dens_cell wave_env) (hs + 0)) with 1%R. simpl. lra.
Defined.

(** C2, as stated, fails in the gravity-wave scenario: the first stage of
    the X sweep of [perform_timestep] (time step 1) does not leave
    Q + (dt/3) RHS(Q) in the scratch array. *)
Lemma gravity_waves_stage_is_not_plain_rk :
  interior wave_env
    (semi_discrete_step wave_cfg wave_env Pstate Pstate Pstate_tmp (1 / 3)%R DIR_X
       Pflux Ptend wave_mem) Pstate_tmp ID_WMOM 0 0
  <> axpy (interior wave_env wave_mem Pstate) (1 / 3)%R
          (rhs_f wave_cfg wave_env DIR_X (1 / 3)%R (interior wave_env wave_mem Pstate))
          ID_WMOM 0 0.
Proof.
  assert (Hnx : 2 <= nx wave_env) by (simpl; lia).
  assert (Hnz : 1 <= nz wave_env) by (simpl; lia).
  assert (HS : is_state Pstate) by (left; reflexivity).
  assert (HT : is_state Pstate_tmp) by (right; reflexivity).
  destruct (semi_discrete_step_spec wave_cfg wave_env Hnx Hnz Pstate Pstate Pstate_tmp
              (1 / 3)%R DIR_X wave_mem HS HS HT (or_introl eq_refl) wave_wf) as (_ & Hout & _).
  rewrite Hout by (unfold ID_WMOM, NUM_VARS; simpl; lia).
  unfold axpy, stage_tend.
  rewrite <- (rhs_heap_field wave_cfg wave_env Hnx Hnz DIR_X Pstate (1 / 3)%R wave_mem)
    by (unfold ID_WMOM, NUM_VARS; simpl; lia).
  change (gflag wave_cfg && Nat.eqb ID_WMOM ID_WMOM) with true. cbv iota.
  unfold addn, gforce. rewrite wave_wpert.
  change (at_ (hy_dens_cell wave_env) (hs + 0)) with 1%R.
  generalize (rhs wave_cfg wave_env DIR_X Pstate (1 / 3)%R wave_mem ID_WMOM 0 0).
  generalize (interior wave_env wave_mem Pstate ID_WMOM 0 0).
  intros q t. simpl. lra.
Qed.

(** C2, amended. In every scenario other than gravity waves,
    [perform_timestep] advances the interior of [state] by two three-stage
    sweeps of the stated form, X before Z when [direction_switch] is
    nonzero and Z before X otherwise, and toggles [direction_switch]. *)
Theorem perform_timestep_is_strang_rk3 `{A : Arith}
    (cfg : config) (e : env) (dt : F) (m : mem) (direction_switch : Z) :
  2 <= nx e -> 1 <= nz e -> wf e m ->
  data_spec_int cfg <> DATA_SPEC_GRAVITY_WAVES ->
  let r := perform_timestep cfg e Pstate Pstate_tmp Pflux Ptend dt (m, direction_switch) in
  let s := strang_step (rhs_f cfg e DIR_X) (rhs_f cfg e DIR_Z) direction_switch dt
             (interior e m Pstate) in
  feq e (interior e (fst r) Pstate) (fst s) /\ snd r = snd s /\
  snd r = (if Z.eqb direction_switch 0 then 1%Z else 0%Z).
Proof.
  intros Hnx Hnz Hm Hds r s.
  assert (Hg : gflag cfg = false).
  { unfold gflag. destruct (Z.eqb_spec (data_spec_int cfg) DATA_SPEC_GRAVITY_WAVES);
      [contradiction | reflexivity]. }
  unfold r, s. rewrite perform_timestep_unfold. unfold strang_step.
  destruct (Z.eqb direction_switch 0); simpl.
  - split; [|split; reflexivity].
    destruct (sweep_field cfg e Hnx Hnz DIR_Z dt m Hg (or_intror eq_refl) Hm) as (Hw1 & H1).
    destruct (sweep_field cfg e Hnx Hnz DIR_X dt _ Hg (or_introl eq_refl) Hw1) as (_ & H2).
    intros ll k i Hl Hk Hi. rewrite H2 by auto.
    apply (rk3_sweep_ext cfg e Hnx Hnz); auto.
  - split; [|split; reflexivity].
    destruct (sweep_field cfg e Hnx Hnz DIR_X dt m Hg (or_introl eq_refl) Hm) as (Hw1 & H1).
    destruct (sweep_field cfg e Hnx Hnz DIR_Z dt _ Hg (or_intror eq_refl) Hw1) as (_ & H2).
    intros ll k i Hl Hk Hi. rewrite H2 by auto.
    apply (rk3_sweep_ext cfg e Hnx Hnz); auto.
Qed.

(** The step of the thermal scenario from a heap whose density is not
    uniform: cell [(0,3)] carries a perturbation of one. *)
Lemma perform_timestep_is_strang_rk3_witness :
  let r := perform_timestep (demo_cfg 2) demo_env Pstate Pstate_tmp Pflux Ptend 1%R
             (alias_mem, 1%Z) in
  let s := strang_step (rhs_f (demo_cfg 2) demo_env DIR_X) (rhs_f (demo_cfg 2) demo_env DIR_Z)
             1%Z 1%R (interior demo_env alias_mem Pstate) in
  feq demo_env (interior demo_env (fst r) Pstate) (fst s) /\ snd r = snd s /\
  snd r = (if Z.eqb 1 0 then 1%Z else 0%Z).
Proof.
  apply (perform_timestep_is_strang_rk3 (demo_cfg 2) demo_env 1%R alias_mem 1%Z).
  - simpl; lia.
  - simpl; lia.
  - exact alias_mem_wf.
  - discriminate.
Defined.

(** ** Startup with an unknown scenario *)

Section ExitStatus.
Context `{A : Arith}.
Variable cfg : config.
Variable ncmpi : nat -> bool.

Lemma output_exit (r : run) (code : Z) :
  output ncmpi r = inr code -> code = (-1)%Z /\ exists n, ncmpi n = false.
Proof.
  unfold output. destruct (ncmpi (r_num_out r)) eqn:Hn; intros H; [discriminate|].
  injection H as <-. split; [reflexivity|]. exists (r_num_out r). exact Hn.
Qed.

Lemma time_step_exit (e : env) (r : run) (code : Z) :
  time_step cfg ncmpi e r = inr code -> code = (-1)%Z /\ exists n, ncmpi n = false.
Proof.
  unfold time_step.
  destruct (perform_timestep cfg e Pstate Pstate_tmp Pflux Ptend _ _) as [m sw].
  destruct (_ && _); [apply output_exit | discriminate].
Qed.

Lemma time_loop_exit (fuel : nat) (e : env) (r : run) (code : Z) :
  time_loop cfg ncmpi fuel e r = Some (inr code) ->
  code = (-1)%Z /\ exists n, ncmpi n = false.
Proof.
  revert r. induction fuel as [|fuel IH]; intros r; simpl.
  - destruct (flt _ _); discriminate.
  - destruct (flt _ _); [|discriminate].
    destruct (time_step cfg ncmpi e r) as [r'|c] eqn:Hs.
    + apply IH.
    + intros H. injection H as <-. eapply time_step_exit; eauto.
Qed.

(** [main] after [init] and the first reductions. *)
Definition main_from (fuel : nat) (g : started) : outcome :=
  let e := g_env g in
  let '(mass0, te0) := reductions cfg e (g_mem g) in
  let r := Run _ (g_mem g) (g_dt g) (g_etime g) (g_output_counter g) 0 1 in
  let start := if fle (of_int 0) (output_freq cfg) then output ncmpi r else inl r in
  match start with
  | inr code => Exited code
  | inl r =>
      match time_loop cfg ncmpi fuel e r with
      | None => OutOfFuel
      | Some (inr code) => Exited code
      | Some (inl r) =>
          let '(mass, te) := reductions cfg e (r_mem r) in
          Returned 0 (fdiv (fsub mass mass0) mass0) (fdiv (fsub te te0) te0)
      end
  end.

Lemma main_unfold (fuel : nat) (junk : F) (junk_loc : sample) :
  main cfg ncmpi fuel junk junk_loc = main_from fuel (init cfg junk junk_loc).
Proof. reflexivity. Qed.

(** The only exits of [main]: status 0 at its end, and [exit(-1)] after a
    NetCDF error. *)
Lemma main_from_exit (fuel : nat) (g : started) :
  match main_from fuel g with
  | Returned code _ _ => code = 0%Z
  | Exited code => code = (-1)%Z /\ exists n, ncmpi n = false
  | OutOfFuel => True
  end.
Proof.
  unfold main_from. cbv zeta.
  destruct (reductions cfg (g_env g) (g_mem g)) as [mass0 te0].
  destruct (fle (of_int 0) (output_freq cfg)).
  - destruct (output ncmpi _) as [r0|c0] eqn:Hstart.
    + destruct (time_loop cfg ncmpi fuel (g_env g) r0) as [[r1|c1]|] eqn:Hloop.
      * destruct (reductions cfg (g_env g) (r_mem r1)) as [mass te]. reflexivity.
      * eapply time_loop_exit; eauto.
      * exact I.
    + eapply output_exit; eauto.
  - destruct (time_loop cfg ncmpi fuel (g_env g) _) as [[r1|c1]|] eqn:Hloop.
    + destruct (reductions cfg (g_env g) (r_mem r1)) as [mass te]. reflexivity.
    + eapply time_loop_exit; eauto.
    + exact I.
Qed.

(** With no output and nothing to simulate, [main] returns at once. *)
Lemma main_from_returns (fuel : nat) (g : started) :
  fle (of_int 0) (output_freq cfg) = false ->
  flt (g_etime g) (sim_time cfg) = false ->
  match main_from fuel g with
  | Returned code _ _ => code = 0%Z
  | _ => False
  end.
Proof.
  intros Hout Hloop. unfold main_from. cbv zeta.
  destruct (reductions cfg (g_env g) (g_mem g)) as [mass0 te0].
  rewrite Hout.
  assert (Ht : time_loop cfg ncmpi fuel (g_env g)
                 (Run _ (g_mem g) (g_dt g) (g_etime g) (g_output_counter g) 0 1)
               = Some (inl (Run _ (g_mem g) (g_dt g) (g_etime g) (g_output_counter g) 0 1))).
  { destruct fuel; simpl; rewrite Hloop; reflexivity. }
  rewrite Ht.
  destruct (reductions cfg (g_env g) _) as [mass te]. reflexivity.
Qed.

End ExitStatus.

Section InitGlobals.
Context `{A : Arith}.
Variable cfg : config.
Variables (junk : F) (junk_loc : sample).

(** [init] as its three loops. *)
Definition init_state_loop : mem * sample :=
  for_ (nz (init_env cfg junk) + 2 * hs)
       (fun k => for_ (nx (init_env cfg junk) + 2 * hs)
                      (fun i => init_cell_body cfg (init_env cfg junk) k i))
       (init_mem cfg junk, junk_loc).

Definition init_hydro_loops : hydro * sample :=
  let e := init_env cfg junk in
  for_ (nz e + 1) (fun k => hy_int_body cfg e k)
    (for_ (nz e + 2 * hs) (fun k => hy_cell_row cfg e k)
       (Hydro (hy_dens_cell e) (hy_dens_theta_cell e) (hy_dens_int e)
              (hy_dens_theta_int e) (hy_pressure_int e), snd init_state_loop)).

Lemma init_unfold :
  init cfg junk junk_loc =
  let e := init_env cfg junk in
  let h := fst init_hydro_loops in
  Started (Env _ (nx e) (nz e) (i_beg e) (k_beg e) (nranks e) (myrank e)
                 (left_rank e) (right_rank e)
                 (h_dens_cell h) (h_dens_theta_cell h) (h_dens_int h)
                 (h_dens_theta_int h) (h_pressure_int h))
          (fst init_state_loop)
          (fmul (fdiv (dmin (dx cfg) (dz cfg)) max_speed) cfl) (of_int 0) (of_int 0).
Proof.
  unfold init, init_hydro_loops, init_state_loop. cbv zeta.
  destruct (for_ _ _ (init_mem cfg junk, junk_loc)) as [m loc]. simpl fst. simpl snd.
  destruct (for_ (nz (init_env cfg junk) + 2 * hs) _ _) as [h loc']. 
  destruct (for_ (nz (init_env cfg junk) + 1) _ _) as [h' loc'']. reflexivity.
Qed.

Lemma init_etime : g_etime (init cfg junk junk_loc) = of_int 0.
Proof. rewrite init_unfold. reflexivity. Qed.

Lemma init_nx : nx (g_env (init cfg junk junk_loc)) = nx_glob cfg.
Proof. rewrite init_unfold. reflexivity. Qed.

Lemma init_nz : nz (g_env (init cfg junk junk_loc)) = nz_glob cfg.
Proof. rewrite init_unfold. reflexivity. Qed.

Lemma init_mem_eq : g_mem (init cfg junk junk_loc) = fst init_state_loop.
Proof. rewrite init_unfold. reflexivity. Qed.

End InitGlobals.

(** The scenario numbers [init] knows. *)
Definition known_data_spec (d : Z) : Prop :=
  d = DATA_SPEC_COLLISION \/ d = DATA_SPEC_THERMAL \/ d = DATA_SPEC_GRAVITY_WAVES \/
  d = DATA_SPEC_DENSITY_CURRENT \/ d = DATA_SPEC_INJECTION.

(** ** The heap that [init] builds *)

Section InitHeap.
Context `{A : Arith}.
Variable cfg : config.
Variable junk : F.

Local Abbreviation e0 := (init_env cfg junk).
#[local] Arguments st : simpl never.
#[local] Arguments ld : simpl never.
#[local] Arguments sidx : simpl never.

(** [m'] has the block sizes of [m] and differs from it at most on the
    cells in [W]. *)
Definition same_off (W : ptr -> nat -> Prop) (m m' : mem) : Prop :=
  (forall p, length (buf m' p) = length (buf m p)) /\
  (forall q j, ~ W q j -> ld m' q j = ld m q j).

Lemma same_off_refl W m : same_off W m m.
Proof. split; reflexivity. Qed.

Lemma same_off_trans W m1 m2 m3 : same_off W m1 m2 -> same_off W m2 m3 -> same_off W m1 m3.
Proof.
  intros (L1 & F1) (L2 & F2). split.
  - intros p. rewrite L2. apply L1.
  - intros q j Hn. rewrite F2 by exact Hn. apply F1. exact Hn.
Qed.

Lemma same_off_st (W : ptr -> nat -> Prop) m p i v : W p i -> same_off W m (st m p i v).
Proof.
  intros HW. split.
  - intros q. apply length_buf_st.
  - intros q j Hn. apply ld_st_ne. intros Heq. injection Heq as -> ->. contradiction.
Qed.

(** The cells of column [i] of row [k], in the two state arrays. *)
Definition cell_of (k i : nat) (q : ptr) (j : nat) : Prop :=
  exists ll, ll < NUM_VARS /\ j = sidx e0 ll k i.

Lemma cell_of_intro k i q ll : ll < NUM_VARS -> cell_of k i q (sidx e0 ll k i).
Proof. intros Hl. exists ll. auto. Qed.

Lemma init_quad_body_off k i kk ii (s : mem * sample) :
  same_off (cell_of k i) (fst s) (fst (init_quad_body cfg e0 k i kk ii s)).
Proof.
  destruct s as [m loc]. unfold init_quad_body. cbv zeta.
  destruct (scenario cfg _ _ loc) as [r u w t hr ht]. simpl fst.
  repeat (eapply same_off_trans;
          [|apply same_off_st; apply cell_of_intro;
            unfold NUM_VARS, ID_DENS, ID_UMOM, ID_WMOM, ID_RHOT; lia]).
  apply same_off_refl.
Qed.

Lemma init_cell_body_off k i (s : mem * sample) :
  same_off (cell_of k i) (fst s) (fst (init_cell_body cfg e0 k i s)).
Proof.
  destruct s as [m loc]. unfold init_cell_body.
  set (m1 := for_ NUM_VARS (fun ll m => st m Pstate (sidx e0 ll k i) (of_int 0)) m).
  assert (H1 : same_off (cell_of k i) m m1).
  { unfold m1. simpl.
    repeat (eapply same_off_trans;
            [|apply same_off_st; apply cell_of_intro; unfold NUM_VARS; lia]).
    apply same_off_refl. }
  assert (H2 : same_off (cell_of k i) m
                 (fst (for_ nqpoints (fun kk => for_ nqpoints
                         (fun ii => init_quad_body cfg e0 k i kk ii)) (m1, loc)))).
  { apply (for_inv (fun s => same_off (cell_of k i) m (fst s))); [exact H1|].
    intros kk s1 _ Hs1.
    apply (for_inv (fun s => same_off (cell_of k i) m (fst s))); [exact Hs1|].
    intros ii s2 _ Hs2. eapply same_off_trans; [exact Hs2|]. apply init_quad_body_off. }
  destruct (for_ nqpoints _ (m1, loc)) as [m2 loc2]. simpl fst in *.
  simpl.
  repeat (eapply same_off_trans;
          [|apply same_off_st; apply cell_of_intro; unfold NUM_VARS; lia]).
  exact H2.
Qed.

Lemma init_state_loop_len (junk_loc : sample) p :
  length (buf (fst (init_state_loop cfg junk junk_loc)) p) = length (buf (init_mem cfg junk) p).
Proof.
  unfold init_state_loop.
  apply (for_inv (fun s : mem * sample =>
           length (buf (fst s) p) = length (buf (init_mem cfg junk) p))); [reflexivity|].
  intros k s1 _ Hs1.
  apply (for_inv (fun s : mem * sample =>
           length (buf (fst s) p) = length (buf (init_mem cfg junk) p))); [exact Hs1|].
  intros i s2 _ Hs2.
  destruct (init_cell_body_off k i s2) as (Hl & _). rewrite Hl. exact Hs2.
Qed.

(** The heap of [init] has the block sizes the kernels expect. *)
Lemma init_wf (junk_loc : sample) :
  wf (g_env (init cfg junk junk_loc)) (g_mem (init cfg junk junk_loc)).
Proof.
  rewrite init_mem_eq. intros p. rewrite init_state_loop_len.
  rewrite init_unfold. unfold block_size, init_mem, NUM_VARS, hs. simpl.
  destruct p; simpl; rewrite length_replicate; lia.
Qed.

End InitHeap.

(** ** Exact arithmetic: mass *)








Section Mass.
Variable cfg : @config exact.
Variable e : @env exact.
Hypothesis Hnx : 2 <= nx e.
Hypothesis Hnz : 1 <= nz e.






(** The density flux through the floor and through the lid is zero. *)
Lemma flux_z_dens_boundary (g : nat -> nat -> nat -> R) (dt : R) k i :
  k = 0 \/ k = nz e -> flux_z_of cfg e g dt ID_DENS k i = 0%R.
Proof using Type.
  intros Hk. unfold flux_z_of. cbv zeta.
  assert (Hb : (Nat.eqb k 0 || Nat.eqb k (nz e)) = true).
  { destruct Hk as [-> | ->]; [reflexivity|]. rewrite Nat.eqb_refl. apply orb_true_r. }
  rewrite Hb. simpl. ring.
Qed.





End Mass.


(** ** The rigid lid *)

Lemma for_len `{A : Arith} (n : nat) (body : nat -> mem -> mem) :
  (forall i m p, i < n -> length (buf (body i m) p) = length (buf m p)) ->
  forall m p, length (buf (for_ n body m) p) = length (buf m p).
Proof.
  intros Hb m p. induction n as [|n IH]; simpl; [reflexivity|].
  rewrite Hb by lia. apply IH. intros i m' p' Hi. apply Hb. lia.
Qed.

Section RigidLid.
Context `{A : Arith}.
Variable cfg : config.
Variable e : env.

(** The four halo rows below the floor and above the lid. *)
Definition lid_row (r : nat) : Prop := r < hs \/ (nz e + hs <= r /\ r < nz e + 2 * hs).

(** The z-momentum of the array [p] is zero on those rows, in every
    column. *)
Definition rigid_lid (m : mem) (p : ptr) : Prop :=
  forall r i, lid_row r -> i < nx e + 2 * hs -> ld m p (sidx e ID_WMOM r i) = of_int 0.

(** A piece of code that keeps the block sizes and stores into no lid
    cell of a state array. *)
Definition lid_quiet (f : mem -> mem) : Prop :=
  forall m,
    (forall p, length (buf (f m) p) = length (buf m p)) /\
    (forall q r i, is_state q -> lid_row r -> i < nx e + 2 * hs ->
       ld (f m) q (sidx e ID_WMOM r i) = ld m q (sidx e ID_WMOM r i)).

Lemma lid_quiet_for (n : nat) (body : nat -> mem -> mem) :
  (forall i, i < n -> lid_quiet (body i)) -> lid_quiet (for_ n body).
Proof.
  intros Hb. induction n as [|n IH]; intros m; simpl.
  - split; reflexivity.
  - destruct (Hb n ltac:(lia) (for_ n body m)) as (L1 & F1).
    destruct (IH ltac:(intros i Hi; apply Hb; lia) m) as (L2 & F2).
    split.
    + intros p. rewrite L1. apply L2.
    + intros q r i Hq Hr Hi. rewrite F1 by auto. apply F2; auto.
Qed.

Lemma lid_quiet_seq (f g : mem -> mem) :
  lid_quiet f -> lid_quiet g -> lid_quiet (fun m => g (f m)).
Proof.
  intros Hf Hg m. destruct (Hf m) as (L1 & F1). destruct (Hg (f m)) as (L2 & F2). split.
  - intros p. rewrite L2. apply L1.
  - intros q r i Hq Hr Hi. rewrite F2 by auto. apply F1; auto.
Qed.

Lemma lid_quiet_id : lid_quiet (fun m => m).
Proof. intros m. split; reflexivity. Qed.

Lemma lid_quiet_keeps (f : mem -> mem) (m : mem) (q : ptr) :
  lid_quiet f -> is_state q -> rigid_lid m q -> rigid_lid (f m) q.
Proof.
  intros Hf Hq Hm r i Hr Hi. destruct (Hf m) as (_ & Fr). rewrite Fr by auto. apply Hm; auto.
Qed.

Lemma lid_quiet_wf (f : mem -> mem) (m : mem) : lid_quiet f -> wf e m -> wf e (f m).
Proof. intros Hf Hm p. destruct (Hf m) as (L & _). rewrite L. apply Hm. Qed.

(** A cell of an interior row is no lid cell. *)
Lemma lid_cell_ne (p q : ptr) ll k c r i :
  k < nz e -> c < nx e + 2 * hs -> lid_row r -> i < nx e + 2 * hs ->
  (p, sidx e ll (k + hs) c) <> (q, sidx e ID_WMOM r i).
Proof.
  intros Hk Hc Hr Hi Heq.
  assert (Hs : sidx e ll (k + hs) c = sidx e ID_WMOM r i) by congruence.
  apply sidx_inj in Hs as (_ & Hrow & _); unfold lid_row, hs in *; lia.
Qed.

Lemma not_state_ne (p q : ptr) : ~ is_state p -> is_state q -> forall i j : nat, (p, i) <> (q, j).
Proof. intros Hp Hq i j Heq. apply Hp. congruence. Qed.

Lemma halo_x_body_quiet (p : ptr) ll k : k < nz e -> lid_quiet (halo_x_body e p ll k).
Proof.
  intros Hk m. unfold halo_x_body. cbv zeta. split.
  - intros q. rewrite !length_buf_st. reflexivity.
  - intros q r i Hq Hr Hi.
    rewrite !ld_st_ne by (apply lid_cell_ne; auto; unfold hs; lia). reflexivity.
Qed.

Lemma injection_body_quiet (p : ptr) k i : k < nz e -> i < hs -> lid_quiet (injection_body cfg e p k i).
Proof.
  intros Hk Hi m. unfold injection_body. destruct (in_band cfg e k); [|apply lid_quiet_id].
  cbv zeta. split.
  - intros q. rewrite !length_buf_st. reflexivity.
  - intros q r j Hq Hr Hj.
    rewrite !ld_st_ne by (apply lid_cell_ne; auto; unfold hs in *; lia). reflexivity.
Qed.

(** [set_halo_values_x] stores into interior rows only. *)
Lemma set_halo_values_x_quiet (p : ptr) : lid_quiet (set_halo_values_x cfg e p).
Proof.
  unfold set_halo_values_x. cbv zeta.
  assert (H1 : lid_quiet (for_ NUM_VARS (fun ll => for_ (nz e) (fun k => halo_x_body e p ll k)))).
  { apply lid_quiet_for. intros ll _. apply lid_quiet_for. intros k Hk.
    apply halo_x_body_quiet. exact Hk. }
  assert (H2 : lid_quiet (for_ (nz e) (fun k => for_ hs (fun i => injection_body cfg e p k i)))).
  { apply lid_quiet_for. intros k Hk. apply lid_quiet_for. intros i Hi.
    apply injection_body_quiet; auto. }
  intros m.
  destruct (Z.eqb (data_spec_int cfg) DATA_SPEC_INJECTION); [|apply H1].
  destruct (Z.eqb (myrank e) 0); [|apply H1].
  apply (lid_quiet_seq _ _ H1 H2).
Qed.

Lemma flux_x_body_len state flux dt k i (m : mem) p :
  length (buf (flux_x_body cfg e state flux dt k i m) p) = length (buf m p).
Proof. unfold flux_x_body. cbv zeta. rewrite !length_buf_st. reflexivity. Qed.

Lemma flux_z_body_len state flux dt k i (m : mem) p :
  length (buf (flux_z_body cfg e state flux dt k i m) p) = length (buf m p).
Proof. unfold flux_z_body. cbv zeta. rewrite !length_buf_st. reflexivity. Qed.

Lemma tend_x_body_len flux tend ll k i (m : mem) p :
  length (buf (tend_x_body cfg e flux tend ll k i m) p) = length (buf m p).
Proof. unfold tend_x_body. rewrite !length_buf_st. reflexivity. Qed.

Lemma tend_z_body_len state flux tend ll k i (m : mem) p :
  length (buf (tend_z_body cfg e state flux tend ll k i m) p) = length (buf m p).
Proof.
  unfold tend_z_body. cbv zeta.
  destruct (Nat.eqb ll ID_WMOM); rewrite !length_buf_st; reflexivity.
Qed.

Lemma state_ne_flux_tend (q : ptr) : is_state q -> q <> Pflux /\ q <> Ptend.
Proof. intros [-> | ->]; split; discriminate. Qed.

(** The kernels store into the flux and tendency arrays only. *)
Lemma compute_tendencies_x_quiet (pf : ptr) (dt : F) :
  lid_quiet (compute_tendencies_x cfg e pf Pflux Ptend dt).
Proof.
  intros m. split.
  - intros p. unfold compute_tendencies_x. cbv zeta.
    rewrite for_len.
    + apply for_len. intros k m1 p1 _. apply for_len. intros i m2 p2 _. apply flux_x_body_len.
    + intros ll m1 p1 _. apply for_len. intros k m2 p2 _. apply for_len.
      intros i m3 p3 _. apply tend_x_body_len.
  - intros q r i Hq _ _. destruct (state_ne_flux_tend q Hq) as (Hf & Ht).
    unfold ld. rewrite compute_tendencies_x_frame by auto. reflexivity.
Qed.

Lemma compute_tendencies_z_quiet (pf : ptr) (dt : F) :
  lid_quiet (compute_tendencies_z cfg e pf Pflux Ptend dt).
Proof.
  intros m. split.
  - intros p. unfold compute_tendencies_z. cbv zeta.
    rewrite for_len.
    + apply for_len. intros k m1 p1 _. apply for_len. intros i m2 p2 _. apply flux_z_body_len.
    + intros ll m1 p1 _. apply for_len. intros k m2 p2 _. apply for_len.
      intros i m3 p3 _. apply tend_z_body_len.
  - intros q r i Hq _ _. destruct (state_ne_flux_tend q Hq) as (Hf & Ht).
    unfold ld. rewrite compute_tendencies_z_frame by auto. reflexivity.
Qed.

(** The update loop stores into interior cells and into the tendency
    array. *)
Lemma update_body_quiet (pi po : ptr) (dt : F) ll k i :
  k < nz e -> i < nx e -> lid_quiet (update_body cfg e pi po Ptend dt ll k i).
Proof.
  intros Hk Hi m. unfold update_body. cbv zeta. split.
  - intros p. destruct (Z.eqb (data_spec_int cfg) DATA_SPEC_GRAVITY_WAVES);
      rewrite !length_buf_st; reflexivity.
  - intros q r j Hq Hr Hj. destruct (state_ne_flux_tend q Hq) as (_ & Ht).
    rewrite ld_st_ne by (apply lid_cell_ne; auto; unfold hs; lia).
    destruct (Z.eqb (data_spec_int cfg) DATA_SPEC_GRAVITY_WAVES); [|reflexivity].
    apply ld_st_ne. congruence.
Qed.

Lemma update_loop_quiet (pi po : ptr) (dt : F) :
  lid_quiet (for_ NUM_VARS (fun ll => for_ (nz e) (fun k => for_ (nx e)
               (fun i => update_body cfg e pi po Ptend dt ll k i)))).
Proof.
  apply lid_quiet_for. intros ll _. apply lid_quiet_for. intros k Hk.
  apply lid_quiet_for. intros i Hi. apply update_body_quiet; auto.
Qed.

(** [set_halo_values_z] makes the lid of its array rigid and leaves the
    other array alone. *)
Lemma set_halo_values_z_rigid (p : ptr) (m : mem) :
  is_state p -> 1 <= nz e -> wf e m -> rigid_lid (set_halo_values_z e p m) p.
Proof.
  intros Hp Hnz Hm r i Hr Hi.
  rewrite (set_halo_values_z_read e p Hp Hnz m ID_WMOM r i Hm);
    auto; try (unfold ID_WMOM, NUM_VARS; lia); try (unfold lid_row, hs in *; lia).
  unfold halo_z_read.
  assert (Hb : ((r <? hs) || (nz e + hs <=? r)) = true).
  { destruct Hr as [Hr | (Hr & _)].
    - apply Nat.ltb_lt in Hr. rewrite Hr. reflexivity.
    - apply Nat.leb_le in Hr. rewrite Hr. apply orb_true_r. }
  rewrite Hb. reflexivity.
Qed.

Lemma set_halo_values_z_keeps (p q : ptr) (m : mem) :
  is_state p -> 1 <= nz e -> wf e m -> is_state q ->
  rigid_lid m q -> rigid_lid (set_halo_values_z e p m) q.
Proof.
  intros Hp Hnz Hm Hq Hl. destruct (decide (q = p)) as [-> | Hne].
  - apply set_halo_values_z_rigid; auto.
  - intros r i Hr Hi. unfold ld.
    rewrite (set_halo_values_z_frame e p Hp Hnz m q Hm Hne). apply Hl; auto.
Qed.

(** One stage keeps the block sizes and the rigid lids of both state
    arrays. *)
Lemma semi_discrete_step_lid (pi pf po : ptr) (dt : F) (dir : Z) (m : mem) :
  is_state pf -> 1 <= nz e -> wf e m ->
  rigid_lid m Pstate -> rigid_lid m Pstate_tmp ->
  let m' := semi_discrete_step cfg e pi pf po dt dir Pflux Ptend m in
  wf e m' /\ rigid_lid m' Pstate /\ rigid_lid m' Pstate_tmp.
Proof.
  intros Hpf Hnz Hm HS HT m'.
  assert (HqS : is_state Pstate) by (left; reflexivity).
  assert (HqT : is_state Pstate_tmp) by (right; reflexivity).
  set (m1 := if Z.eqb dir DIR_X then
               compute_tendencies_x cfg e pf Pflux Ptend dt (set_halo_values_x cfg e pf m)
             else if Z.eqb dir DIR_Z then
               compute_tendencies_z cfg e pf Pflux Ptend dt (set_halo_values_z e pf m)
             else m).
  assert (H1 : wf e m1 /\ rigid_lid m1 Pstate /\ rigid_lid m1 Pstate_tmp).
  { unfold m1. destruct (Z.eqb dir DIR_X).
    - pose proof (lid_quiet_seq _ _ (set_halo_values_x_quiet pf)
                    (compute_tendencies_x_quiet pf dt)) as Hq.
      split; [apply (lid_quiet_wf _ m Hq Hm)|].
      split; apply (lid_quiet_keeps _ m _ Hq); auto.
    - destruct (Z.eqb dir DIR_Z); [|auto].
      pose proof (set_halo_values_z_wf e pf Hpf Hnz m Hm) as Hw.
      split; [apply (lid_quiet_wf _ _ (compute_tendencies_z_quiet pf dt) Hw)|].
      split; apply (lid_quiet_keeps _ _ _ (compute_tendencies_z_quiet pf dt)); auto;
        apply set_halo_values_z_keeps; auto. }
  destruct H1 as (Hw1 & HS1 & HT1).
  change m' with (for_ NUM_VARS (fun ll => for_ (nz e) (fun k => for_ (nx e)
                    (fun i => update_body cfg e pi po Ptend dt ll k i))) m1).
  split; [apply (lid_quiet_wf _ _ (update_loop_quiet pi po dt) Hw1)|].
  split; apply (lid_quiet_keeps _ _ _ (update_loop_quiet pi po dt)); auto.
Qed.

End RigidLid.

(** The heap of [init], over the exact reals: every scenario has no
    vertical wind, so the z-momentum of every cell, halo cells included,
    starts at zero. *)
Section InitLid.
Variable cfg : @config exact.
Variable junk : R.
Hypothesis Hknown : known_data_spec (data_spec_int cfg).

Local Abbreviation e0 := (init_env cfg junk).
#[local] Arguments st : simpl never.
#[local] Arguments ld : simpl never.
#[local] Arguments sidx : simpl never.

Lemma scenario_w (x z : R) (loc : @sample exact) : s_w (scenario cfg x z loc) = 0%R.
Proof using Hknown.
  unfold scenario.
  destruct Hknown as [H | [H | [H | [H | H]]]]; rewrite H; cbn [Z.eqb DATA_SPEC_COLLISION
    DATA_SPEC_THERMAL DATA_SPEC_GRAVITY_WAVES DATA_SPEC_DENSITY_CURRENT DATA_SPEC_INJECTION
    Pos.eqb].
  - unfold collision. destruct (@hydro_const_theta exact z). reflexivity.
  - unfold thermal. destruct (@hydro_const_theta exact z). reflexivity.
  - unfold gravity_waves. destruct (@hydro_const_bvfreq exact z _). reflexivity.
  - unfold density_current. destruct (@hydro_const_theta exact z). reflexivity.
  - unfold injection. destruct (@hydro_const_theta exact z). reflexivity.
Qed.

(** The sizes of the two state arrays, all a cell of [init] needs. *)
Definition state_sized (m : @mem exact) : Prop :=
  forall q, is_state q -> length (buf m q) = block_size e0 q.

Lemma var_ne k i ll ll' :
  k < nz e0 + 2 * hs -> i < nx e0 + 2 * hs -> ll <> ll' ->
  forall p q : ptr, (p, sidx e0 ll k i) <> (q, sidx e0 ll' k i).
Proof using Type.
  intros Hk Hi Hne p q Heq.
  assert (Hs : sidx e0 ll k i = sidx e0 ll' k i) by congruence.
  apply sidx_inj in Hs as (Hl & _); auto.
Qed.

Lemma init_quad_body_w k i kk ii (s : mem * sample) :
  k < nz e0 + 2 * hs -> i < nx e0 + 2 * hs ->
  state_sized (fst s) -> ld (fst s) Pstate (sidx e0 ID_WMOM k i) = 0%R ->
  state_sized (fst (init_quad_body cfg e0 k i kk ii s)) /\
  ld (fst (init_quad_body cfg e0 k i kk ii s)) Pstate (sidx e0 ID_WMOM k i) = 0%R.
Proof using Hknown.
  intros Hk Hi Hsz H0. destruct s as [m loc]. cbn [fst] in Hsz, H0.
  unfold init_quad_body. cbv zeta.
  match goal with |- context [scenario cfg ?x ?z loc] =>
    pose proof (scenario_w x z loc) as Hw; destruct (scenario cfg x z loc) as [r u w t hr ht]
  end.
  simpl in Hw. subst w. simpl fst. split.
  - intros q Hq. rewrite !length_buf_st. apply Hsz. exact Hq.
  - rewrite ld_st_ne by (apply var_ne; auto; discriminate).
    rewrite ld_st_eq.
    + rewrite !ld_st_ne by (apply var_ne; auto; discriminate).
      rewrite H0. simpl. ring.
    + rewrite !length_buf_st. rewrite (Hsz Pstate) by (left; reflexivity).
      apply sidx_lt; auto; [left; reflexivity | unfold ID_WMOM, NUM_VARS; lia].
Qed.

Lemma init_cell_body_w k i (s : mem * sample) :
  k < nz e0 + 2 * hs -> i < nx e0 + 2 * hs -> state_sized (fst s) ->
  forall q, is_state q -> ld (fst (init_cell_body cfg e0 k i s)) q (sidx e0 ID_WMOM k i) = 0%R.
Proof using Hknown.
  intros Hk Hi Hsz. destruct s as [m loc]. cbn [fst] in Hsz. unfold init_cell_body.
  assert (HW : sidx e0 ID_WMOM k i < block_size e0 Pstate).
  { apply sidx_lt; auto; [left; reflexivity | unfold ID_WMOM, NUM_VARS; lia]. }
  set (m1 := for_ NUM_VARS (fun ll m => st m Pstate (sidx e0 ll k i) (of_int 0)) m).
  assert (H1 : state_sized m1 /\ ld m1 Pstate (sidx e0 ID_WMOM k i) = 0%R).
  { unfold m1, NUM_VARS. cbn [for_]. split.
    - intros q Hq. rewrite !length_buf_st. apply Hsz. exact Hq.
    - rewrite (ld_st_ne _ _ (sidx e0 3 k i)) by (apply var_ne; auto; discriminate).
      apply (@ld_st_eq exact). rewrite !length_buf_st. rewrite (Hsz Pstate) by (left; reflexivity).
      exact HW. }
  assert (H2 : let s2 := for_ nqpoints (fun kk => for_ nqpoints
                         (fun ii => init_quad_body cfg e0 k i kk ii)) (m1, loc) in
               state_sized (fst s2) /\ ld (fst s2) Pstate (sidx e0 ID_WMOM k i) = 0%R).
  { cbv zeta.
    apply (for_inv (fun s => state_sized (fst s)
                             /\ ld (fst s) Pstate (sidx e0 ID_WMOM k i) = 0%R)); [exact H1|].
    intros kk s1 _ Hs1.
    apply (for_inv (fun s => state_sized (fst s)
                             /\ ld (fst s) Pstate (sidx e0 ID_WMOM k i) = 0%R)); [exact Hs1|].
    intros ii s2 _ (Hs2 & Hz2). apply init_quad_body_w; auto. }
  cbv zeta in H2.
  destruct (for_ nqpoints _ (m1, loc)) as [m2 loc2]. cbn [fst] in H2.
  destruct H2 as (Hsz2 & Hz2).
  unfold NUM_VARS. cbn [for_ fst].
  assert (HT : forall j j' : nat, (Pstate_tmp, j) <> (Pstate, j'))
    by (intros j j' Heq; discriminate).
  change (sidx e0 2 k i) with (sidx e0 ID_WMOM k i).
  intros q [-> | ->].
  - rewrite !ld_st_ne by apply HT. exact Hz2.
  - rewrite (ld_st_ne _ _ (sidx e0 3 k i)) by (apply var_ne; auto; discriminate).
    rewrite (@ld_st_eq exact).
    + rewrite !ld_st_ne by apply HT. exact Hz2.
    + rewrite !length_buf_st. rewrite (Hsz2 Pstate_tmp) by (right; reflexivity).
      exact HW.
Qed.

(** A cell of [init] leaves the other cells alone. *)
Lemma init_cell_body_other k i k' i' (s : mem * sample) q ll :
  k < nz e0 + 2 * hs -> i < nx e0 + 2 * hs ->
  k' < nz e0 + 2 * hs -> i' < nx e0 + 2 * hs -> (k', i') <> (k, i) ->
  ld (fst (init_cell_body cfg e0 k i s)) q (sidx e0 ll k' i') = ld (fst s) q (sidx e0 ll k' i').
Proof using Type.
  intros Hk Hi Hk' Hi' Hne.
  destruct (init_cell_body_off cfg junk k i s) as (_ & Hf). apply Hf.
  intros (l2 & _ & Heq). apply sidx_inj in Heq as (_ & -> & ->); auto.
Qed.

Lemma init_cell_body_sized k i (s : mem * sample) :
  state_sized (fst s) -> state_sized (fst (init_cell_body cfg e0 k i s)).
Proof using Type.
  intros Hsz q Hq. destruct (init_cell_body_off cfg junk k i s) as (Hl & _).
  rewrite Hl. apply Hsz. exact Hq.
Qed.

Lemma init_state_loop_w (junk_loc : @sample exact) q k i :
  is_state q -> k < nz e0 + 2 * hs -> i < nx e0 + 2 * hs ->
  ld (fst (init_state_loop cfg junk junk_loc)) q (sidx e0 ID_WMOM k i) = 0%R.
Proof using Hknown.
  intros Hq Hk Hi. unfold init_state_loop.
  set (rows_done := fun (n : nat) (s : @mem exact * @sample exact) =>
         state_sized (fst s) /\
         forall k' i', k' < n -> k' < nz e0 + 2 * hs -> i' < nx e0 + 2 * hs ->
           ld (fst s) q (sidx e0 ID_WMOM k' i') = 0%R).
  assert (Hall : rows_done (nz e0 + 2 * hs)
            (for_ (nz e0 + 2 * hs)
               (fun k => for_ (nx e0 + 2 * hs) (fun i => init_cell_body cfg e0 k i))
               (init_mem cfg junk, junk_loc))).
  { apply (for_inv_idx rows_done).
    - split; [|intros; lia].
      intros p Hp. unfold init_mem, block_size, NUM_VARS, hs. simpl.
      destruct Hp as [-> | ->]; simpl; rewrite length_replicate; lia.
    - intros kr s1 Hkr (Hsz1 & Hz1).
      set (cols_done := fun (n : nat) (s : @mem exact * @sample exact) =>
             state_sized (fst s) /\
             (forall k' i', k' < kr -> k' < nz e0 + 2 * hs -> i' < nx e0 + 2 * hs ->
                ld (fst s) q (sidx e0 ID_WMOM k' i') = 0%R) /\
             (forall i', i' < n -> i' < nx e0 + 2 * hs ->
                ld (fst s) q (sidx e0 ID_WMOM kr i') = 0%R)).
      assert (Hrow : cols_done (nx e0 + 2 * hs)
                (for_ (nx e0 + 2 * hs) (fun i => init_cell_body cfg e0 kr i) s1)).
      { apply (for_inv_idx cols_done).
        - split; [exact Hsz1|]. split; [exact Hz1|]. intros; lia.
        - intros ic s2 Hic (Hsz2 & Hz2 & Hc2).
          split; [apply init_cell_body_sized; exact Hsz2|]. split.
          + intros k' i' Hk' Hk'' Hi'.
            rewrite init_cell_body_other; auto. intros Heq. injection Heq as -> ->. lia.
          + intros i' Hi' Hi''. destruct (decide (i' = ic)) as [-> | Hne].
            * apply init_cell_body_w; auto.
            * rewrite init_cell_body_other; auto; [apply Hc2; lia|].
              intros Heq. injection Heq as ->. contradiction. }
      destruct Hrow as (Hsz3 & Hz3 & Hc3). split; [exact Hsz3|].
      intros k' i' Hk' Hk'' Hi'. destruct (decide (k' = kr)) as [-> | Hne].
      + apply Hc3; auto.
      + apply Hz3; auto. lia. }
  destruct Hall as (_ & Hz). apply Hz; auto.
Qed.

End InitLid.

Lemma init_rigid_lid (cfg : @config exact) (junk : R) (junk_loc : @sample exact) (q : ptr) :
  known_data_spec (data_spec_int cfg) -> is_state q ->
  rigid_lid (g_env (init cfg junk junk_loc)) (g_mem (init cfg junk junk_loc)) q.
Proof.
  intros Hk Hq r i. unfold lid_row. rewrite init_unfold. cbv zeta. cbn [g_env g_mem nz nx].
  intros Hr Hi.
  apply (init_state_loop_w cfg junk Hk junk_loc q r i Hq).
  - unfold hs in *. simpl in *. lia.
  - exact Hi.
Qed.

(** The heaps on which a run calls a stage: the heap of [init], and the
    heap any stage leaves. *)
Inductive reachable (cfg : @config exact) (junk : R) (junk_loc : @sample exact) :
    @mem exact -> Prop :=
  | reach_init : reachable cfg junk junk_loc (g_mem (init cfg junk junk_loc))
  | reach_stage (m : mem) (pi pf po : ptr) (dt : R) (dir : Z) :
      reachable cfg junk junk_loc m -> is_state pi -> is_state pf -> is_state po ->
      reachable cfg junk junk_loc
        (semi_discrete_step cfg (g_env (init cfg junk junk_loc)) pi pf po dt dir
           Pflux Ptend m).

(** Every step of the time loop stays among them. *)
Lemma perform_timestep_reachable (cfg : @config exact) (junk : R) (junk_loc : @sample exact)
    (dt : R) (m : mem) (sw : Z) :
  reachable cfg junk junk_loc m ->
  reachable cfg junk junk_loc
    (fst (perform_timestep cfg (g_env (init cfg junk junk_loc)) Pstate Pstate_tmp Pflux Ptend
            dt (m, sw))).
Proof.
  intros Hm.
  assert (HS : is_state Pstate) by (left; reflexivity).
  assert (HT : is_state Pstate_tmp) by (right; reflexivity).
  unfold perform_timestep. destruct (negb (Z.eqb sw 0)); cbn [fst];
    repeat (apply reach_stage; auto).
Qed.

Lemma reachable_rigid_lid (cfg : @config exact) (junk : R) (junk_loc : @sample exact) (m : mem) :
  known_data_spec (data_spec_int cfg) -> 1 <= nz_glob cfg ->
  reachable cfg junk junk_loc m ->
  let e := g_env (init cfg junk junk_loc) in
  wf e m /\ rigid_lid e m Pstate /\ rigid_lid e m Pstate_tmp.
Proof.
  intros Hk Hnz Hr e. induction Hr as [|m pi pf po dt dir Hr IH Hpi Hpf Hpo].
  - split; [apply init_wf|].
    split; apply init_rigid_lid; auto; [left | right]; reflexivity.
  - destruct IH as (Hw & HS & HT).
    apply semi_discrete_step_lid; auto.
    unfold e. rewrite init_nz. exact Hnz.
Qed.

(** In a run of a known scenario over the exact reals, on a grid with at
    least one row, the lid rows of both state arrays hold zeros on every
    heap the run reaches, and so after [set_halo_values_x] as well as
    after [set_halo_values_z]. *)
Lemma run_keeps_lid_zero
    (cfg : @config exact) (junk : R) (junk_loc : @sample exact) (m : @mem exact) (p : ptr) :
  known_data_spec (data_spec_int cfg) -> 1 <= nz_glob cfg ->
  reachable cfg junk junk_loc m -> is_state p ->
  let e := g_env (init cfg junk junk_loc) in
  (forall r i, lid_row e r -> i < nx e + 2 * hs ->
     ld (set_halo_values_x cfg e p m) p (sidx e ID_WMOM r i) = 0%R) /\
  (forall r i, lid_row e r -> i < nx e + 2 * hs ->
     ld (set_halo_values_z e p m) p (sidx e ID_WMOM r i) = 0%R).
Proof.
  intros Hk Hnz Hr Hp e.
  destruct (reachable_rigid_lid cfg junk junk_loc m Hk Hnz Hr) as (Hw & HS & HT).
  fold e in Hw, HS, HT.
  assert (Hl : rigid_lid e m p) by (destruct Hp as [-> | ->]; assumption).
  split.
  - apply (lid_quiet_keeps e _ m p (set_halo_values_x_quiet cfg e p) Hp Hl).
  - apply (set_halo_values_z_rigid e p m Hp); auto.
    unfold e. rewrite init_nz. exact Hnz.
Qed.

(** A heap whose z-momentum is one in a cell of the lid: row 1, column 3
    of [state]. *)
Definition dirty_lid_mem : @mem exact :=
  st demo_mem Pstate (sidx demo_env ID_WMOM 1 3) 1%R.

Lemma dirty_lid_wf : wf demo_env dirty_lid_mem.
Proof. intros q. unfold dirty_lid_mem. rewrite length_buf_st. apply demo_wf. Qed.

Lemma dirty_lid_cell : ld dirty_lid_mem Pstate (sidx demo_env ID_WMOM 1 3) = 1%R.
Proof.
  unfold dirty_lid_mem. apply ld_st_eq.
  change (length (buf demo_mem Pstate)) with (length (replicate 192 0%R)).
  rewrite length_replicate. vm_compute. lia.
Qed.

(** C9, as stated, fails for [set_halo_values_x]: it stores into interior
    rows only, so a z-momentum of one on the lid is still one after the
    call. *)
Lemma set_halo_values_x_leaves_lid_dirty :
  ld (set_halo_values_x (demo_cfg 2) demo_env Pstate dirty_lid_mem) Pstate
     (sidx demo_env ID_WMOM 1 3) <> 0%R.
Proof.
  destruct (set_halo_values_x_quiet (demo_cfg 2) demo_env Pstate dirty_lid_mem) as (_ & Hfr).
  rewrite Hfr.
  - rewrite dirty_lid_cell. lra.
  - left; reflexivity.
  - left. unfold hs. lia.
  - simpl. lia.
Qed.

(** C9, amended. [set_halo_values_z] stores zero in the z-momentum of its
    array on rows 0, 1, nz+hs and nz+hs+1, in every column, whatever the
    heap held; [set_halo_values_x] stores into none of these cells of
    either state array, which hold after the call what they held
    before. *)
Theorem z_halo_zeroes_lid_and_x_halo_keeps_it `{A : Arith}
    (cfg : config) (e : env) (p q : ptr) (m : mem) (r i : nat) :
  is_state p -> is_state q -> 1 <= nz e -> wf e m ->
  lid_row e r -> i < nx e + 2 * hs ->
  ld (set_halo_values_z e p m) p (sidx e ID_WMOM r i) = of_int 0 /\
  ld (set_halo_values_x cfg e p m) q (sidx e ID_WMOM r i) = ld m q (sidx e ID_WMOM r i).
Proof.
  intros Hp Hq Hnz Hm Hr Hi. split.
  - apply (set_halo_values_z_rigid e p m Hp Hnz Hm r i Hr Hi).
  - destruct (set_halo_values_x_quiet cfg e p m) as (_ & Hfr). apply Hfr; auto.
Qed.

Lemma z_halo_zeroes_lid_and_x_halo_keeps_it_witness :
  ld (set_halo_values_z demo_env Pstate dirty_lid_mem) Pstate (sidx demo_env ID_WMOM 1 3) = 0%R /\
  ld (set_halo_values_x (demo_cfg 2) demo_env Pstate dirty_lid_mem) Pstate
     (sidx demo_env ID_WMOM 1 3)
  = ld dirty_lid_mem Pstate (sidx demo_env ID_WMOM 1 3).
Proof.
  apply (z_halo_zeroes_lid_and_x_halo_keeps_it (demo_cfg 2) demo_env Pstate Pstate
           dirty_lid_mem 1 3).
  - left; reflexivity.
  - left; reflexivity.
  - simpl; lia.
  - exact dirty_lid_wf.
  - left. unfold hs. lia.
  - simpl; lia.
Defined.

(** ** The hydrostatic profiles of [init] *)

Section InitHydro.
Context `{A : Arith}.
Variable cfg : config.
Variable junk : F.
Variable junk_loc : sample.
Hypothesis Hknown : known_data_spec (data_spec_int cfg).

Local Abbreviation e0 := (init_env cfg junk).

(** A known scenario overwrites all six locals. *)
Lemma scenario_known (x z : F) (loc loc' : sample) :
  scenario cfg x z loc = scenario cfg x z loc'.
Proof.
  unfold scenario. destruct Hknown as [H | [H | [H | [H | H]]]]; rewrite H; reflexivity.
Qed.

(** The height at which the cell loop samples row [k]: the centre of the
    cell, whatever the quadrature index. *)
Definition hy_cell_z (k : nat) : F :=
  fmul (fadd (of_int (Z.of_nat (k_beg e0) + Z.of_nat k - Z.of_nat hs)) (dec 5 (-1))) (dz cfg).

Definition hy_cell_sample (k : nat) : sample := scenario cfg (of_int 0) (hy_cell_z k) junk_loc.

(** Three weighted copies of one value. *)
Definition three_times (v : F) : F :=
  fadd (fadd (fadd (of_int 0) (fmul v (at_ qweights 0))) (fmul v (at_ qweights 1)))
       (fmul v (at_ qweights 2)).

Lemma hy_cell_body_known k kk (h : hydro) (loc : sample) :
  hy_cell_body cfg e0 k kk (h, loc) =
  (Hydro (<[k := fadd (at_ (h_dens_cell h) k)
                      (fmul (s_hr (hy_cell_sample k)) (at_ qweights kk))]> (h_dens_cell h))
         (<[k := fadd (at_ (h_dens_theta_cell h) k)
                      (fmul (fmul (s_hr (hy_cell_sample k)) (s_ht (hy_cell_sample k)))
                            (at_ qweights kk))]> (h_dens_theta_cell h))
         (h_dens_int h) (h_dens_theta_int h) (h_pressure_int h),
   hy_cell_sample k).
Proof.
  unfold hy_cell_body. cbv zeta. cbn [h_dens_cell h_dens_theta_cell h_dens_int
    h_dens_theta_int h_pressure_int].
  rewrite (scenario_known _ _ loc junk_loc). reflexivity.
Qed.

Lemma at_insert_eq (l : list F) (k : nat) (v : F) : k < length l -> at_ (<[k:=v]> l) k = v.
Proof. intros Hk. unfold at_. apply nth_insert_eq. exact Hk. Qed.

Lemma at_insert_ne (l : list F) (k j : nat) (v : F) : k <> j -> at_ (<[k:=v]> l) j = at_ l j.
Proof. intros Hk. unfold at_. apply nth_insert_ne. exact Hk. Qed.

(** What one row of the cell loop does to the two cell profiles. *)
Lemma hy_cell_row_spec k (s : hydro * sample) (n : nat) :
  length (h_dens_cell (fst s)) = n -> length (h_dens_theta_cell (fst s)) = n -> k < n ->
  let s' := hy_cell_row cfg e0 k s in
  length (h_dens_cell (fst s')) = n /\ length (h_dens_theta_cell (fst s')) = n /\
  at_ (h_dens_cell (fst s')) k = three_times (s_hr (hy_cell_sample k)) /\
  at_ (h_dens_theta_cell (fst s')) k
    = three_times (fmul (s_hr (hy_cell_sample k)) (s_ht (hy_cell_sample k))) /\
  (forall j, j <> k ->
     at_ (h_dens_cell (fst s')) j = at_ (h_dens_cell (fst s)) j /\
     at_ (h_dens_theta_cell (fst s')) j = at_ (h_dens_theta_cell (fst s)) j).
Proof.
  destruct s as [h loc]. cbn [fst]. intros L1 L2 Hk.
  unfold hy_cell_row, nqpoints. cbn [for_].
  rewrite !hy_cell_body_known.
  cbn [fst h_dens_cell h_dens_theta_cell h_dens_int h_dens_theta_int h_pressure_int].
  repeat split.
  - rewrite !length_insert. exact L1.
  - rewrite !length_insert. exact L2.
  - unfold three_times.
    rewrite !at_insert_eq by (rewrite ?length_insert; lia). reflexivity.
  - unfold three_times.
    rewrite !at_insert_eq by (rewrite ?length_insert; lia). reflexivity.
  - rewrite !at_insert_ne by auto. reflexivity.
  - rewrite !at_insert_ne by auto. reflexivity.
Qed.

Lemma hy_int_body_cells k (s : hydro * sample) :
  h_dens_cell (fst (hy_int_body cfg e0 k s)) = h_dens_cell (fst s) /\
  h_dens_theta_cell (fst (hy_int_body cfg e0 k s)) = h_dens_theta_cell (fst s).
Proof. destruct s as [h loc]. split; reflexivity. Qed.

(** The two cell profiles [init] leaves. *)
Lemma init_hy_cells k :
  k < nz_glob cfg + 2 * hs ->
  at_ (hy_dens_cell (g_env (init cfg junk junk_loc))) k
    = three_times (s_hr (hy_cell_sample k)) /\
  at_ (hy_dens_theta_cell (g_env (init cfg junk junk_loc))) k
    = three_times (fmul (s_hr (hy_cell_sample k)) (s_ht (hy_cell_sample k))).
Proof.
  intros Hk. rewrite init_unfold. cbv zeta. cbn [g_env hy_dens_cell hy_dens_theta_cell].
  unfold init_hydro_loops. cbv zeta.
  set (n := nz_glob cfg + 2 * hs).
  set (rows_done := fun (c : nat) (s : hydro * sample) =>
         length (h_dens_cell (fst s)) = n /\ length (h_dens_theta_cell (fst s)) = n /\
         forall j, j < c -> j < n ->
           at_ (h_dens_cell (fst s)) j = three_times (s_hr (hy_cell_sample j)) /\
           at_ (h_dens_theta_cell (fst s)) j
             = three_times (fmul (s_hr (hy_cell_sample j)) (s_ht (hy_cell_sample j)))).
  match goal with |- context [for_ (nz e0 + 1) _ ?s0] => set (s1 := s0) end.
  assert (H1 : rows_done n s1).
  { unfold s1. change (nz e0 + 2 * hs) with n.
    apply (for_inv_idx rows_done).
    - unfold rows_done. cbn [fst h_dens_cell h_dens_theta_cell hy_dens_cell hy_dens_theta_cell
                             init_env].
      rewrite !length_replicate. fold n. split; [reflexivity|]. split; [reflexivity|].
      intros; lia.
    - intros c s Hc (L1 & L2 & Hz).
      destruct (hy_cell_row_spec c s n L1 L2 Hc) as (L1' & L2' & Hd & Ht & Hf).
      split; [exact L1'|]. split; [exact L2'|].
      intros j Hj Hjn. destruct (decide (j = c)) as [-> | Hne].
      + split; assumption.
      + destruct (Hf j Hne) as (Hf1 & Hf2). rewrite Hf1, Hf2. apply Hz; lia. }
  assert (H2 : h_dens_cell (fst (for_ (nz e0 + 1) (fun k => hy_int_body cfg e0 k) s1))
               = h_dens_cell (fst s1) /\
               h_dens_theta_cell (fst (for_ (nz e0 + 1) (fun k => hy_int_body cfg e0 k) s1))
               = h_dens_theta_cell (fst s1)).
  { apply (for_inv (fun s => h_dens_cell (fst s) = h_dens_cell (fst s1) /\
                             h_dens_theta_cell (fst s) = h_dens_theta_cell (fst s1)));
      [split; reflexivity|].
    intros i s _ (E1 & E2). destruct (hy_int_body_cells i s) as (E3 & E4).
    rewrite E3, E4. auto. }
  destruct H2 as (E1 & E2). rewrite E1, E2.
  destruct H1 as (_ & _ & Hz). apply Hz; unfold n; lia.
Qed.

End InitHydro.

(** C3. What [init] stores in [hy_dens_cell[k]] and
    [hy_dens_theta_cell[k]] for a known scenario: the scenario's [hr], and
    [hr*ht], sampled three times at the one height
    [z = (k_beg + k - hs + 0.5)*dz], the centre of the cell, and summed
    with the three weights.  No quadrature point enters. *)
Theorem hydrostatic_cell_average_samples_cell_centre `{A : Arith}
    (cfg : config) (junk : F) (junk_loc : sample) (k : nat) :
  known_data_spec (data_spec_int cfg) -> k < nz_glob cfg + 2 * hs ->
  let e := g_env (init cfg junk junk_loc) in
  let z := fmul (fadd (of_int (Z.of_nat 0 + Z.of_nat k - Z.of_nat hs)) (dec 5 (-1))) (dz cfg) in
  let hr := s_hr (scenario cfg (of_int 0) z junk_loc) in
  let ht := s_ht (scenario cfg (of_int 0) z junk_loc) in
  at_ (hy_dens_cell e) k
    = fadd (fadd (fadd (of_int 0) (fmul hr (at_ qweights 0))) (fmul hr (at_ qweights 1)))
           (fmul hr (at_ qweights 2)) /\
  at_ (hy_dens_theta_cell e) k
    = fadd (fadd (fadd (of_int 0) (fmul (fmul hr ht) (at_ qweights 0)))
                 (fmul (fmul hr ht) (at_ qweights 1)))
           (fmul (fmul hr ht) (at_ qweights 2)).
Proof.
  intros Hk Hlt. cbv zeta. apply (init_hy_cells cfg junk junk_loc Hk k Hlt).
Qed.

Lemma hydrostatic_cell_average_samples_cell_centre_witness :
  let cfg := demo_cfg 2 in
  let e := g_env (init cfg 0%R (Sample exact 0 0 0 0 0 0)%R) in
  let z := (((IZR (Z.of_nat 0 + Z.of_nat 2 - Z.of_nat hs)) + Rdec 5 (-1)) * dz cfg)%R in
  let hr := s_hr (scenario cfg 0%R z (Sample exact 0 0 0 0 0 0)%R) in
  let ht := s_ht (scenario cfg 0%R z (Sample exact 0 0 0 0 0 0)%R) in
  at_ (hy_dens_cell e) 2
    = (((0 + hr * at_ qweights 0) + hr * at_ qweights 1) + hr * at_ qweights 2)%R /\
  at_ (hy_dens_theta_cell e) 2
    = (((0 + (hr * ht) * at_ qweights 0) + (hr * ht) * at_ qweights 1)
       + (hr * ht) * at_ qweights 2)%R.
Proof.
  apply (hydrostatic_cell_average_samples_cell_centre (demo_cfg 2) 0%R
           (Sample exact 0 0 0 0 0 0)%R 2).
  - right; left; reflexivity.
  - simpl; lia.
Defined.
(** ** Code that stores into no interior cell *)

Section InteriorFrame.
Context `{A : Arith}.
Variable cfg : config.
Variable e : env.

(** A piece of code that keeps the block sizes and stores into no
    interior cell of a state array. *)
Definition int_quiet (f : mem -> mem) : Prop :=
  forall m,
    (forall p, length (buf (f m) p) = length (buf m p)) /\
    (forall q ll k i, is_state q -> ll < NUM_VARS -> k < nz e -> i < nx e ->
       interior e (f m) q ll k i = interior e m q ll k i).

Lemma int_quiet_for (n : nat) (body : nat -> mem -> mem) :
  (forall i, i < n -> int_quiet (body i)) -> int_quiet (for_ n body).
Proof.
  intros Hb. induction n as [|n IH]; intros m; simpl.
  - split; reflexivity.
  - destruct (Hb n ltac:(lia) (for_ n body m)) as (L1 & F1).
    destruct (IH ltac:(intros i Hi; apply Hb; lia) m) as (L2 & F2).
    split.
    + intros p. rewrite L1. apply L2.
    + intros q ll k i Hq Hl Hk Hi. rewrite F1 by auto. apply F2; auto.
Qed.

Lemma int_quiet_seq (f g : mem -> mem) :
  int_quiet f -> int_quiet g -> int_quiet (fun m => g (f m)).
Proof.
  intros Hf Hg m. destruct (Hf m) as (L1 & F1). destruct (Hg (f m)) as (L2 & F2). split.
  - intros p. rewrite L2. apply L1.
  - intros q ll k i Hq Hl Hk Hi. rewrite F2 by auto. apply F1; auto.
Qed.

Lemma int_quiet_id : int_quiet (fun m => m).
Proof. intros m. split; reflexivity. Qed.

(** A halo column is no interior column, and a halo row no interior row. *)
Lemma halo_col_ne (p q : ptr) ll' r c ll k i :
  r < nz e + 2 * hs -> c < hs \/ nx e + hs <= c -> c < nx e + 2 * hs ->
  k < nz e -> i < nx e ->
  (p, sidx e ll' r c) <> (q, sidx e ll (k + hs) (i + hs)).
Proof.
  intros Hr Hc Hc' Hk Hi Heq.
  assert (Hs : sidx e ll' r c = sidx e ll (k + hs) (i + hs)) by congruence.
  apply sidx_inj in Hs as (_ & _ & Hcol); unfold hs in *; lia.
Qed.

Lemma halo_row_ne (p q : ptr) ll' r c ll k i :
  lid_row e r -> c < nx e + 2 * hs -> k < nz e -> i < nx e ->
  (p, sidx e ll' r c) <> (q, sidx e ll (k + hs) (i + hs)).
Proof.
  intros Hr Hc Hk Hi Heq.
  assert (Hs : sidx e ll' r c = sidx e ll (k + hs) (i + hs)) by congruence.
  apply sidx_inj in Hs as (_ & Hrow & _); unfold lid_row, hs in *; lia.
Qed.

Lemma halo_x_body_int_quiet (p : ptr) ll k : k < nz e -> int_quiet (halo_x_body e p ll k).
Proof.
  intros Hk m. unfold halo_x_body. cbv zeta. split.
  - intros q. rewrite !length_buf_st. reflexivity.
  - intros q l2 k2 i2 Hq Hl Hk2 Hi2. unfold interior.
    rewrite !ld_st_ne by (apply halo_col_ne; auto; unfold hs; lia). reflexivity.
Qed.

Lemma injection_body_int_quiet (p : ptr) k i :
  k < nz e -> i < hs -> int_quiet (injection_body cfg e p k i).
Proof.
  intros Hk Hi m. unfold injection_body. destruct (in_band cfg e k); [|apply int_quiet_id].
  cbv zeta. split.
  - intros q. rewrite !length_buf_st. reflexivity.
  - intros q l2 k2 i2 Hq Hl Hk2 Hi2. unfold interior.
    rewrite !ld_st_ne by (apply halo_col_ne; auto; unfold hs in *; lia). reflexivity.
Qed.

Lemma set_halo_values_x_int_quiet (p : ptr) : int_quiet (set_halo_values_x cfg e p).
Proof.
  unfold set_halo_values_x. cbv zeta.
  assert (H1 : int_quiet (for_ NUM_VARS (fun ll => for_ (nz e) (fun k => halo_x_body e p ll k)))).
  { apply int_quiet_for. intros ll _. apply int_quiet_for. intros k Hk.
    apply halo_x_body_int_quiet. exact Hk. }
  assert (H2 : int_quiet (for_ (nz e) (fun k => for_ hs (fun i => injection_body cfg e p k i)))).
  { apply int_quiet_for. intros k Hk. apply int_quiet_for. intros i Hi.
    apply injection_body_int_quiet; auto. }
  intros m.
  destruct (Z.eqb (data_spec_int cfg) DATA_SPEC_INJECTION); [|apply H1].
  destruct (Z.eqb (myrank e) 0); [|apply H1].
  apply (int_quiet_seq _ _ H1 H2).
Qed.

Lemma halo_z_body_int_quiet (p : ptr) ll i : i < nx e + 2 * hs -> int_quiet (halo_z_body e p ll i).
Proof.
  intros Hi m. unfold halo_z_body.
  destruct (Nat.eqb ll ID_WMOM); [|destruct (Nat.eqb ll ID_UMOM)]; cbv zeta; (split;
    [ intros q; rewrite !length_buf_st; reflexivity
    | intros q l2 k2 i2 Hq Hl Hk2 Hi2; unfold interior;
      rewrite !ld_st_ne by (apply halo_row_ne; auto; unfold lid_row, hs; lia);
      reflexivity ]).
Qed.

Lemma set_halo_values_z_int_quiet (p : ptr) : int_quiet (set_halo_values_z e p).
Proof.
  unfold set_halo_values_z. apply int_quiet_for. intros ll _. apply int_quiet_for.
  intros i Hi. apply halo_z_body_int_quiet. exact Hi.
Qed.

Lemma compute_tendencies_x_int_quiet (pf : ptr) (dt : F) :
  int_quiet (compute_tendencies_x cfg e pf Pflux Ptend dt).
Proof.
  intros m. destruct (compute_tendencies_x_quiet cfg e pf dt m) as (L & _).
  split; [exact L|].
  intros q ll k i Hq _ _ _. destruct (state_ne_flux_tend q Hq) as (Hf & Ht).
  unfold interior, ld. rewrite compute_tendencies_x_frame by auto. reflexivity.
Qed.

Lemma compute_tendencies_z_int_quiet (pf : ptr) (dt : F) :
  int_quiet (compute_tendencies_z cfg e pf Pflux Ptend dt).
Proof.
  intros m. destruct (compute_tendencies_z_quiet cfg e pf dt m) as (L & _).
  split; [exact L|].
  intros q ll k i Hq _ _ _. destruct (state_ne_flux_tend q Hq) as (Hf & Ht).
  unfold interior, ld. rewrite compute_tendencies_z_frame by auto. reflexivity.
Qed.

(** The halo routine and the kernels of a stage, whatever its direction. *)
Definition stage_rhs (pf : ptr) (dt : F) (dir : Z) (m : mem) : mem :=
  if Z.eqb dir DIR_X then
    compute_tendencies_x cfg e pf Pflux Ptend dt (set_halo_values_x cfg e pf m)
  else if Z.eqb dir DIR_Z then
    compute_tendencies_z cfg e pf Pflux Ptend dt (set_halo_values_z e pf m)
  else m.

Lemma stage_rhs_int_quiet (pf : ptr) (dt : F) (dir : Z) : int_quiet (stage_rhs pf dt dir).
Proof.
  unfold stage_rhs. intros m. destruct (Z.eqb dir DIR_X).
  - apply (int_quiet_seq _ _ (set_halo_values_x_int_quiet pf)
             (compute_tendencies_x_int_quiet pf dt)).
  - destruct (Z.eqb dir DIR_Z); [|apply int_quiet_id].
    apply (int_quiet_seq _ _ (set_halo_values_z_int_quiet pf)
             (compute_tendencies_z_int_quiet pf dt)).
Qed.

Lemma semi_discrete_step_stage_rhs (pi pf po : ptr) (dt : F) (dir : Z) (m : mem) :
  semi_discrete_step cfg e pi pf po dt dir Pflux Ptend m
  = update_loop cfg e pi po dt (stage_rhs pf dt dir m).
Proof. reflexivity. Qed.

End InteriorFrame.

(** ** Aliasing of the stage buffers *)

(** C7, as stated, fails in the gravity-wave scenario: in the last stage
    of a sweep, where [state] is both [state_init] and [state_out], the
    value left in the cell at the centre of the forcing is not
    [state_init + dt * RHS(state_forcing)]: the update has added the wave
    forcing to the tendency. *)
Lemma gravity_waves_stage_adds_forcing_to_rhs :
  interior wave_env
    (semi_discrete_step wave_cfg wave_env Pstate Pstate_tmp Pstate 1%R DIR_X Pflux Ptend
       wave_mem) Pstate ID_WMOM 0 0
  <> fadd (interior wave_env wave_mem Pstate ID_WMOM 0 0)
          (fmul 1%R (ld (stage_rhs wave_cfg wave_env Pstate_tmp 1%R DIR_X wave_mem) Ptend
                        (tidx wave_env ID_WMOM 0 0))).
Proof.
  assert (HS : is_state Pstate) by (left; reflexivity).
  rewrite semi_discrete_step_stage_rhs.
  destruct (stage_rhs_int_quiet wave_cfg wave_env Pstate_tmp 1%R DIR_X wave_mem) as (L1 & F1).
  assert (Hw1 : wf wave_env (stage_rhs wave_cfg wave_env Pstate_tmp 1%R DIR_X wave_mem)).
  { intros p. rewrite L1. apply wave_wf. }
  destruct (update_loop_inv wave_cfg wave_env Pstate Pstate HS HS 1%R _ Hw1) as (_ & HA & _).
  unfold interior at 1. rewrite HA by (unfold ID_WMOM, NUM_VARS; simpl; lia).
  fold (interior wave_env (stage_rhs wave_cfg wave_env Pstate_tmp 1%R DIR_X wave_mem)
          Pstate ID_WMOM 0 0).
  rewrite F1 by (auto; unfold ID_WMOM, NUM_VARS; simpl; lia).
  unfold tend_at_write.
  change (gflag wave_cfg && Nat.eqb ID_WMOM ID_WMOM) with true. cbv iota.
  unfold addn, gforce. rewrite wave_wpert.
  change (at_ (hy_dens_cell wave_env) (hs + 0)) with 1%R.
  generalize (ld (stage_rhs wave_cfg wave_env Pstate_tmp 1%R DIR_X wave_mem) Ptend
                 (tidx wave_env ID_WMOM 0 0)).
  generalize (interior wave_env wave_mem Pstate ID_WMOM 0 0).
  intros q t. simpl. lra.
Qed.

(** C7, amended. On every grid, in every scenario and under every
    aliasing of the stage's three state pointers (the four the integrator
    uses among them), a stage leaves in each interior cell of [state_out]
    the value that [state_init] held there before the call plus [dt]
    times the tendency its state write reads: in every scenario other
    than gravity waves that is the tendency which the halo routine and
    the kernel compute from [state_forcing] as it was before the call,
    and in the gravity-wave scenario it is that tendency with the wave
    forcing the update has added to it.  The evaluation of the right-hand
    side changes no interior cell of [state_init]. *)
Theorem semi_discrete_step_tolerates_aliasing `{A : Arith}
    (cfg : config) (e : env) (pi pf po : ptr) (dt : F) (dir : Z) (m : mem) (ll k i : nat) :
  is_state pi -> is_state po -> wf e m ->
  ll < NUM_VARS -> k < nz e -> i < nx e ->
  let r := stage_rhs cfg e pf dt dir m in
  interior e (semi_discrete_step cfg e pi pf po dt dir Pflux Ptend m) po ll k i
  = fadd (interior e m pi ll k i) (fmul dt (tend_at_write cfg e r ll k i))
  /\ (data_spec_int cfg <> DATA_SPEC_GRAVITY_WAVES ->
      tend_at_write cfg e r ll k i = ld r Ptend (tidx e ll k i))
  /\ interior e r pi ll k i = interior e m pi ll k i.
Proof.
  intros Hpi Hpo Hm Hl Hk Hi r. unfold r.
  rewrite semi_discrete_step_stage_rhs.
  destruct (stage_rhs_int_quiet cfg e pf dt dir m) as (L1 & F1).
  assert (Hw1 : wf e (stage_rhs cfg e pf dt dir m)) by (intros p; rewrite L1; apply Hm).
  destruct (update_loop_inv cfg e pi po Hpi Hpo dt _ Hw1) as (_ & HA & _).
  split; [|split; [|apply F1; auto]].
  - unfold interior at 1. rewrite HA by auto.
    fold (interior e (stage_rhs cfg e pf dt dir m) pi ll k i). rewrite F1 by auto.
    reflexivity.
  - intros Hg. unfold tend_at_write, gflag.
    destruct (Z.eqb_spec (data_spec_int cfg) DATA_SPEC_GRAVITY_WAVES); [contradiction|].
    reflexivity.
Qed.

(** The first stage of a sweep, where [state] is both [state_init] and
    [state_forcing], at the cell whose density is perturbed. *)
Lemma semi_discrete_step_tolerates_aliasing_witness :
  let r := stage_rhs (demo_cfg 2) demo_env Pstate 1%R DIR_X alias_mem in
  interior demo_env
    (semi_discrete_step (demo_cfg 2) demo_env Pstate Pstate Pstate_tmp 1%R DIR_X Pflux Ptend
       alias_mem) Pstate_tmp ID_DENS 0 3
  = fadd (interior demo_env alias_mem Pstate ID_DENS 0 3)
         (fmul 1%R (tend_at_write (demo_cfg 2) demo_env r ID_DENS 0 3))
  /\ tend_at_write (demo_cfg 2) demo_env r ID_DENS 0 3 = ld r Ptend (tidx demo_env ID_DENS 0 3)
  /\ interior demo_env r Pstate ID_DENS 0 3 = interior demo_env alias_mem Pstate ID_DENS 0 3.
Proof.
  destruct (semi_discrete_step_tolerates_aliasing (demo_cfg 2) demo_env
              Pstate Pstate Pstate_tmp 1%R DIR_X alias_mem ID_DENS 0 3) as (H1 & H2 & H3).
  - left; reflexivity.
  - right; reflexivity.
  - exact alias_mem_wf.
  - unfold ID_DENS, NUM_VARS; lia.
  - simpl; lia.
  - simpl; lia.
  - split; [exact H1|]. split; [apply H2; discriminate | exact H3].
Defined.

(** ** Closed runs in binary64 *)

(** A configuration of the compiled program: [sim_time] one second, no
    output. *)
Definition run_cfg (spec : Z) (nxg nzg : nat) : @config double :=
  @Config double nxg nzg (float_of_Z 1) (float_of_Z (-1)) spec.

Definition zero_locals : @sample double :=
  Sample double 0%float 0%float 0%float 0%float 0%float 0%float.



(** C5, as stated, fails in binary64: with [dt = 0] the hyper-viscosity
    coefficient is infinite, every flux is infinite or not a number, and
    the step stores not-a-number in every interior cell. *)
Lemma zero_step_yields_nan :
  let cfg := run_cfg 2 4 2 in
  let g := @init double cfg 0%float zero_locals in
  let before := reductions cfg (g_env g) (g_mem g) in
  let after :=
    reductions cfg (g_env g)
      (fst (perform_timestep cfg (g_env g) Pstate Pstate_tmp Pflux Ptend 0%float
              (g_mem g, 1%Z))) in
  PrimFloat.is_nan (fst before) = false /\ PrimFloat.is_nan (snd before) = false
  /\ PrimFloat.is_nan (fst after) = true /\ PrimFloat.is_nan (snd after) = true.
Proof. vm_compute. repeat split; reflexivity. Qed.

(** C6, as stated, fails on a grid of one column: the first call copies
    the right halo from the only interior column and the second call then
    copies that into the left halo. *)
Lemma halo_x_twice_differs_on_one_column :
  let cfg := run_cfg 2 1 1 in
  let g := @init double cfg 0%float zero_locals in
  let once := set_halo_values_x cfg (g_env g) Pstate (g_mem g) in
  let twice := set_halo_values_x cfg (g_env g) Pstate once in
  PrimFloat.eqb (ld twice Pstate (sidx (g_env g) 3 2 0))
                (ld once Pstate (sidx (g_env g) 3 2 0)) = false.
Proof. vm_compute. reflexivity. Qed.


(** The cell average of the hydrostatic density as the specification
    words it: the scenario's [hr] at the three quadrature-shifted heights
    [z = (k_beg + k - hs + qpoints[kk] - 0.5)*dz], summed with the
    weights. *)
Definition hy_dens_cell_by_quadrature `{A : Arith} (cfg : config) (loc : sample) (k : nat) : F :=
  for_ nqpoints (fun kk acc =>
    let z := fmul (fsub (fadd (of_int (Z.of_nat 0 + Z.of_nat k - Z.of_nat hs))
                              (at_ qpoints kk))
                        (dec 5 (-1)))
                  (dz cfg) in
    fadd acc (fmul (s_hr (scenario cfg (of_int 0) z loc)) (at_ qweights kk))) (of_int 0).

(** On two rows, the first interior row: [init] stores the density of the
    cell centre, which is not the quadrature of the specification. *)
Lemma hy_dens_cell_is_not_the_quadrature :
  let cfg := run_cfg 2 4 2 in
  let g := @init double cfg 0%float zero_locals in
  PrimFloat.eqb (at_ (hy_dens_cell (g_env g)) 2)
                (hy_dens_cell_by_quadrature cfg zero_locals 2) = false.
Proof. vm_compute. reflexivity. Qed.

(** ** Startup with an unknown scenario: the run *)

Section LoopClock.
Context `{A : Arith}.
Variable cfg : config.
Variable ncmpi : nat -> bool.

(** The clock of the time loop: its guard [etime < sim_time] and its
    assignments to [dt] and [etime], which read nothing else.
    [loop_ends fuel etime dt] tells whether the guard fails within [fuel]
    iterations. *)
Fixpoint loop_ends (fuel : nat) (etime dt : F) : bool :=
  if flt etime (sim_time cfg) then
    match fuel with
    | O => false
    | Datatypes.S fuel' =>
        let dt' := if flt (sim_time cfg) (fadd etime dt)
                   then fsub (sim_time cfg) etime else dt in
        loop_ends fuel' (fadd etime dt') dt'
    end
  else true.

Lemma time_step_clock_of (e : env) (r r' : run) :
  time_step cfg ncmpi e r = inl r' ->
  let dt' := if flt (sim_time cfg) (fadd (r_etime r) (r_dt r))
             then fsub (sim_time cfg) (r_etime r) else r_dt r in
  r_etime r' = fadd (r_etime r) dt' /\ r_dt r' = dt'.
Proof.
  unfold time_step. cbv zeta.
  destruct (perform_timestep cfg e Pstate Pstate_tmp Pflux Ptend _ _) as [m sw].
  destruct (_ && _).
  - unfold output. cbn [r_num_out r_mem r_dt r_etime r_output_counter r_direction_switch].
    destruct (ncmpi (r_num_out r)); intros H; [|discriminate].
    injection H as <-. split; reflexivity.
  - intros H. injection H as <-. split; reflexivity.
Qed.

(** The loop ends when its clock does. *)
Lemma time_loop_ends (fuel : nat) (e : env) (r : run) :
  loop_ends fuel (r_etime r) (r_dt r) = true -> time_loop cfg ncmpi fuel e r <> None.
Proof.
  revert r. induction fuel as [|fuel IH]; intros r; simpl;
    destruct (flt (r_etime r) (sim_time cfg)); try discriminate.
  intros Hc. destruct (time_step cfg ncmpi e r) as [r1 | code] eqn:Hstep; [|discriminate].
  destruct (time_step_clock_of e r r1 Hstep) as (He & Hd).
  apply IH. rewrite He, Hd. exact Hc.
Qed.

(** [main] ends when the clock of its loop does, and then only by
    returning status 0 or by [exit(-1)] after a NetCDF error. *)
Lemma main_from_ends (fuel : nat) (g : started) :
  loop_ends fuel (g_etime g) (g_dt g) = true ->
  match main_from cfg ncmpi fuel g with
  | Returned code _ _ => code = 0%Z
  | Exited code => code = (-1)%Z /\ exists n, ncmpi n = false
  | OutOfFuel => False
  end.
Proof.
  intros Hc. pose proof (main_from_exit cfg ncmpi fuel g) as Hx.
  destruct (main_from cfg ncmpi fuel g) eqn:Hm; try exact Hx.
  revert Hm. unfold main_from. cbv zeta.
  destruct (reductions cfg (g_env g) (g_mem g)) as [mass0 te0].
  destruct (fle (of_int 0) (output_freq cfg)).
  - unfold output. cbn [r_num_out r_mem r_dt r_etime r_output_counter r_direction_switch].
    destruct (ncmpi 0); [|discriminate].
    match goal with |- context [time_loop cfg ncmpi fuel (g_env g) ?r] =>
      pose proof (time_loop_ends fuel (g_env g) r Hc) as Hl;
      destruct (time_loop cfg ncmpi fuel (g_env g) r) as [[r1|c1]|] end.
    + destruct (reductions cfg (g_env g) (r_mem r1)); discriminate.
    + discriminate.
    + contradiction.
  - match goal with |- context [time_loop cfg ncmpi fuel (g_env g) ?r] =>
      pose proof (time_loop_ends fuel (g_env g) r Hc) as Hl;
      destruct (time_loop cfg ncmpi fuel (g_env g) r) as [[r1|c1]|] end.
    + destruct (reductions cfg (g_env g) (r_mem r1)); discriminate.
    + discriminate.
    + contradiction.
Qed.

End LoopClock.

(** The unused scenario number 4 on four columns and two rows, in the
    arithmetic of the compiled program: forty seconds, which the loop
    covers in three steps, the last one shortened; no output. *)
Definition unknown_cfg : @config double :=
  @Config double 4 2 (float_of_Z 40) (float_of_Z (-1)) 4.

(** C8, as stated, fails: with [data_spec_int = 4] the program takes its
    three steps, reaches the end of [main] and returns status 0. *)
Lemma unknown_data_spec_exits_zero :
  match main unknown_cfg (fun _ => true) 3 0%float zero_locals with
  | Returned code _ _ => code = 0%Z
  | _ => False
  end.
Proof. vm_compute. reflexivity. Qed.

(** C8, amended. An unknown [data_spec_int] is not rejected: [init] then
    calls no scenario routine (the sampled values keep whatever the locals
    held) and [main] runs its time loop; whenever the clock of that loop
    passes [sim_time] within [fuel] iterations, [main] ends within them,
    by returning status 0, or by [exit(-1)] after a NetCDF error. *)
Theorem unknown_data_spec_is_not_rejected `{A : Arith}
    (cfg : config) (ncmpi : nat -> bool) (fuel : nat) (junk : F) (junk_loc : sample) :
  ~ known_data_spec (data_spec_int cfg) ->
  loop_ends cfg fuel (g_etime (init cfg junk junk_loc)) (g_dt (init cfg junk junk_loc)) = true ->
  (forall x z loc, scenario cfg x z loc = loc) /\
  match main cfg ncmpi fuel junk junk_loc with
  | Returned code _ _ => code = 0%Z
  | Exited code => code = (-1)%Z /\ exists n, ncmpi n = false
  | OutOfFuel => False
  end.
Proof.
  intros Hk Hc. split; [|rewrite main_unfold; apply main_from_ends; exact Hc].
  intros x z loc. unfold scenario. cbv zeta.
  destruct (Z.eqb_spec (data_spec_int cfg) DATA_SPEC_COLLISION) as [H|_];
    [exfalso; apply Hk; red; tauto|].
  destruct (Z.eqb_spec (data_spec_int cfg) DATA_SPEC_THERMAL) as [H|_];
    [exfalso; apply Hk; red; tauto|].
  destruct (Z.eqb_spec (data_spec_int cfg) DATA_SPEC_GRAVITY_WAVES) as [H|_];
    [exfalso; apply Hk; red; tauto|].
  destruct (Z.eqb_spec (data_spec_int cfg) DATA_SPEC_DENSITY_CURRENT) as [H|_];
    [exfalso; apply Hk; red; tauto|].
  destruct (Z.eqb_spec (data_spec_int cfg) DATA_SPEC_INJECTION) as [H|_];
    [exfalso; apply Hk; red; tauto|].
  reflexivity.
Qed.

Lemma unknown_data_spec_is_not_rejected_witness :
  (forall x z loc, scenario unknown_cfg x z loc = loc) /\
  match main unknown_cfg (fun _ => true) 3 0%float zero_locals with
  | Returned code _ _ => code = 0%Z
  | Exited code => code = (-1)%Z /\ exists n, (fun _ : nat => true) n = false
  | OutOfFuel => False
  end.
Proof.
  apply (unknown_data_spec_is_not_rejected unknown_cfg (fun _ => true) 3 0%float zero_locals).
  - intros [H|[H|[H|[H|H]]]]; discriminate H.
  - vm_compute. reflexivity.
Defined.

(** ** A step of length zero, in binary64 *)

(** Infinite or not a number. *)
Definition nonfinite (x : float) : Prop :=
  match Prim2SF x with
  | S754_infinity _ | S754_nan => True
  | _ => False
  end.

Lemma is_nan_eq (x : float) : Prim2SF x = S754_nan -> x = nan.
Proof. intros H. apply Prim2SF_inj. rewrite H. reflexivity. Qed.

Lemma div_zero_nonfinite (x : float) : nonfinite (x / 0).
Proof.
  unfold nonfinite. rewrite div_spec.
  change (Prim2SF 0) with (S754_zero false).
  destruct (Prim2SF x) as [s | s | | s m e]; simpl; exact I.
Qed.

Lemma mul_nonfinite_l (a b : float) : nonfinite a -> nonfinite (a * b).
Proof.
  unfold nonfinite. rewrite mul_spec.
  destruct (Prim2SF a) as [s | s | | s m e]; try contradiction; intros _;
    destruct (Prim2SF b) as [s' | s' | | s' m' e']; simpl; exact I.
Qed.

Lemma sub_nonfinite_l (a b : float) : nonfinite a -> nonfinite (a - b).
Proof.
  unfold nonfinite. rewrite sub_spec.
  destruct (Prim2SF a) as [s | s | | s m e]; try contradiction; intros _;
    destruct (Prim2SF b) as [s' | s' | | s' m' e']; simpl; try exact I;
    destruct s, s'; exact I.
Qed.

Lemma sub_nonfinite_r (a b : float) : nonfinite b -> nonfinite (a - b).
Proof.
  unfold nonfinite. rewrite sub_spec.
  destruct (Prim2SF b) as [s' | s' | | s' m' e']; try contradiction; intros _;
    destruct (Prim2SF a) as [s | s | | s m e]; simpl; try exact I;
    destruct s, s'; exact I.
Qed.

Lemma add_nonfinite_l (a b : float) : nonfinite a -> nonfinite (a + b).
Proof.
  unfold nonfinite. rewrite add_spec.
  destruct (Prim2SF a) as [s | s | | s m e]; try contradiction; intros _;
    destruct (Prim2SF b) as [s' | s' | | s' m' e']; simpl; try exact I;
    destruct s, s'; exact I.
Qed.

Lemma opp_nonfinite (a : float) : nonfinite a -> nonfinite (- a).
Proof.
  unfold nonfinite. rewrite opp_spec.
  destruct (Prim2SF a) as [s | s | | s m e]; try contradiction; intros _; exact I.
Qed.

Lemma div_nonfinite_l (a b : float) : nonfinite a -> nonfinite (a / b).
Proof.
  unfold nonfinite. rewrite div_spec.
  destruct (Prim2SF a) as [s | s | | s m e]; try contradiction; intros _;
    destruct (Prim2SF b) as [s' | s' | | s' m' e']; simpl; exact I.
Qed.

Lemma zero_mul_nonfinite (b : float) : nonfinite b -> (0 * b = nan)%float.
Proof.
  unfold nonfinite. intros H. apply is_nan_eq. rewrite mul_spec.
  change (Prim2SF 0) with (S754_zero false).
  destruct (Prim2SF b) as [s' | s' | | s' m' e']; try contradiction; reflexivity.
Qed.

Lemma add_nan_r (a : float) : (a + nan = nan)%float.
Proof.
  apply is_nan_eq. rewrite add_spec. change (Prim2SF nan) with S754_nan.
  destruct (Prim2SF a); reflexivity.
Qed.

Lemma add_nan_l (b : float) : (nan + b = nan)%float.
Proof. apply is_nan_eq. rewrite add_spec. reflexivity. Qed.

Lemma mul_nan_l (b : float) : (nan * b = nan)%float.
Proof. apply is_nan_eq. rewrite mul_spec. reflexivity. Qed.

Section ZeroStep.
Variables (pw : float -> float -> float) (cs ex : float -> float).
Local Abbreviation B := (binary64 pw cs ex).
Variable cfg : @config B.
Variable e : @env B.

Lemma stage_dt_zero (n : Z) :
  (n = 3 \/ n = 2 \/ n = 1)%Z -> @fdiv B 0%float (@of_int B n) = 0%float.
Proof. intros [-> | [-> | ->]]; reflexivity. Qed.

(** With a stage time step of zero the hyper-viscosity coefficient is a
    quotient by zero. *)
Lemma hv_coef_x_nonfinite : nonfinite (hv_coef_x cfg 0%float).
Proof. unfold hv_coef_x. apply (div_zero_nonfinite (fmul (fneg hv_beta) (dx cfg))). Qed.

Lemma hv_coef_z_nonfinite : nonfinite (hv_coef_z cfg 0%float).
Proof. unfold hv_coef_z. apply (div_zero_nonfinite (fmul (fneg hv_beta) (dz cfg))). Qed.

Lemma flux_x_of_nonfinite (g : nat -> nat -> nat -> float) (ll k i : nat) :
  nonfinite (flux_x_of cfg e g 0%float ll k i).
Proof.
  unfold flux_x_of. cbv zeta.
  destruct ll as [|[|[|ll]]];
    apply sub_nonfinite_r; apply mul_nonfinite_l; exact hv_coef_x_nonfinite.
Qed.

Lemma flux_z_of_nonfinite (g : nat -> nat -> nat -> float) (ll k i : nat) :
  nonfinite (flux_z_of cfg e g 0%float ll k i).
Proof.
  unfold flux_z_of. cbv zeta.
  destruct ll as [|[|[|ll]]];
    apply sub_nonfinite_r; apply mul_nonfinite_l; exact hv_coef_z_nonfinite.
Qed.

Lemma tend_x_of_nonfinite (g : nat -> nat -> nat -> float) (ll k i : nat) :
  nonfinite (tend_x_of cfg (flux_x_of cfg e g 0%float) ll k i).
Proof.
  unfold tend_x_of. apply div_nonfinite_l, opp_nonfinite, sub_nonfinite_l.
  apply flux_x_of_nonfinite.
Qed.

Lemma tend_z_of_nonfinite (g g' : nat -> nat -> nat -> float) (ll k i : nat) :
  nonfinite (tend_z_of cfg (flux_z_of cfg e g 0%float) g' ll k i).
Proof.
  unfold tend_z_of. cbv zeta.
  assert (H : nonfinite (fdiv (fneg (fsub (flux_z_of cfg e g 0%float ll (k + 1) i)
                                         (flux_z_of cfg e g 0%float ll k i))) (dz cfg))).
  { apply div_nonfinite_l, opp_nonfinite, sub_nonfinite_l. apply flux_z_of_nonfinite. }
  destruct (Nat.eqb ll ID_WMOM); [apply sub_nonfinite_l|]; exact H.
Qed.

(** Every tendency of a stage whose time step is zero is infinite or not
    a number. *)
Lemma stage_rhs_nonfinite (pf : ptr) (dir : Z) (m : @mem B) (ll k i : nat) :
  is_state pf -> dir = DIR_X \/ dir = DIR_Z -> wf e m ->
  ll < NUM_VARS -> k < nz e -> i < nx e ->
  nonfinite (ld (stage_rhs cfg e pf 0%float dir m) Ptend (tidx e ll k i)).
Proof.
  intros Hpf Hdir Hm Hl Hk Hi. unfold stage_rhs.
  destruct Hdir as [-> | ->]; simpl Z.eqb; cbv iota.
  - destruct (set_halo_values_x_int_quiet cfg e pf m) as (L & _).
    assert (Hw : wf e (set_halo_values_x cfg e pf m)) by (intros p; rewrite L; apply Hm).
    destruct (compute_tendencies_x_spec cfg e pf Hpf 0%float _ Hw) as (_ & Ht & _).
    rewrite Ht by auto. apply tend_x_of_nonfinite.
  - destruct (set_halo_values_z_int_quiet e pf m) as (L & _).
    assert (Hw : wf e (set_halo_values_z e pf m)) by (intros p; rewrite L; apply Hm).
    destruct (compute_tendencies_z_spec cfg e pf Hpf 0%float _ Hw) as (_ & Ht & _).
    rewrite Ht by auto. apply tend_z_of_nonfinite.
Qed.

Lemma addn_nonfinite (n : nat) (t c : float) : nonfinite t -> nonfinite (@addn B n t c).
Proof. intros H. induction n as [|n IH]; simpl; [exact H | apply add_nonfinite_l, IH]. Qed.

(** Such a stage stores [state_init + 0 * tend], which is not a number,
    in every interior cell of [state_out]. *)
Lemma stage_dt0_nan (pi pf po : ptr) (dir : Z) (m : @mem B) :
  is_state pi -> is_state pf -> is_state po -> dir = DIR_X \/ dir = DIR_Z -> wf e m ->
  let m' := semi_discrete_step cfg e pi pf po 0%float dir Pflux Ptend m in
  wf e m' /\
  (forall ll k i, ll < NUM_VARS -> k < nz e -> i < nx e -> interior e m' po ll k i = nan).
Proof.
  intros Hpi Hpf Hpo Hdir Hm m'. unfold m'. rewrite semi_discrete_step_stage_rhs.
  destruct (stage_rhs_int_quiet cfg e pf 0%float dir m) as (L1 & _).
  assert (Hw1 : wf e (stage_rhs cfg e pf 0%float dir m)) by (intros p; rewrite L1; apply Hm).
  destruct (update_loop_inv cfg e pi po Hpi Hpo 0%float _ Hw1) as (Hw & HA & _).
  split; [exact Hw|].
  intros ll k i Hl Hk Hi. unfold interior. rewrite HA by auto.
  assert (Hn : nonfinite (tend_at_write cfg e (stage_rhs cfg e pf 0%float dir m) ll k i)).
  { unfold tend_at_write. destruct (gflag cfg && Nat.eqb ll ID_WMOM).
    - apply addn_nonfinite. apply stage_rhs_nonfinite; auto. unfold ID_WMOM, NUM_VARS. lia.
    - apply stage_rhs_nonfinite; auto. }
  change (PrimFloat.add (ld (stage_rhs cfg e pf 0%float dir m) pi (sidx e ll (k + hs) (i + hs)))
            (PrimFloat.mul 0 (tend_at_write cfg e (stage_rhs cfg e pf 0%float dir m) ll k i))
          = nan).
  rewrite (zero_mul_nonfinite _ Hn). apply add_nan_r.
Qed.

Lemma sweep_dt0_nan (dir : Z) (m : @mem B) :
  dir = DIR_X \/ dir = DIR_Z -> wf e m ->
  wf e (sweep cfg e dir 0%float m) /\
  (forall ll k i, ll < NUM_VARS -> k < nz e -> i < nx e ->
     interior e (sweep cfg e dir 0%float m) Pstate ll k i = nan).
Proof.
  intros Hdir Hm. unfold sweep. cbv zeta.
  assert (HS : is_state Pstate) by (left; reflexivity).
  assert (HT : is_state Pstate_tmp) by (right; reflexivity).
  rewrite !stage_dt_zero by tauto.
  destruct (stage_dt0_nan Pstate Pstate Pstate_tmp dir m HS HS HT Hdir Hm) as (Hw1 & _).
  destruct (stage_dt0_nan Pstate Pstate_tmp Pstate_tmp dir _ HS HT HT Hdir Hw1) as (Hw2 & _).
  apply (stage_dt0_nan Pstate Pstate_tmp Pstate dir _ HS HT HS Hdir Hw2).
Qed.

Lemma perform_timestep_dt0_nan (m : @mem B) (sw : Z) :
  wf e m ->
  let m' := fst (perform_timestep cfg e Pstate Pstate_tmp Pflux Ptend 0%float (m, sw)) in
  wf e m' /\
  (forall ll k i, ll < NUM_VARS -> k < nz e -> i < nx e -> interior e m' Pstate ll k i = nan).
Proof.
  intros Hm. rewrite perform_timestep_unfold. cbv zeta.
  destruct (negb (Z.eqb sw 0)); cbn [fst].
  - destruct (sweep_dt0_nan DIR_X m (or_introl eq_refl) Hm) as (Hw1 & _).
    apply (sweep_dt0_nan DIR_Z _ (or_intror eq_refl) Hw1).
  - destruct (sweep_dt0_nan DIR_Z m (or_intror eq_refl) Hm) as (Hw1 & _).
    apply (sweep_dt0_nan DIR_X _ (or_introl eq_refl) Hw1).
Qed.

(** The sums of [reductions] over a state whose density is not a number. *)
Lemma reductions_body_nan (m : @mem B) (k i : nat) (acc : @F B * @F B) :
  interior e m Pstate ID_DENS k i = nan ->
  reductions_body cfg e m k i acc = (nan, nan).
Proof.
  unfold interior. intros Hr. unfold reductions_body. cbv zeta. rewrite Hr.
  change (@fadd B) with PrimFloat.add. change (@fmul B) with PrimFloat.mul.
  set (h := at_ (hy_dens_cell e) (hs + k)).
  rewrite (add_nan_l h), !mul_nan_l.
  rewrite (add_nan_r (fst acc)), (add_nan_r (snd acc)). reflexivity.
Qed.

Lemma reductions_nan (m : @mem B) :
  1 <= nx e -> 1 <= nz e ->
  (forall k i, k < nz e -> i < nx e -> interior e m Pstate ID_DENS k i = nan) ->
  reductions cfg e m = (nan, nan).
Proof.
  intros Hnx Hnz Hr. unfold reductions.
  destruct (nz e) as [|nz'] eqn:Ez; [lia|]. destruct (nx e) as [|nx'] eqn:Ex; [lia|].
  cbn [for_]. apply reductions_body_nan. apply Hr; lia.
Qed.

End ZeroStep.

(** C5, amended. In binary64 a step with [dt = 0] is no no-op: whatever
    the scenario, the grid and the state, every stage divides by its time
    step in the hyper-viscosity coefficient, so that every tendency is
    infinite or not a number and [state_init + 0 * tend] is not a number;
    after the step every interior cell of [state] is not a number, and on
    a grid of at least one cell [reductions] returns not-a-number for the
    mass and for the total energy. *)
Theorem zero_step_stores_nan
    (pw : float -> float -> float) (cs ex : float -> float)
    (cfg : @config (binary64 pw cs ex)) (e : @env (binary64 pw cs ex))
    (m : @mem (binary64 pw cs ex)) (direction_switch : Z) :
  1 <= nx e -> 1 <= nz e -> wf e m ->
  let m' := fst (perform_timestep cfg e Pstate Pstate_tmp Pflux Ptend 0%float
                   (m, direction_switch)) in
  (forall ll k i, ll < NUM_VARS -> k < nz e -> i < nx e -> interior e m' Pstate ll k i = nan)
  /\ reductions cfg e m' = (nan, nan).
Proof.
  intros Hnx Hnz Hm m'.
  destruct (perform_timestep_dt0_nan pw cs ex cfg e m direction_switch Hm) as (_ & Hn).
  split; [exact Hn|].
  apply reductions_nan; auto.
  intros k i Hk Hi. apply Hn; auto. unfold ID_DENS, NUM_VARS. lia.
Qed.

(** The step taken right after [init] in the thermal scenario, on four
    columns and two rows. *)
Lemma zero_step_stores_nan_witness :
  let cfg := run_cfg 2 4 2 in
  let g := @init double cfg 0%float zero_locals in
  let m' := fst (perform_timestep cfg (g_env g) Pstate Pstate_tmp Pflux Ptend 0%float
                   (g_mem g, 1%Z)) in
  interior (g_env g) m' Pstate ID_RHOT 1 3 = nan
  /\ reductions cfg (g_env g) m' = (nan, nan).
Proof.
  cbv zeta.
  destruct (zero_step_stores_nan libm_pow libm_cos libm_exp (run_cfg 2 4 2)
              (g_env (@init double (run_cfg 2 4 2) 0%float zero_locals))
              (g_mem (@init double (run_cfg 2 4 2) 0%float zero_locals)) 1%Z) as (Hc & Hr).
  - rewrite init_nx. simpl. lia.
  - rewrite init_nz. simpl. lia.
  - apply init_wf.
  - split; [|exact Hr]. apply Hc.
    + unfold ID_RHOT, NUM_VARS. lia.
    + rewrite init_nz. simpl. lia.
    + rewrite init_nx. simpl. lia.
Defined.

(** * Further properties of the code *)

(** ** The halo manager *)

(** Every index inside a state array is the index of a cell. *)
Lemma flat_cell (N H W j : nat) :
  j < N * H * W -> exists ll k i, ll < N /\ k < H /\ i < W /\ j = ll * H * W + k * W + i.
Proof.
  intros Hj.
  assert (HW : 0 < W) by (destruct W; [lia | lia]).
  assert (HH : 0 < H) by (destruct H; [lia | lia]).
  exists (j / W / H), ((j / W) mod H), (j mod W).
  pose proof (Nat.div_mod_eq j W) as E1.
  pose proof (Nat.div_mod_eq (j / W) H) as E2.
  pose proof (Nat.mod_upper_bound j W ltac:(lia)) as B1.
  pose proof (Nat.mod_upper_bound (j / W) H ltac:(lia)) as B2.
  repeat split; auto.
  - apply Nat.Div0.div_lt_upper_bound. apply Nat.Div0.div_lt_upper_bound. nia.
  - nia.
Qed.

Lemma state_cell `{A : Arith} (e : env) (p : ptr) (j : nat) :
  is_state p -> j < block_size e p ->
  exists ll r i, ll < NUM_VARS /\ r < nz e + 2 * hs /\ i < nx e + 2 * hs /\ j = sidx e ll r i.
Proof.
  intros Hp Hj. unfold sidx. apply flat_cell. destruct Hp as [-> | ->]; exact Hj.
Qed.


Section HaloZMore.
Context `{A : Arith}.
Variable e : env.
Variable p : ptr.
Hypothesis Hp : is_state p.
Hypothesis Hnz : 1 <= nz e.


End HaloZMore.



(** X2. What [set_halo_values_z] leaves in the array it is given, on a grid
    with at least one row: on the two rows below the floor the value of
    the first interior row, on the two rows above the lid the value of
    the last interior row (density and density times potential
    temperature as they are, the x-momentum rescaled by the ratio of the
    background densities of the two rows, the z-momentum replaced by
    zero); interior rows and the other arrays are as before. *)
Theorem set_halo_values_z_fills_halo_rows `{A : Arith}
    (e : env) (p : ptr) (m : mem) (ll r i : nat) :
  is_state p -> 1 <= nz e -> wf e m ->
  ll < NUM_VARS -> r < nz e + 2 * hs -> i < nx e + 2 * hs ->
  let m' := set_halo_values_z e p m in
  let src := if r <? hs then hs else nz e + hs - 1 in
  ld m' p (sidx e ll r i)
  = (if (r <? hs) || (nz e + hs <=? r) then
       if Nat.eqb ll ID_WMOM then of_int 0
       else if Nat.eqb ll ID_UMOM then
         fmul (fdiv (ld m p (sidx e ll src i)) (at_ (hy_dens_cell e) src))
              (at_ (hy_dens_cell e) r)
       else ld m p (sidx e ll src i)
     else ld m p (sidx e ll r i))
  /\ forall q, q <> p -> buf m' q = buf m q.
Proof.
  intros Hp Hnz Hm Hl Hr Hi m' src. split.
  - unfold m'. rewrite (set_halo_values_z_read e p Hp Hnz m ll r i Hm Hl Hr Hi).
    reflexivity.
  - intros q Hq. apply set_halo_values_z_frame; auto.
Qed.

Lemma set_halo_values_z_fills_halo_rows_witness :
  ld (set_halo_values_z demo_env Pstate alias_mem) Pstate (sidx demo_env ID_DENS 0 5)
  = ld alias_mem Pstate (sidx demo_env ID_DENS hs 5)
  /\ forall q, q <> Pstate -> buf (set_halo_values_z demo_env Pstate alias_mem) q = buf alias_mem q.
Proof.
  apply (set_halo_values_z_fills_halo_rows demo_env Pstate alias_mem ID_DENS 0 5).
  - left; reflexivity.
  - simpl; lia.
  - exact alias_mem_wf.
  - unfold ID_DENS, NUM_VARS; lia.
  - simpl; lia.
  - simpl; lia.
Defined.

(** X3. Neither halo routine stores into an interior cell: whatever array
    it is called on, every interior cell of both state arrays holds after
    the call what it held before, on any grid. *)
Theorem halo_routines_keep_interior `{A : Arith}
    (cfg : config) (e : env) (p q : ptr) (m : mem) (ll k i : nat) :
  is_state q -> ll < NUM_VARS -> k < nz e -> i < nx e ->
  interior e (set_halo_values_x cfg e p m) q ll k i = interior e m q ll k i /\
  interior e (set_halo_values_z e p m) q ll k i = interior e m q ll k i.
Proof.
  intros Hq Hl Hk Hi. split.
  - destruct (set_halo_values_x_int_quiet cfg e p m) as (_ & Hf). apply Hf; auto.
  - destruct (set_halo_values_z_int_quiet e p m) as (_ & Hf). apply Hf; auto.
Qed.

Lemma halo_routines_keep_interior_witness :
  interior demo_env (set_halo_values_x (demo_cfg 6) demo_env Pstate alias_mem) Pstate 0 0 3
    = interior demo_env alias_mem Pstate 0 0 3 /\
  interior demo_env (set_halo_values_z demo_env Pstate alias_mem) Pstate 0 0 3
    = interior demo_env alias_mem Pstate 0 0 3.
Proof.
  apply (halo_routines_keep_interior (demo_cfg 6) demo_env Pstate Pstate alias_mem 0 0 3).
  - left; reflexivity.
  - unfold NUM_VARS; lia.
  - simpl; lia.
  - simpl; lia.
Defined.

(** X4. [reductions] reads the interior cells of [state] and nothing else
    of the heap: two heaps that agree there give the same mass and the
    same total energy. *)
Theorem reductions_read_interior_of_state `{A : Arith}
    (cfg : config) (e : env) (m m' : mem) :
  (forall ll k i, ll < NUM_VARS -> k < nz e -> i < nx e ->
     ld m Pstate (sidx e ll (k + hs) (i + hs)) = ld m' Pstate (sidx e ll (k + hs) (i + hs))) ->
  reductions cfg e m = reductions cfg e m'.
Proof. intros H. apply reductions_ext. exact H. Qed.

Lemma reductions_read_interior_of_state_witness :
  reductions (demo_cfg 2) demo_env alias_mem
  = reductions (demo_cfg 2) demo_env (st (st alias_mem Pstate_tmp 21 2%R) Pstate 0 3%R).
Proof.
  apply (reductions_read_interior_of_state (demo_cfg 2) demo_env alias_mem
           (st (st alias_mem Pstate_tmp 21 2%R) Pstate 0 3%R)).
  intros ll k i Hl Hk Hi. symmetry.
  rewrite ld_st_ne.
  - apply ld_st_ne. discriminate.
  - intros Heq. injection Heq as Heq. unfold sidx, hs in Heq. simpl in Heq. lia.
Defined.

(** X5. A halo call on any array, and an evaluation of the right-hand
    side in either direction, leave the two conserved totals as they
    were. *)
Theorem reductions_unchanged_by_halo_and_rhs `{A : Arith}
    (cfg : config) (e : env) (p : ptr) (dt : F) (m : mem) :
  reductions cfg e (set_halo_values_x cfg e p m) = reductions cfg e m /\
  reductions cfg e (set_halo_values_z e p m) = reductions cfg e m /\
  reductions cfg e (compute_tendencies_x cfg e p Pflux Ptend dt (set_halo_values_x cfg e p m))
    = reductions cfg e m /\
  reductions cfg e (compute_tendencies_z cfg e p Pflux Ptend dt (set_halo_values_z e p m))
    = reductions cfg e m.
Proof.
  assert (HS : is_state Pstate) by (left; reflexivity).
  split; [|split; [|split]]; apply reductions_ext; intros ll k i Hl Hk Hi.
  - destruct (set_halo_values_x_int_quiet cfg e p m) as (_ & Hf). apply Hf; auto.
  - destruct (set_halo_values_z_int_quiet e p m) as (_ & Hf). apply Hf; auto.
  - destruct (int_quiet_seq e _ _ (set_halo_values_x_int_quiet cfg e p)
                (compute_tendencies_x_int_quiet cfg e p dt) m) as (_ & Hf).
    apply Hf; auto.
  - destruct (int_quiet_seq e _ _ (set_halo_values_z_int_quiet e p)
                (compute_tendencies_z_int_quiet cfg e p dt) m) as (_ & Hf).
    apply Hf; auto.
Qed.

(** X6. After [set_halo_values_x], on at least two columns, every row of
    the array is periodic with period [nx] across the halo: the two left
    halo columns hold what columns [nx] and [nx+1] hold, and the two right
    halo columns what columns [hs] and [hs+1] hold.  On the left this is so
    wherever the injection override does not apply: in any other scenario,
    on any other rank, outside the injection band, and for density and
    z-momentum always. *)
Theorem set_halo_values_x_periodic `{A : Arith}
    (cfg : config) (e : env) (p : ptr) (m : mem) (ll k c : nat) :
  is_state p -> 2 <= nx e -> wf e m ->
  ll < NUM_VARS -> k < nz e -> c < hs ->
  let m' := set_halo_values_x cfg e p m in
  ld m' p (sidx e ll (k + hs) (nx e + hs + c)) = ld m' p (sidx e ll (k + hs) (hs + c)) /\
  ((data_spec_int cfg = DATA_SPEC_INJECTION -> myrank e = 0%Z -> in_band cfg e k = true ->
    ll = ID_DENS \/ ll = ID_WMOM) ->
   ld m' p (sidx e ll (k + hs) c) = ld m' p (sidx e ll (k + hs) (nx e + c))).
Proof.
  intros Hp Hnx Hm Hl Hk Hc m'. unfold m'.
  assert (Hint : forall c', hs <= c' -> c' < nx e + hs ->
    ld (set_halo_values_x cfg e p m) p (sidx e ll (k + hs) c') = ld m p (sidx e ll (k + hs) c')).
  { intros c' H1 H2.
    rewrite (set_halo_values_x_read cfg e p Hp Hnx m ll k c' Hm Hl Hk) by (unfold hs in *; lia).
    apply (halo_x_read_interior cfg e p Hnx); auto. }
  split.
  - rewrite (Hint (hs + c)) by (unfold hs in *; lia).
    rewrite (set_halo_values_x_read cfg e p Hp Hnx m ll k _ Hm Hl Hk) by (unfold hs in *; lia).
    unfold halo_x_read, xwrap.
    destruct (Nat.ltb_spec (nx e + hs + c) hs); [unfold hs in *; lia|].
    destruct (Nat.ltb_spec (nx e + hs + c) (nx e + hs)); [lia|].
    rewrite andb_false_r. cbv zeta. f_equal. f_equal. lia.
  - intros Hover.
    rewrite (Hint (nx e + c)) by (unfold hs in *; lia).
    rewrite (set_halo_values_x_read cfg e p Hp Hnx m ll k c Hm Hl Hk) by (unfold hs in *; lia).
    unfold halo_x_read, xwrap. cbv zeta.
    destruct (Nat.ltb_spec c hs); [|lia].
    replace (c + nx e) with (nx e + c) by lia.
    destruct (inj_active cfg e && in_band cfg e k && true) eqn:Hact; [|reflexivity].
    apply andb_prop in Hact as (Hact & _). apply andb_prop in Hact as (Hinj & Hband).
    unfold inj_active in Hinj. apply andb_prop in Hinj as (Hds & Hrk).
    apply Z.eqb_eq in Hds. apply Z.eqb_eq in Hrk.
    destruct (Hover Hds Hrk Hband) as [-> | ->]; reflexivity.
Qed.

Lemma set_halo_values_x_periodic_witness :
  let m' := set_halo_values_x (demo_cfg 2) demo_env Pstate alias_mem in
  ld m' Pstate (sidx demo_env 0 (0 + hs) (nx demo_env + hs + 1))
    = ld m' Pstate (sidx demo_env 0 (0 + hs) (hs + 1)) /\
  ((data_spec_int (demo_cfg 2) = DATA_SPEC_INJECTION -> myrank demo_env = 0%Z ->
    in_band (demo_cfg 2) demo_env 0 = true -> 0 = ID_DENS \/ 0 = ID_WMOM) ->
   ld m' Pstate (sidx demo_env 0 (0 + hs) 1)
     = ld m' Pstate (sidx demo_env 0 (0 + hs) (nx demo_env + 1))).
Proof.
  apply (set_halo_values_x_periodic (demo_cfg 2) demo_env Pstate alias_mem 0 0 1).
  - left; reflexivity.
  - simpl; lia.
  - exact alias_mem_wf.
  - unfold NUM_VARS; lia.
  - simpl; lia.
  - unfold hs; lia.
Defined.

(** X7. The inflow of the injection scenario: on rank 0, in every row of
    the band [|z - 3 zlen/4| <= zlen/16], [set_halo_values_x] leaves in the
    two left halo columns an x-momentum of 50 times the full density of
    the cell and a density times potential temperature of 298 times that
    density, stored as a perturbation of the background. *)
Theorem set_halo_values_x_injection_inflow `{A : Arith}
    (cfg : config) (e : env) (p : ptr) (m : mem) (k c : nat) :
  is_state p -> 2 <= nx e -> wf e m ->
  data_spec_int cfg = DATA_SPEC_INJECTION -> myrank e = 0%Z ->
  k < nz e -> in_band cfg e k = true -> c < hs ->
  let m' := set_halo_values_x cfg e p m in
  let rho := fadd (ld m' p (sidx e ID_DENS (k + hs) c)) (at_ (hy_dens_cell e) (k + hs)) in
  ld m' p (sidx e ID_UMOM (k + hs) c) = fmul rho (of_int 50) /\
  ld m' p (sidx e ID_RHOT (k + hs) c)
    = fsub (fmul rho (of_int 298)) (at_ (hy_dens_theta_cell e) (k + hs)).
Proof.
  intros Hp Hnx Hm Hds Hrk Hk Hband Hc m' rho. unfold rho, m'.
  assert (Hact : inj_active cfg e && in_band cfg e k && (c <? hs) = true).
  { unfold inj_active. rewrite Hds, Hrk, Hband.
    destruct (Nat.ltb_spec c hs); [reflexivity | lia]. }
  rewrite !(set_halo_values_x_read cfg e p Hp Hnx m _ k c Hm)
    by (auto; unfold ID_DENS, ID_UMOM, ID_RHOT, NUM_VARS, hs in *; lia).
  unfold halo_x_read. cbv zeta. rewrite Hact. split; reflexivity.
Qed.

(** A heap for the injection scenario: [demo_mem] on the grid of
    [demo_env], whose second row lies in the band. *)
Lemma demo_in_band : in_band (demo_cfg 6) demo_env 1 = true.
Proof.
  unfold in_band, demo_cfg, demo_env, dz, zlen. simpl.
  unfold Rleb.
  match goal with |- context [Rle_dec ?a ?b] => destruct (Rle_dec a b) as [_ | Hn] end;
    [reflexivity|].
  exfalso. apply Hn. rewrite Rdec_neg. calc_IZR.
  match goal with |- (Rabs ?x <= _)%R => replace x with 0%R by lra end.
  rewrite Rabs_R0. lra.
Qed.

Lemma set_halo_values_x_injection_inflow_witness :
  let m' := set_halo_values_x (demo_cfg 6) demo_env Pstate demo_mem in
  let rho := fadd (ld m' Pstate (sidx demo_env ID_DENS (1 + hs) 0))
                  (at_ (hy_dens_cell demo_env) (1 + hs)) in
  ld m' Pstate (sidx demo_env ID_UMOM (1 + hs) 0) = fmul rho (of_int 50) /\
  ld m' Pstate (sidx demo_env ID_RHOT (1 + hs) 0)
    = fsub (fmul rho (of_int 298)) (at_ (hy_dens_theta_cell demo_env) (1 + hs)).
Proof.
  apply (set_halo_values_x_injection_inflow (demo_cfg 6) demo_env Pstate demo_mem 1 0).
  - left; reflexivity.
  - simpl; lia.
  - exact demo_wf.
  - reflexivity.
  - reflexivity.
  - simpl; lia.
  - exact demo_in_band.
  - unfold hs; lia.
Defined.

(** ** The flux and tendency kernels *)

Section KernelResults.
Context `{A : Arith}.
Variable cfg : config.
Variable e : env.
Variable p : ptr.
Hypothesis Hp : is_state p.
Variable dt : F.

(** The flux array the kernels leave. *)
Lemma compute_tendencies_x_flux (m : mem) ll k i :
  wf e m -> ll < NUM_VARS -> k < nz e -> i < nx e + 1 ->
  ld (compute_tendencies_x cfg e p Pflux Ptend dt m) Pflux (fidx e ll k i)
  = flux_x_of cfg e (grid e m p) dt ll k i.
Proof using Hp.
  intros Hm Hl Hk Hi. unfold compute_tendencies_x. cbv zeta. unfold ld.
  rewrite for3_frame by (intros; apply tend_x_body_frame; discriminate).
  destruct (flux_x_loop_good cfg e p Hp dt (fun x Hx => Hx) m Hm) as (_ & Hw & _).
  apply (Hw (k, i, ll)). simpl. auto.
Qed.

Lemma compute_tendencies_z_flux (m : mem) ll k i :
  wf e m -> ll < NUM_VARS -> k < nz e + 1 -> i < nx e ->
  ld (compute_tendencies_z cfg e p Pflux Ptend dt m) Pflux (fidx e ll k i)
  = flux_z_of cfg e (grid e m p) dt ll k i.
Proof using Hp.
  intros Hm Hl Hk Hi. unfold compute_tendencies_z. cbv zeta. unfold ld.
  rewrite for3_frame by (intros; apply tend_z_body_frame; discriminate).
  destruct (flux_z_loop_good cfg e p Hp dt (fun x Hx => Hx) m Hm) as (_ & Hw & _).
  apply (Hw (k, i, ll)). simpl. auto.
Qed.

End KernelResults.

(** X8. [compute_tendencies_x] leaves in [tend], for every variable and
    every interior cell, the negated difference of the fluxes it has
    stored at the right and left interfaces of the cell, divided by
    [dx]. *)
Theorem compute_tendencies_x_is_flux_difference `{A : Arith}
    (cfg : config) (e : env) (p : ptr) (dt : F) (m : mem) (ll k i : nat) :
  is_state p -> wf e m -> ll < NUM_VARS -> k < nz e -> i < nx e ->
  let m' := compute_tendencies_x cfg e p Pflux Ptend dt m in
  ld m' Ptend (tidx e ll k i)
  = fdiv (fneg (fsub (ld m' Pflux (fidx e ll k (i + 1))) (ld m' Pflux (fidx e ll k i))))
         (dx cfg).
Proof.
  intros Hp Hm Hl Hk Hi m'. unfold m'.
  destruct (compute_tendencies_x_spec cfg e p Hp dt m Hm) as (_ & Ht & _).
  rewrite Ht by auto.
  rewrite !(compute_tendencies_x_flux cfg e p Hp dt m) by (auto; lia).
  reflexivity.
Qed.

Lemma compute_tendencies_x_is_flux_difference_witness :
  let m' := compute_tendencies_x (demo_cfg 2) demo_env Pstate Pflux Ptend 1%R alias_mem in
  ld m' Ptend (tidx demo_env 0 0 0)
  = fdiv (fneg (fsub (ld m' Pflux (fidx demo_env 0 0 (0 + 1))) (ld m' Pflux (fidx demo_env 0 0 0))))
         (dx (demo_cfg 2)).
Proof.
  apply (compute_tendencies_x_is_flux_difference (demo_cfg 2) demo_env Pstate 1%R alias_mem 0 0 0).
  - left; reflexivity.
  - exact alias_mem_wf.
  - unfold NUM_VARS; lia.
  - simpl; lia.
  - simpl; lia.
Defined.

(** X9. [compute_tendencies_z] leaves in [tend] the negated difference of
    the fluxes it has stored at the upper and lower interfaces of the
    cell, divided by [dz]; for the z-momentum it then subtracts the
    weight of the density perturbation of the cell, [state[DENS] * grav].
    The state array itself is as before. *)
Theorem compute_tendencies_z_is_flux_difference_and_weight `{A : Arith}
    (cfg : config) (e : env) (p : ptr) (dt : F) (m : mem) (ll k i : nat) :
  is_state p -> wf e m -> ll < NUM_VARS -> k < nz e -> i < nx e ->
  let m' := compute_tendencies_z cfg e p Pflux Ptend dt m in
  let t := fdiv (fneg (fsub (ld m' Pflux (fidx e ll (k + 1) i)) (ld m' Pflux (fidx e ll k i))))
                (dz cfg) in
  ld m' Ptend (tidx e ll k i)
  = (if Nat.eqb ll ID_WMOM
     then fsub t (fmul (ld m' p (sidx e ID_DENS (k + hs) (i + hs))) grav)
     else t)
  /\ buf m' p = buf m p.
Proof.
  intros Hp Hm Hl Hk Hi m' t. unfold t, m'.
  destruct (compute_tendencies_z_spec cfg e p Hp dt m Hm) as (_ & Ht & Hfr).
  assert (Hb : buf (compute_tendencies_z cfg e p Pflux Ptend dt m) p = buf m p).
  { apply Hfr; destruct Hp as [-> | ->]; discriminate. }
  split; [|exact Hb].
  rewrite Ht by auto.
  rewrite !(compute_tendencies_z_flux cfg e p Hp dt m) by (auto; lia).
  assert (Hs : forall j, ld (compute_tendencies_z cfg e p Pflux Ptend dt m) p j = ld m p j).
  { intros j. unfold ld. rewrite Hb. reflexivity. }
  rewrite Hs. reflexivity.
Qed.

Lemma compute_tendencies_z_is_flux_difference_and_weight_witness :
  let m' := compute_tendencies_z (demo_cfg 2) demo_env Pstate Pflux Ptend 1%R alias_mem in
  let t := fdiv (fneg (fsub (ld m' Pflux (fidx demo_env ID_WMOM (0 + 1) 3))
                            (ld m' Pflux (fidx demo_env ID_WMOM 0 3))))
                (dz (demo_cfg 2)) in
  ld m' Ptend (tidx demo_env ID_WMOM 0 3)
  = fsub t (fmul (ld m' Pstate (sidx demo_env ID_DENS (0 + hs) (3 + hs))) grav)
  /\ buf m' Pstate = buf alias_mem Pstate.
Proof.
  apply (compute_tendencies_z_is_flux_difference_and_weight (demo_cfg 2) demo_env Pstate 1%R
           alias_mem ID_WMOM 0 3).
  - left; reflexivity.
  - exact alias_mem_wf.
  - unfold ID_WMOM, NUM_VARS; lia.
  - simpl; lia.
  - simpl; lia.
Defined.

(** X10. Over the exact reals, [compute_tendencies_z] stores a density
    flux of zero on the floor ([k = 0]) and on the lid ([k = nz]), in
    every column: no mass crosses the two rigid boundaries. *)
Theorem compute_tendencies_z_no_mass_flux_through_lid
    (cfg : @config exact) (e : @env exact) (p : ptr) (dt : R) (m : @mem exact) (k i : nat) :
  is_state p -> wf e m -> k = 0 \/ k = nz e -> i < nx e ->
  ld (compute_tendencies_z cfg e p Pflux Ptend dt m) Pflux (fidx e ID_DENS k i) = 0%R.
Proof.
  intros Hp Hm Hk Hi.
  rewrite (compute_tendencies_z_flux cfg e p Hp dt m ID_DENS k i Hm)
    by (try (unfold ID_DENS, NUM_VARS; lia); auto; lia).
  apply flux_z_dens_boundary. exact Hk.
Qed.

Lemma compute_tendencies_z_no_mass_flux_through_lid_witness :
  ld (compute_tendencies_z (demo_cfg 2) demo_env Pstate Pflux Ptend 1%R alias_mem) Pflux
     (fidx demo_env ID_DENS 2 3) = 0%R.
Proof.
  apply (compute_tendencies_z_no_mass_flux_through_lid (demo_cfg 2) demo_env Pstate 1%R
           alias_mem 2 3).
  - left; reflexivity.
  - exact alias_mem_wf.
  - right; reflexivity.
  - simpl; lia.
Defined.

(** ** More on [init] *)

Section InitCopy.
Context `{A : Arith}.
Variable cfg : config.
Variable junk : F.

Local Abbreviation e0 := (init_env cfg junk).
#[local] Arguments st : simpl never.
#[local] Arguments ld : simpl never.
#[local] Arguments sidx : simpl never.

Lemma var_cell_ne k i ll ll' :
  k < nz e0 + 2 * hs -> i < nx e0 + 2 * hs -> ll <> ll' ->
  forall p q : ptr, (p, sidx e0 ll k i) <> (q, sidx e0 ll' k i).
Proof.
  intros Hk Hi Hne p q Heq.
  assert (Hs : sidx e0 ll k i = sidx e0 ll' k i) by congruence.
  apply sidx_inj in Hs as (Hl & _); auto.
Qed.

(** The last loop of a cell of [init] copies its four values. *)
Lemma init_cell_body_copy k i (s : mem * sample) ll :
  k < nz e0 + 2 * hs -> i < nx e0 + 2 * hs -> wf e0 (fst s) -> ll < NUM_VARS ->
  ld (fst (init_cell_body cfg e0 k i s)) Pstate_tmp (sidx e0 ll k i)
  = ld (fst (init_cell_body cfg e0 k i s)) Pstate (sidx e0 ll k i).
Proof.
  intros Hk Hi Hsz Hl. destruct s as [m loc]. cbn [fst] in Hsz. unfold init_cell_body.
  set (m1 := for_ NUM_VARS (fun ll m => st m Pstate (sidx e0 ll k i) (of_int 0)) m).
  assert (H2 : forall q, length (buf (fst (for_ nqpoints (fun kk => for_ nqpoints
                         (fun ii => init_quad_body cfg e0 k i kk ii)) (m1, loc))) q)
                         = block_size e0 q).
  { intros q.
    apply (for_inv (fun s : mem * sample => length (buf (fst s) q) = block_size e0 q)).
    - unfold m1, NUM_VARS. cbn [for_ fst]. rewrite !length_buf_st. apply Hsz.
    - intros kk s1 _ Hs1.
      apply (for_inv (fun s : mem * sample => length (buf (fst s) q) = block_size e0 q));
        [exact Hs1|].
      intros ii s2 _ Hs2. destruct (init_quad_body_off cfg junk k i kk ii s2) as (L & _).
      rewrite L. exact Hs2. }
  destruct (for_ nqpoints _ (m1, loc)) as [m2 loc2]. cbn [fst] in H2.
  unfold NUM_VARS. cbn [for_ fst].
  assert (HT : forall j j' : nat, (Pstate_tmp, j) <> (Pstate, j'))
    by (intros j j' Heq; discriminate).
  assert (Hlt : forall l, l < 4 -> sidx e0 l k i < length (buf m2 Pstate_tmp)).
  { intros l Hl'. rewrite H2. apply sidx_lt; auto. right; reflexivity. }
  rewrite !(ld_st_ne _ Pstate_tmp _ _ Pstate) by apply HT.
  unfold NUM_VARS in Hl.
  destruct ll as [|[|[|[|ll]]]]; try lia.
  - rewrite !(ld_st_ne _ Pstate_tmp (sidx e0 _ k i) _ Pstate_tmp (sidx e0 0 k i))
      by (apply var_cell_ne; auto).
    rewrite ld_st_eq by (apply Hlt; lia). reflexivity.
  - rewrite !(ld_st_ne _ Pstate_tmp (sidx e0 _ k i) _ Pstate_tmp (sidx e0 1 k i))
      by (apply var_cell_ne; auto).
    rewrite ld_st_eq by (rewrite !length_buf_st; apply Hlt; lia).
    rewrite ?(ld_st_ne _ Pstate_tmp _ _ Pstate) by apply HT. reflexivity.
  - rewrite !(ld_st_ne _ Pstate_tmp (sidx e0 _ k i) _ Pstate_tmp (sidx e0 2 k i))
      by (apply var_cell_ne; auto).
    rewrite ld_st_eq by (rewrite !length_buf_st; apply Hlt; lia).
    rewrite ?(ld_st_ne _ Pstate_tmp _ _ Pstate) by apply HT. reflexivity.
  - rewrite ld_st_eq by (rewrite !length_buf_st; apply Hlt; lia).
    rewrite ?(ld_st_ne _ Pstate_tmp _ _ Pstate) by apply HT. reflexivity.
Qed.

Lemma init_cell_body_keeps k i k' i' (s : mem * sample) q ll :
  k < nz e0 + 2 * hs -> i < nx e0 + 2 * hs ->
  k' < nz e0 + 2 * hs -> i' < nx e0 + 2 * hs -> (k', i') <> (k, i) ->
  ld (fst (init_cell_body cfg e0 k i s)) q (sidx e0 ll k' i') = ld (fst s) q (sidx e0 ll k' i').
Proof.
  intros Hk Hi Hk' Hi' Hne.
  destruct (init_cell_body_off cfg junk k i s) as (_ & Hf). apply Hf.
  intros (l2 & _ & Heq). apply sidx_inj in Heq as (_ & -> & ->); auto.
Qed.

Lemma init_cell_body_wf k i (s : mem * sample) :
  wf e0 (fst s) -> wf e0 (fst (init_cell_body cfg e0 k i s)).
Proof.
  intros Hsz q. destruct (init_cell_body_off cfg junk k i s) as (Hl & _).
  rewrite Hl. apply Hsz.
Qed.

Lemma init_state_loop_copy (junk_loc : sample) ll k i :
  ll < NUM_VARS -> k < nz e0 + 2 * hs -> i < nx e0 + 2 * hs ->
  ld (fst (init_state_loop cfg junk junk_loc)) Pstate_tmp (sidx e0 ll k i)
  = ld (fst (init_state_loop cfg junk junk_loc)) Pstate (sidx e0 ll k i).
Proof.
  intros Hl Hk Hi. unfold init_state_loop.
  set (rows_done := fun (n : nat) (s : mem * sample) =>
         wf e0 (fst s) /\
         forall k' i', k' < n -> k' < nz e0 + 2 * hs -> i' < nx e0 + 2 * hs ->
           ld (fst s) Pstate_tmp (sidx e0 ll k' i') = ld (fst s) Pstate (sidx e0 ll k' i')).
  assert (Hall : rows_done (nz e0 + 2 * hs)
            (for_ (nz e0 + 2 * hs)
               (fun k => for_ (nx e0 + 2 * hs) (fun i => init_cell_body cfg e0 k i))
               (init_mem cfg junk, junk_loc))).
  { apply (for_inv_idx rows_done).
    - split; [|intros; lia].
      intros q. unfold init_mem, block_size, NUM_VARS, hs. simpl.
      destruct q; simpl; rewrite length_replicate; lia.
    - intros kr s1 Hkr (Hsz1 & Hz1).
      set (cols_done := fun (n : nat) (s : mem * sample) =>
             wf e0 (fst s) /\
             (forall k' i', k' < kr -> k' < nz e0 + 2 * hs -> i' < nx e0 + 2 * hs ->
                ld (fst s) Pstate_tmp (sidx e0 ll k' i') = ld (fst s) Pstate (sidx e0 ll k' i')) /\
             (forall i', i' < n -> i' < nx e0 + 2 * hs ->
                ld (fst s) Pstate_tmp (sidx e0 ll kr i') = ld (fst s) Pstate (sidx e0 ll kr i'))).
      assert (Hrow : cols_done (nx e0 + 2 * hs)
                (for_ (nx e0 + 2 * hs) (fun i => init_cell_body cfg e0 kr i) s1)).
      { apply (for_inv_idx cols_done).
        - split; [exact Hsz1|]. split; [exact Hz1|]. intros; lia.
        - intros ic s2 Hic (Hsz2 & Hz2 & Hc2).
          split; [apply init_cell_body_wf; exact Hsz2|]. split.
          + intros k' i' Hk' Hk'' Hi'.
            rewrite !init_cell_body_keeps; auto; intros Heq; injection Heq as -> ->; lia.
          + intros i' Hi' Hi''. destruct (decide (i' = ic)) as [-> | Hne].
            * apply init_cell_body_copy; auto.
            * rewrite !init_cell_body_keeps; auto;
                try (intros Heq; injection Heq as ->; contradiction).
              apply Hc2; lia. }
      destruct Hrow as (Hsz3 & Hz3 & Hc3). split; [exact Hsz3|].
      intros k' i' Hk' Hk'' Hi'. destruct (decide (k' = kr)) as [-> | Hne].
      + apply Hc3; auto.
      + apply Hz3; auto. lia. }
  destruct Hall as (_ & Hz). apply Hz; auto.
Qed.

End InitCopy.

(** X11. [init] leaves in [state_tmp] a copy of [state]: the two arrays
    are equal cell by cell, halo cells included, in every scenario and
    every arithmetic. *)
Theorem init_copies_state_to_state_tmp `{A : Arith}
    (cfg : config) (junk : F) (junk_loc : sample) :
  buf (g_mem (init cfg junk junk_loc)) Pstate_tmp = buf (g_mem (init cfg junk junk_loc)) Pstate.
Proof.
  pose proof (init_wf cfg junk junk_loc) as Hw.
  assert (HT : is_state Pstate_tmp) by (right; reflexivity).
  apply (nth_ext _ _ (of_int 0) (of_int 0)).
  - rewrite !Hw. reflexivity.
  - intros j Hj. rewrite Hw in Hj.
    destruct (state_cell _ Pstate_tmp j HT Hj) as (ll & r & i & Hl & Hr & Hi & ->).
    revert Hr Hi. rewrite init_unfold. cbv zeta. cbn [g_env g_mem nx nz]. intros Hr Hi.
    apply (init_state_loop_copy cfg junk junk_loc ll r i Hl Hr Hi).
Qed.

Section InitInterfaces.
Context `{A : Arith}.
Variable cfg : config.
Variable junk : F.
Variable junk_loc : sample.
Hypothesis Hknown : known_data_spec (data_spec_int cfg).

Local Abbreviation e0 := (init_env cfg junk).

(** The scenario at the height of interface [k]. *)
Definition hy_int_sample (k : nat) : sample :=
  scenario cfg (of_int 0) (fmul (of_int (Z.of_nat (k_beg e0 + k))) (dz cfg)) junk_loc.

(** The cell loop leaves the three interface profiles alone. *)
Lemma hy_cell_row_ints k (s : hydro * sample) :
  h_dens_int (fst (hy_cell_row cfg e0 k s)) = h_dens_int (fst s) /\
  h_dens_theta_int (fst (hy_cell_row cfg e0 k s)) = h_dens_theta_int (fst s) /\
  h_pressure_int (fst (hy_cell_row cfg e0 k s)) = h_pressure_int (fst s).
Proof.
  destruct s as [h loc]. unfold hy_cell_row.
  apply (for_inv (fun s' : hydro * sample =>
           h_dens_int (fst s') = h_dens_int h /\
           h_dens_theta_int (fst s') = h_dens_theta_int h /\
           h_pressure_int (fst s') = h_pressure_int h)).
  - repeat split; reflexivity.
  - intros kk [h' loc'] _ H. exact H.
Qed.

(** What one iteration of the interface loop stores. *)
Lemma hy_int_body_spec k (s : hydro * sample) (n : nat) :
  length (h_dens_int (fst s)) = n -> length (h_dens_theta_int (fst s)) = n ->
  length (h_pressure_int (fst s)) = n -> k < n ->
  let s' := hy_int_body cfg e0 k s in
  let hr := s_hr (hy_int_sample k) in
  let ht := s_ht (hy_int_sample k) in
  (length (h_dens_int (fst s')) = n /\ length (h_dens_theta_int (fst s')) = n /\
   length (h_pressure_int (fst s')) = n) /\
  (at_ (h_dens_int (fst s')) k = hr /\
   at_ (h_dens_theta_int (fst s')) k = fmul hr ht /\
   at_ (h_pressure_int (fst s')) k = fmul C0 (fpow (fmul hr ht) gamm)) /\
  (forall j, j <> k ->
     at_ (h_dens_int (fst s')) j = at_ (h_dens_int (fst s)) j /\
     at_ (h_dens_theta_int (fst s')) j = at_ (h_dens_theta_int (fst s)) j /\
     at_ (h_pressure_int (fst s')) j = at_ (h_pressure_int (fst s)) j).
Proof using Hknown.
  destruct s as [h loc]. cbn [fst]. intros L1 L2 L3 Hk.
  unfold hy_int_body. cbv zeta.
  rewrite (scenario_known cfg Hknown _ _ loc junk_loc).
  fold (hy_int_sample k).
  cbn [fst h_dens_int h_dens_theta_int h_pressure_int].
  split; [|split].
  - rewrite !length_insert. auto.
  - rewrite !at_insert_eq by lia. auto.
  - intros j Hj. rewrite !at_insert_ne by auto. auto.
Qed.

Lemma init_hy_ints k :
  k < nz_glob cfg + 1 ->
  let e := g_env (init cfg junk junk_loc) in
  let hr := s_hr (hy_int_sample k) in
  let ht := s_ht (hy_int_sample k) in
  at_ (hy_dens_int e) k = hr /\
  at_ (hy_dens_theta_int e) k = fmul hr ht /\
  at_ (hy_pressure_int e) k = fmul C0 (fpow (fmul hr ht) gamm).
Proof using Hknown.
  intros Hk. cbv zeta. rewrite init_unfold. cbv zeta.
  cbn [g_env hy_dens_int hy_dens_theta_int hy_pressure_int].
  unfold init_hydro_loops. cbv zeta.
  set (n := nz_glob cfg + 1).
  match goal with |- context [for_ (nz e0 + 1) _ ?s0] => set (s1 := s0) end.
  assert (H1 : length (h_dens_int (fst s1)) = n /\ length (h_dens_theta_int (fst s1)) = n /\
               length (h_pressure_int (fst s1)) = n).
  { unfold s1.
    apply (for_inv (fun s : hydro * sample =>
             length (h_dens_int (fst s)) = n /\ length (h_dens_theta_int (fst s)) = n /\
             length (h_pressure_int (fst s)) = n)).
    - cbn [fst h_dens_int h_dens_theta_int h_pressure_int hy_dens_int hy_dens_theta_int
           hy_pressure_int init_env].
      rewrite !length_replicate. auto.
    - intros c s _ (L1 & L2 & L3).
      destruct (hy_cell_row_ints c s) as (E1 & E2 & E3). rewrite E1, E2, E3. auto. }
  set (done := fun (c : nat) (s : hydro * sample) =>
         (length (h_dens_int (fst s)) = n /\ length (h_dens_theta_int (fst s)) = n /\
          length (h_pressure_int (fst s)) = n) /\
         forall j, j < c -> j < n ->
           at_ (h_dens_int (fst s)) j = s_hr (hy_int_sample j) /\
           at_ (h_dens_theta_int (fst s)) j
             = fmul (s_hr (hy_int_sample j)) (s_ht (hy_int_sample j)) /\
           at_ (h_pressure_int (fst s)) j
             = fmul C0 (fpow (fmul (s_hr (hy_int_sample j)) (s_ht (hy_int_sample j))) gamm)).
  assert (H2 : done n (for_ (nz e0 + 1) (fun k => hy_int_body cfg e0 k) s1)).
  { change (nz e0 + 1) with n. apply (for_inv_idx done).
    - split; [exact H1|]. intros; lia.
    - intros c s Hc ((L1 & L2 & L3) & Hz).
      destruct (hy_int_body_spec c s n L1 L2 L3 Hc) as (HL & Hv & Hf).
      split; [exact HL|].
      intros j Hj Hjn. destruct (decide (j = c)) as [-> | Hne].
      + exact Hv.
      + destruct (Hf j Hne) as (F1 & F2 & F3). rewrite F1, F2, F3. apply Hz; lia. }
  destruct H2 as (_ & Hz). apply Hz; unfold n; lia.
Qed.

End InitInterfaces.

(** X12. What [init] stores in the three interface profiles for a known
    scenario: for every interface [k] in [0, nz], [hy_dens_int[k]] is the
    scenario's background density [hr] at the height [z = (k_beg + k)*dz]
    (with [x = 0]), [hy_dens_theta_int[k]] is [hr*ht] there, and
    [hy_pressure_int[k]] is [C0 * pow(hr*ht, gamm)]. *)
Theorem init_interface_profiles `{A : Arith}
    (cfg : config) (junk : F) (junk_loc : sample) (k : nat) :
  known_data_spec (data_spec_int cfg) -> k < nz_glob cfg + 1 ->
  let e := g_env (init cfg junk junk_loc) in
  let z := fmul (of_int (Z.of_nat (0 + k))) (dz cfg) in
  let hr := s_hr (scenario cfg (of_int 0) z junk_loc) in
  let ht := s_ht (scenario cfg (of_int 0) z junk_loc) in
  at_ (hy_dens_int e) k = hr /\
  at_ (hy_dens_theta_int e) k = fmul hr ht /\
  at_ (hy_pressure_int e) k = fmul C0 (fpow (fmul hr ht) gamm).
Proof.
  intros Hk Hlt. cbv zeta. apply (init_hy_ints cfg junk junk_loc Hk k Hlt).
Qed.

Lemma init_interface_profiles_witness :
  let cfg := demo_cfg 2 in
  let e := g_env (init cfg 0%R (Sample exact 0 0 0 0 0 0)%R) in
  let z := (IZR (Z.of_nat (0 + 1)) * dz cfg)%R in
  let hr := s_hr (scenario cfg 0%R z (Sample exact 0 0 0 0 0 0)%R) in
  let ht := s_ht (scenario cfg 0%R z (Sample exact 0 0 0 0 0 0)%R) in
  at_ (hy_dens_int e) 1 = hr /\
  at_ (hy_dens_theta_int e) 1 = (hr * ht)%R /\
  at_ (hy_pressure_int e) 1 = (C0 * Rpower (hr * ht) gamm)%R.
Proof.
  apply (init_interface_profiles (demo_cfg 2) 0%R (Sample exact 0 0 0 0 0 0)%R 1).
  - right; left; reflexivity.
  - simpl; lia.
Defined.

(** X13. The time step [init] chooses, over the exact reals and on a grid
    with at least one column and one row: it is positive, it is
    [cfl * min(dx, dz) / max_speed], and so a signal of speed [max_speed]
    crosses at most [cfl] cells per step in either direction. *)
Theorem init_time_step_obeys_cfl
    (cfg : @config exact) (junk : R) (junk_loc : @sample exact) :
  1 <= nx_glob cfg -> 1 <= nz_glob cfg ->
  let dt := g_dt (init cfg junk junk_loc) in
  (0 < dt)%R /\
  (dt = Rmin (dx cfg) (dz cfg) / max_speed * cfl)%R /\
  (dt * max_speed <= cfl * dx cfg)%R /\ (dt * max_speed <= cfl * dz cfg)%R.
Proof.
  intros Hnx Hnz dt. unfold dt. rewrite init_unfold. cbv zeta. cbn [g_dt].
  assert (Hx : (0 < dx cfg)%R).
  { unfold dx, xlen. simpl. apply Rdiv_lt_0_compat; [lra|].
    apply IZR_lt. lia. }
  assert (Hz : (0 < dz cfg)%R).
  { unfold dz, zlen. simpl. apply Rdiv_lt_0_compat; [lra|].
    apply IZR_lt. lia. }
  assert (Hm : @dmin exact (dx cfg) (dz cfg) = Rmin (dx cfg) (dz cfg)).
  { unfold dmin. change (@flt exact) with Rltb. unfold Rltb.
    destruct (Rlt_dec (dx cfg) (dz cfg)) as [Hlt | Hge].
    - symmetry. apply Rmin_left. apply Rlt_le. exact Hlt.
    - symmetry. apply Rmin_right. apply Rnot_lt_le. exact Hge. }
  rewrite Hm.
  assert (Hc : @cfl exact = (3 / 2)%R).
  { unfold cfl. simpl. rewrite Rdec_neg. calc_IZR. lra. }
  assert (Hs : @max_speed exact = 450%R) by reflexivity.
  rewrite Hc, Hs.
  pose proof (Rmin_l (dx cfg) (dz cfg)) as Hl.
  pose proof (Rmin_r (dx cfg) (dz cfg)) as Hr.
  assert (Hp : (0 < Rmin (dx cfg) (dz cfg))%R) by (apply Rmin_glb_lt; assumption).
  clear Hm Hc Hs.
  set (d := Rmin (dx cfg) (dz cfg)) in *. set (a := dx cfg) in *. set (b := dz cfg) in *.
  clearbody d a b.
  change (0 < d / 450 * (3 / 2) /\ d / 450 * (3 / 2) = d / 450 * (3 / 2) /\
          d / 450 * (3 / 2) * 450 <= 3 / 2 * a /\ d / 450 * (3 / 2) * 450 <= 3 / 2 * b)%R.
  repeat split; lra.
Qed.

Lemma init_time_step_obeys_cfl_witness :
  let dt := g_dt (init (demo_cfg 2) 0%R (Sample exact 0 0 0 0 0 0)%R) in
  (0 < dt)%R /\
  (dt = Rmin (dx (demo_cfg 2)) (dz (demo_cfg 2)) / max_speed * cfl)%R /\
  (dt * max_speed <= cfl * dx (demo_cfg 2))%R /\ (dt * max_speed <= cfl * dz (demo_cfg 2))%R.
Proof.
  apply (init_time_step_obeys_cfl (demo_cfg 2) 0%R (Sample exact 0 0 0 0 0 0)%R).
  - simpl; lia.
  - simpl; lia.
Defined.

(** ** The time loop *)

Section DriverFacts.
Context `{A : Arith}.
Variable cfg : config.

(** Without output the NetCDF writer is never consulted. *)
Lemma time_step_no_output (ncmpi ncmpi' : nat -> bool) (e : env) (r : run) :
  fle (of_int 0) (output_freq cfg) = false ->
  time_step cfg ncmpi e r = time_step cfg ncmpi' e r.
Proof.
  intros Hf. unfold time_step. cbv zeta.
  destruct (perform_timestep cfg e Pstate Pstate_tmp Pflux Ptend _ _) as [m sw].
  rewrite Hf. reflexivity.
Qed.

Lemma time_loop_no_output (ncmpi ncmpi' : nat -> bool) (fuel : nat) (e : env) (r : run) :
  fle (of_int 0) (output_freq cfg) = false ->
  time_loop cfg ncmpi fuel e r = time_loop cfg ncmpi' fuel e r.
Proof.
  intros Hf. revert r. induction fuel as [|fuel IH]; intros r; simpl; [reflexivity|].
  destruct (flt (r_etime r) (sim_time cfg)); [|reflexivity].
  rewrite (time_step_no_output ncmpi ncmpi' e r Hf).
  destruct (time_step cfg ncmpi' e r) as [r' | code]; [apply IH | reflexivity].
Qed.

Lemma main_from_no_output (ncmpi ncmpi' : nat -> bool) (fuel : nat) (g : started) :
  fle (of_int 0) (output_freq cfg) = false ->
  main_from cfg ncmpi fuel g = main_from cfg ncmpi' fuel g.
Proof.
  intros Hf. unfold main_from. cbv zeta.
  destruct (reductions cfg (g_env g) (g_mem g)) as [mass0 te0].
  rewrite Hf. rewrite (time_loop_no_output ncmpi ncmpi' fuel _ _ Hf). reflexivity.
Qed.

End DriverFacts.

(** X14. With a negative [output_freq] the program writes no output: the
    NetCDF library has no influence on the run, and the run never ends in
    [exit(-1)]. *)
Theorem negative_output_freq_writes_nothing `{A : Arith}
    (cfg : config) (ncmpi ncmpi' : nat -> bool) (fuel : nat) (junk : F) (junk_loc : sample) :
  fle (of_int 0) (output_freq cfg) = false ->
  main cfg ncmpi fuel junk junk_loc = main cfg ncmpi' fuel junk junk_loc /\
  forall code, main cfg ncmpi fuel junk junk_loc <> Exited code.
Proof.
  intros Hf. rewrite !main_unfold. split.
  - apply main_from_no_output. exact Hf.
  - intros code Hex.
    rewrite (main_from_no_output cfg ncmpi (fun _ => true) fuel _ Hf) in Hex.
    pose proof (main_from_exit cfg (fun _ => true) fuel (init cfg junk junk_loc)) as H.
    rewrite Hex in H. destruct H as (_ & n & Hn). discriminate.
Qed.

Lemma negative_output_freq_writes_nothing_witness :
  main (demo_cfg 2) (fun _ => false) 3 0%R (Sample exact 0 0 0 0 0 0)%R
  = main (demo_cfg 2) (fun _ => true) 3 0%R (Sample exact 0 0 0 0 0 0)%R /\
  forall code, main (demo_cfg 2) (fun _ => false) 3 0%R (Sample exact 0 0 0 0 0 0)%R
               <> Exited code.
Proof.
  apply (negative_output_freq_writes_nothing (demo_cfg 2) (fun _ => false) (fun _ => true) 3
           0%R (Sample exact 0 0 0 0 0 0)%R).
  change (Rleb 0 (-1) = false). unfold Rleb. destruct (Rle_dec 0 (-1)); [lra | reflexivity].
Defined.

Section ExactDriver.
Variable cfg : @config exact.
Variable ncmpi : nat -> bool.
Variable e : @env exact.

(** The step the loop takes from [r]: the stored [dt], or what is left up
    to [sim_time] when that is less. *)
Definition clipped_dt (r : @run exact) : R :=
  if Rltb (sim_time cfg) (r_etime r + r_dt r) then (sim_time cfg - r_etime r)%R else r_dt r.

Lemma time_step_clock (r r' : @run exact) :
  time_step cfg ncmpi e r = inl r' ->
  r_etime r' = (r_etime r + clipped_dt r)%R /\ r_dt r' = clipped_dt r.
Proof.
  unfold time_step. cbv zeta. fold (clipped_dt r).
  change (@flt exact (sim_time cfg) (@fadd exact (r_etime r) (r_dt r)))
    with (Rltb (sim_time cfg) (r_etime r + r_dt r)).
  change (if Rltb (sim_time cfg) (r_etime r + r_dt r)
          then @fsub exact (sim_time cfg) (r_etime r) else r_dt r) with (clipped_dt r).
  destruct (perform_timestep cfg e Pstate Pstate_tmp Pflux Ptend _ _) as [m sw].
  destruct (_ && _).
  - unfold output. cbn [r_num_out r_mem r_dt r_etime r_output_counter r_direction_switch].
    destruct (ncmpi (r_num_out r)); intros H; [|discriminate].
    injection H as <-. split; reflexivity.
  - intros H. injection H as <-. split; reflexivity.
Qed.

Lemma clipped_dt_le (r : @run exact) :
  (r_etime r < sim_time cfg)%R ->
  (r_etime r + clipped_dt r <= sim_time cfg)%R /\
  (0 < r_dt r -> 0 < clipped_dt r)%R /\
  (clipped_dt r = r_dt r \/ r_etime r + clipped_dt r = sim_time cfg)%R.
Proof.
  intros Hlt. unfold clipped_dt, Rltb.
  destruct (Rlt_dec (sim_time cfg) (r_etime r + r_dt r)) as [Hc | Hc].
  - split; [lra|]. split; [intros; lra|]. right. lra.
  - split; [lra|]. split; [intros; assumption|]. left. reflexivity.
Qed.

Lemma time_loop_clock (fuel : nat) (r r' : @run exact) :
  (r_etime r <= sim_time cfg)%R ->
  time_loop cfg ncmpi fuel e r = Some (inl r') -> r_etime r' = sim_time cfg.
Proof.
  revert r. induction fuel as [|fuel IH]; intros r Hle; simpl;
    change (@flt exact (r_etime r) (sim_time cfg)) with (Rltb (r_etime r) (sim_time cfg));
    unfold Rltb; destruct (Rlt_dec (r_etime r) (sim_time cfg)) as [Hlt | Hge].
  - discriminate.
  - intros H. injection H as <-. lra.
  - destruct (time_step cfg ncmpi e r) as [r1 | code] eqn:Hstep; [|discriminate].
    destruct (time_step_clock r r1 Hstep) as (He & _).
    destruct (clipped_dt_le r Hlt) as (Hc & _).
    apply IH. rewrite He. exact Hc.
  - intros H. injection H as <-. lra.
Qed.

(** [n] steps of the stored length reach [sim_time]: [n] iterations
    suffice. *)
Lemma time_loop_fuel (n : nat) (r : @run exact) :
  (0 < r_dt r)%R -> (sim_time cfg - r_etime r <= INR n * r_dt r)%R ->
  time_loop cfg ncmpi n e r <> None.
Proof.
  revert r. induction n as [|n IH]; intros r Hdt Hn; simpl;
    change (@flt exact (r_etime r) (sim_time cfg)) with (Rltb (r_etime r) (sim_time cfg));
    unfold Rltb; destruct (Rlt_dec (r_etime r) (sim_time cfg)) as [Hlt | Hge];
    try discriminate.
  - simpl in Hn. lra.
  - destruct (time_step cfg ncmpi e r) as [r1 | code] eqn:Hstep; [|discriminate].
    destruct (time_step_clock r r1 Hstep) as (He & Hd).
    destruct (clipped_dt_le r Hlt) as (Hc & Hpos & Hcase).
    apply IH.
    + rewrite Hd. apply Hpos. exact Hdt.
    + rewrite He, Hd. rewrite S_INR in Hn.
      assert (Hn0 : (0 <= INR n)%R) by apply pos_INR.
      destruct Hcase as [Heq | Heq].
      * rewrite Heq. lra.
      * rewrite Heq. specialize (Hpos Hdt). nra.
Qed.

Lemma time_loop_total (r : @run exact) :
  (0 < r_dt r)%R -> exists fuel, time_loop cfg ncmpi fuel e r <> None.
Proof.
  intros Hdt.
  set (x := ((sim_time cfg - r_etime r) / r_dt r)%R).
  destruct (archimed x) as (Hup & _).
  exists (Z.to_nat (up x)). apply time_loop_fuel; [exact Hdt|].
  assert (Hx : (sim_time cfg - r_etime r = x * r_dt r)%R) by (unfold x; field; lra).
  rewrite Hx. apply Rmult_le_compat_r; [lra|].
  destruct (Z.le_gt_cases 0 (up x)) as [Hz | Hz].
  - rewrite INR_IZR_INZ, Z2Nat.id by exact Hz. lra.
  - assert (IZR (up x) < 0)%R by (apply IZR_lt; lia).
    pose proof (pos_INR (Z.to_nat (up x))). lra.
Qed.

End ExactDriver.

(** X15. Over the exact reals the time loop stops exactly at [sim_time]:
    started at or before [sim_time], whenever it ends without [exit] the
    elapsed time is [sim_time], the last step having been shortened to
    fit. *)
Theorem time_loop_ends_at_sim_time
    (cfg : @config exact) (ncmpi : nat -> bool) (fuel : nat) (e : @env exact)
    (r r' : @run exact) :
  (r_etime r <= sim_time cfg)%R ->
  time_loop cfg ncmpi fuel e r = Some (inl r') ->
  r_etime r' = sim_time cfg.
Proof. apply time_loop_clock. Qed.

(** A run of one step: the stored step of 3 overshoots [sim_time = 1] and
    is shortened to [sim_time - etime]. *)
Definition clipped_run : @run exact := Run exact alias_mem 3%R 0%R 0%R 0 1.

Lemma Rltb_true (a b : R) : (a < b)%R -> Rltb a b = true.
Proof. intros H. unfold Rltb. destruct (Rlt_dec a b); [reflexivity | contradiction]. Qed.

Lemma Rltb_false (a b : R) : ~ (a < b)%R -> Rltb a b = false.
Proof. intros H. unfold Rltb. destruct (Rlt_dec a b); [contradiction | reflexivity]. Qed.

Lemma Rleb_false (a b : R) : ~ (a <= b)%R -> Rleb a b = false.
Proof. intros H. unfold Rleb. destruct (Rle_dec a b); [contradiction | reflexivity]. Qed.

Lemma time_loop_ends_at_sim_time_witness :
  exists r',
    time_loop (demo_cfg 2) (fun _ => true) 1 demo_env clipped_run = Some (inl r')
    /\ r_dt r' = (sim_time (demo_cfg 2) - 0)%R
    /\ r_etime r' = sim_time (demo_cfg 2).
Proof.
  set (P := perform_timestep (demo_cfg 2) demo_env Pstate Pstate_tmp Pflux Ptend (1 - 0)%R
              (alias_mem, 1%Z)).
  set (r1 := Run exact (fst P) (1 - 0)%R (0 + (1 - 0))%R (0 + (1 - 0))%R 0 (snd P)).
  assert (Hstep : time_step (demo_cfg 2) (fun _ => true) demo_env clipped_run = inl r1).
  { unfold time_step. cbv zeta.
    cbn [r_etime r_dt r_mem r_direction_switch r_output_counter r_num_out clipped_run
         sim_time output_freq demo_cfg].
    change (@flt exact 1%R (@fadd exact 0%R 3%R)) with (Rltb 1 (0 + 3)).
    rewrite Rltb_true by lra.
    change (@fsub exact 1%R 0%R) with (1 - 0)%R. fold P.
    rewrite (surjective_pairing P).
    change (@fle exact (@of_int exact 0) (-1)%R) with (Rleb (IZR 0) (-1)).
    rewrite Rleb_false by lra. reflexivity. }
  assert (Hloop : time_loop (demo_cfg 2) (fun _ => true) 1 demo_env clipped_run
                  = Some (inl r1)).
  { cbn [time_loop].
    change (@flt exact (r_etime clipped_run) (sim_time (demo_cfg 2))) with (Rltb 0 1).
    rewrite Rltb_true by lra. rewrite Hstep.
    change (@flt exact (r_etime r1) (sim_time (demo_cfg 2))) with (Rltb (0 + (1 - 0)) 1).
    rewrite Rltb_false by lra. reflexivity. }
  exists r1. split; [exact Hloop|]. split; [reflexivity|].
  apply (time_loop_ends_at_sim_time (demo_cfg 2) (fun _ => true) 1 demo_env clipped_run r1).
  - simpl. lra.
  - exact Hloop.
Defined.

(** X16. Over the exact reals, on a grid with at least one column and one
    row, the program terminates: for every configuration there is a number
    of loop iterations within which [main] ends, by returning or by
    [exit]. *)
Theorem main_terminates
    (cfg : @config exact) (ncmpi : nat -> bool) (junk : R) (junk_loc : @sample exact) :
  1 <= nx_glob cfg -> 1 <= nz_glob cfg ->
  exists fuel, main cfg ncmpi fuel junk junk_loc <> OutOfFuel.
Proof.
  intros Hnx Hnz.
  assert (Hdt : (0 < g_dt (init cfg junk junk_loc))%R).
  { rewrite init_unfold. cbv zeta. cbn [g_dt].
    assert (Hx : (0 < dx cfg)%R).
    { unfold dx, xlen. simpl. apply Rdiv_lt_0_compat; [lra|]. apply IZR_lt. lia. }
    assert (Hz : (0 < dz cfg)%R).
    { unfold dz, zlen. simpl. apply Rdiv_lt_0_compat; [lra|]. apply IZR_lt. lia. }
    assert (Hm : (0 < @dmin exact (dx cfg) (dz cfg))%R).
    { unfold dmin. destruct (flt (dx cfg) (dz cfg)); assumption. }
    assert (Hc : @cfl exact = (3 / 2)%R).
    { unfold cfl. simpl. rewrite Rdec_neg. calc_IZR. lra. }
    rewrite Hc. set (d := @dmin exact (dx cfg) (dz cfg)) in *. clearbody d.
    change (0 < d / 450 * (3 / 2))%R. lra. }
  set (g := init cfg junk junk_loc) in *.
  set (r0 := Run exact (g_mem g) (g_dt g) (g_etime g) (g_output_counter g) 0 1).
  assert (Hloop : forall r : @run exact, r_dt r = g_dt g ->
            exists fuel, time_loop cfg ncmpi fuel (g_env g) r <> None).
  { intros r Hr. apply time_loop_total. rewrite Hr. exact Hdt. }
  assert (Hmain : forall fuel, main cfg ncmpi fuel junk junk_loc = main_from cfg ncmpi fuel g)
    by (intros; apply main_unfold).
  unfold main_from in Hmain. cbv zeta in Hmain. fold r0 in Hmain.
  destruct (reductions cfg (g_env g) (g_mem g)) as [mass0 te0].
  destruct (fle (of_int 0) (output_freq cfg)).
  - destruct (output ncmpi r0) as [r1 | code] eqn:Hout.
    + assert (Hr1 : r_dt r1 = g_dt g).
      { unfold output in Hout. destruct (ncmpi (r_num_out r0)); [|discriminate].
        injection Hout as <-. reflexivity. }
      destruct (Hloop r1 Hr1) as (fuel & Hfuel). exists fuel. rewrite Hmain.
      destruct (time_loop cfg ncmpi fuel (g_env g) r1) as [[r2 | code] |];
        [|discriminate|contradiction].
      destruct (reductions cfg (g_env g) (r_mem r2)). discriminate.
    + exists 0. rewrite Hmain. discriminate.
  - destruct (Hloop r0 eq_refl) as (fuel & Hfuel). exists fuel. rewrite Hmain.
    destruct (time_loop cfg ncmpi fuel (g_env g) r0) as [[r2 | code] |];
      [|discriminate|contradiction].
    destruct (reductions cfg (g_env g) (r_mem r2)). discriminate.
Qed.

Lemma main_terminates_witness :
  exists fuel, main (demo_cfg 2) (fun _ => true) fuel 0%R (Sample exact 0 0 0 0 0 0)%R
               <> OutOfFuel.
Proof.
  apply (main_terminates (demo_cfg 2) (fun _ => true) 0%R (Sample exact 0 0 0 0 0 0)%R).
  - simpl; lia.
  - simpl; lia.
Defined.

(** ** What a stage reads and writes *)

Section StageFrame.
Context `{A : Arith}.
Variable cfg : config.
Variable e : env.

Lemma for_frame (n : nat) (body : nat -> mem -> mem) (q : ptr) (m : mem) :
  (forall a m', buf (body a m') q = buf m' q) -> buf (for_ n body m) q = buf m q.
Proof.
  intros Hb. apply (for_inv (fun m' => buf m' q = buf m q)); [reflexivity|].
  intros a m1 _ H1. rewrite Hb. exact H1.
Qed.

Lemma set_halo_values_x_other (p q : ptr) (m : mem) :
  q <> p -> buf (set_halo_values_x cfg e p m) q = buf m q.
Proof.
  intros Hq. unfold set_halo_values_x. cbv zeta.
  assert (H1 : forall m', buf (for_ NUM_VARS (fun ll => for_ (nz e)
                 (fun k => halo_x_body e p ll k)) m') q = buf m' q).
  { intros m'. apply for2_frame. intros ll k m2. unfold halo_x_body. cbv zeta.
    rewrite !buf_st_ne by congruence. reflexivity. }
  assert (H2 : forall m', buf (for_ (nz e) (fun k => for_ hs
                 (fun i => injection_body cfg e p k i)) m') q = buf m' q).
  { intros m'. apply for2_frame. intros k i m2. unfold injection_body.
    destruct (in_band cfg e k); [|reflexivity]. cbv zeta.
    rewrite !buf_st_ne by congruence. reflexivity. }
  destruct (Z.eqb (data_spec_int cfg) DATA_SPEC_INJECTION); [|apply H1].
  destruct (Z.eqb (myrank e) 0); [|apply H1].
  rewrite H2. apply H1.
Qed.

Lemma set_halo_values_z_other (p q : ptr) (m : mem) :
  q <> p -> buf (set_halo_values_z e p m) q = buf m q.
Proof.
  intros Hq. unfold set_halo_values_z. apply for2_frame. intros ll i m2.
  unfold halo_z_body.
  destruct (Nat.eqb ll ID_WMOM); [|destruct (Nat.eqb ll ID_UMOM)]; cbv zeta;
    rewrite !buf_st_ne by congruence; reflexivity.
Qed.

Lemma update_loop_other (pi po q : ptr) (dt : F) (m : mem) :
  q <> po -> q <> Ptend -> buf (update_loop cfg e pi po dt m) q = buf m q.
Proof.
  intros Ho Ht. unfold update_loop. apply for3_frame. intros ll k i m2.
  unfold update_body. cbv zeta.
  destruct (Z.eqb (data_spec_int cfg) DATA_SPEC_GRAVITY_WAVES);
    rewrite !buf_st_ne by congruence; reflexivity.
Qed.

Lemma stage_rhs_other (pf q : ptr) (dt : F) (dir : Z) (m : mem) :
  q <> pf -> q <> Pflux -> q <> Ptend -> buf (stage_rhs cfg e pf dt dir m) q = buf m q.
Proof.
  intros Hf Hfl Ht. unfold stage_rhs. destruct (Z.eqb dir DIR_X).
  - rewrite compute_tendencies_x_frame by auto. apply set_halo_values_x_other. exact Hf.
  - destruct (Z.eqb dir DIR_Z); [|reflexivity].
    rewrite compute_tendencies_z_frame by auto. apply set_halo_values_z_other. exact Hf.
Qed.

End StageFrame.

(** X17. A stage stores into the array it is given as [state_forcing]
    (the halo cells), into the one given as [state_out], and into [flux]
    and [tend]; a state array that is neither is left exactly as it was.
    So the primary array is read-only in the second stage of every sweep. *)
Theorem semi_discrete_step_leaves_other_array `{A : Arith}
    (cfg : config) (e : env) (pi pf po q : ptr) (dt : F) (dir : Z) (m : mem) :
  is_state q -> q <> pf -> q <> po ->
  buf (semi_discrete_step cfg e pi pf po dt dir Pflux Ptend m) q = buf m q.
Proof.
  intros Hq Hf Ho. destruct (state_ne_flux_tend q Hq) as (Hfl & Ht).
  rewrite semi_discrete_step_stage_rhs.
  rewrite update_loop_other by auto. apply stage_rhs_other; auto.
Qed.

Lemma semi_discrete_step_leaves_other_array_witness :
  buf (semi_discrete_step (demo_cfg 3) demo_env Pstate Pstate_tmp Pstate_tmp 1%R DIR_X
         Pflux Ptend alias_mem) Pstate
  = buf alias_mem Pstate.
Proof.
  apply (semi_discrete_step_leaves_other_array (demo_cfg 3) demo_env Pstate Pstate_tmp
           Pstate_tmp Pstate 1%R DIR_X alias_mem).
  - left; reflexivity.
  - discriminate.
  - discriminate.
Defined.

Section ScratchIndependence.
Context `{A : Arith}.
Variable cfg : config.
Variable e : env.
Hypothesis Hnx : 2 <= nx e.
Hypothesis Hnz : 1 <= nz e.

(** The interior a stage leaves in [state_out] is a function of the
    interiors of [state_init] and [state_forcing]. *)
Lemma stage_interior_ext (pi pf po : ptr) (dt : F) (dir : Z) (m m' : mem) :
  is_state pi -> is_state pf -> is_state po -> dir = DIR_X \/ dir = DIR_Z ->
  wf e m -> wf e m' ->
  feq e (interior e m pi) (interior e m' pi) ->
  feq e (interior e m pf) (interior e m' pf) ->
  feq e (interior e (semi_discrete_step cfg e pi pf po dt dir Pflux Ptend m) po)
        (interior e (semi_discrete_step cfg e pi pf po dt dir Pflux Ptend m') po).
Proof using Hnx Hnz.
  intros Hpi Hpf Hpo Hdir Hm Hm' Hi Hf.
  destruct (semi_discrete_step_spec cfg e Hnx Hnz pi pf po dt dir m Hpi Hpf Hpo Hdir Hm)
    as (_ & Ho & _).
  destruct (semi_discrete_step_spec cfg e Hnx Hnz pi pf po dt dir m' Hpi Hpf Hpo Hdir Hm')
    as (_ & Ho' & _).
  assert (Hr : feq e (rhs cfg e dir pf dt m) (rhs cfg e dir pf dt m')).
  { intros ll k i Hl Hk Hi'.
    rewrite (rhs_heap_field cfg e Hnx Hnz dir pf dt m) by auto.
    rewrite (rhs_heap_field cfg e Hnx Hnz dir pf dt m') by auto.
    apply (rhs_f_ext cfg e Hnx Hnz); auto. }
  intros ll k i Hl Hk Hi'. rewrite Ho, Ho' by auto. rewrite Hi by auto.
  unfold stage_tend.
  rewrite (Hr ll k i) by auto.
  rewrite (Hr ID_WMOM k i) by (auto; unfold ID_WMOM, NUM_VARS; lia).
  reflexivity.
Qed.

Lemma sweep_interior_ext (dir : Z) (dt : F) (m m' : mem) :
  dir = DIR_X \/ dir = DIR_Z -> wf e m -> wf e m' ->
  feq e (interior e m Pstate) (interior e m' Pstate) ->
  wf e (sweep cfg e dir dt m) /\ wf e (sweep cfg e dir dt m') /\
  feq e (interior e (sweep cfg e dir dt m) Pstate) (interior e (sweep cfg e dir dt m') Pstate).
Proof using Hnx Hnz.
  intros Hdir Hm Hm' HQ. unfold sweep. cbv zeta.
  assert (HS : is_state Pstate) by (left; reflexivity).
  assert (HT : is_state Pstate_tmp) by (right; reflexivity).
  set (d3 := fdiv dt (of_int 3)). set (d2 := fdiv dt (of_int 2)). set (d1 := fdiv dt (of_int 1)).
  set (m1 := semi_discrete_step cfg e Pstate Pstate Pstate_tmp d3 dir Pflux Ptend m).
  set (m1' := semi_discrete_step cfg e Pstate Pstate Pstate_tmp d3 dir Pflux Ptend m').
  destruct (semi_discrete_step_spec cfg e Hnx Hnz Pstate Pstate Pstate_tmp d3 dir m
              HS HS HT Hdir Hm) as (Hw1 & _ & Hf1).
  destruct (semi_discrete_step_spec cfg e Hnx Hnz Pstate Pstate Pstate_tmp d3 dir m'
              HS HS HT Hdir Hm') as (Hw1' & _ & Hf1').
  fold m1 in Hw1, Hf1. fold m1' in Hw1', Hf1'.
  assert (HT1 : feq e (interior e m1 Pstate_tmp) (interior e m1' Pstate_tmp))
    by (apply stage_interior_ext; auto).
  assert (HS1 : feq e (interior e m1 Pstate) (interior e m1' Pstate)).
  { intros ll k i Hl Hk Hi.
    rewrite (Hf1 Pstate ll k i HS ltac:(discriminate)) by auto.
    rewrite (Hf1' Pstate ll k i HS ltac:(discriminate)) by auto. apply HQ; auto. }
  set (m2 := semi_discrete_step cfg e Pstate Pstate_tmp Pstate_tmp d2 dir Pflux Ptend m1).
  set (m2' := semi_discrete_step cfg e Pstate Pstate_tmp Pstate_tmp d2 dir Pflux Ptend m1').
  destruct (semi_discrete_step_spec cfg e Hnx Hnz Pstate Pstate_tmp Pstate_tmp d2 dir m1
              HS HT HT Hdir Hw1) as (Hw2 & _ & Hf2).
  destruct (semi_discrete_step_spec cfg e Hnx Hnz Pstate Pstate_tmp Pstate_tmp d2 dir m1'
              HS HT HT Hdir Hw1') as (Hw2' & _ & Hf2').
  fold m2 in Hw2, Hf2. fold m2' in Hw2', Hf2'.
  assert (HT2 : feq e (interior e m2 Pstate_tmp) (interior e m2' Pstate_tmp))
    by (apply stage_interior_ext; auto).
  assert (HS2 : feq e (interior e m2 Pstate) (interior e m2' Pstate)).
  { intros ll k i Hl Hk Hi.
    rewrite (Hf2 Pstate ll k i HS ltac:(discriminate)) by auto.
    rewrite (Hf2' Pstate ll k i HS ltac:(discriminate)) by auto. apply HS1; auto. }
  destruct (semi_discrete_step_spec cfg e Hnx Hnz Pstate Pstate_tmp Pstate d1 dir m2
              HS HT HS Hdir Hw2) as (Hw3 & _ & _).
  destruct (semi_discrete_step_spec cfg e Hnx Hnz Pstate Pstate_tmp Pstate d1 dir m2'
              HS HT HS Hdir Hw2') as (Hw3' & _ & _).
  split; [exact Hw3|]. split; [exact Hw3'|].
  apply stage_interior_ext; auto.
Qed.

End ScratchIndependence.

(** X18. [state_tmp], [flux], [tend] and the halo cells of [state] are
    scratch for the time step: on a grid with at least two columns and one
    row, two heaps that agree on the interior cells of [state] agree there
    again after [perform_timestep], whatever else they hold, in every
    scenario and every arithmetic; and [reductions] then returns the same
    totals for both. *)
Theorem perform_timestep_depends_on_state_interior `{A : Arith}
    (cfg : config) (e : env) (dt : F) (m m' : mem) (direction_switch : Z) :
  2 <= nx e -> 1 <= nz e -> wf e m -> wf e m' ->
  (forall ll k i, ll < NUM_VARS -> k < nz e -> i < nx e ->
     interior e m Pstate ll k i = interior e m' Pstate ll k i) ->
  let r := perform_timestep cfg e Pstate Pstate_tmp Pflux Ptend dt (m, direction_switch) in
  let r' := perform_timestep cfg e Pstate Pstate_tmp Pflux Ptend dt (m', direction_switch) in
  (forall ll k i, ll < NUM_VARS -> k < nz e -> i < nx e ->
     interior e (fst r) Pstate ll k i = interior e (fst r') Pstate ll k i) /\
  snd r = snd r' /\
  reductions cfg e (fst r) = reductions cfg e (fst r').
Proof.
  intros Hnx Hnz Hm Hm' HQ r r'.
  assert (Hint : feq e (interior e (fst r) Pstate) (interior e (fst r') Pstate)).
  { unfold r, r'. rewrite !perform_timestep_unfold.
    destruct (negb (Z.eqb direction_switch 0)); cbn [fst].
    - destruct (sweep_interior_ext cfg e Hnx Hnz DIR_X dt m m' (or_introl eq_refl) Hm Hm' HQ)
        as (Hw & Hw' & H1).
      apply (sweep_interior_ext cfg e Hnx Hnz DIR_Z dt _ _ (or_intror eq_refl) Hw Hw' H1).
    - destruct (sweep_interior_ext cfg e Hnx Hnz DIR_Z dt m m' (or_intror eq_refl) Hm Hm' HQ)
        as (Hw & Hw' & H1).
      apply (sweep_interior_ext cfg e Hnx Hnz DIR_X dt _ _ (or_introl eq_refl) Hw Hw' H1). }
  split; [exact Hint|]. split.
  - unfold r, r'. rewrite !perform_timestep_unfold. reflexivity.
  - apply reductions_ext. exact Hint.
Qed.

Lemma perform_timestep_depends_on_state_interior_witness :
  let m' := st (st demo_mem Pstate_tmp 21 2%R) Ptend 0 3%R in
  let r := perform_timestep (demo_cfg 3) demo_env Pstate Pstate_tmp Pflux Ptend 1%R
             (demo_mem, 1%Z) in
  let r' := perform_timestep (demo_cfg 3) demo_env Pstate Pstate_tmp Pflux Ptend 1%R
              (m', 1%Z) in
  (forall ll k i, ll < NUM_VARS -> k < nz demo_env -> i < nx demo_env ->
     interior demo_env (fst r) Pstate ll k i = interior demo_env (fst r') Pstate ll k i) /\
  snd r = snd r' /\
  reductions (demo_cfg 3) demo_env (fst r) = reductions (demo_cfg 3) demo_env (fst r').
Proof.
  apply (perform_timestep_depends_on_state_interior (demo_cfg 3) demo_env 1%R demo_mem
           (st (st demo_mem Pstate_tmp 21 2%R) Ptend 0 3%R) 1%Z).
  - simpl; lia.
  - simpl; lia.
  - exact demo_wf.
  - intros q. rewrite !length_buf_st. apply demo_wf.
  - intros ll k i _ _ _. unfold interior. symmetry.
    rewrite !ld_st_ne by discriminate. reflexivity.
Defined.

(** ** The state [init] starts from *)

Section InitDensity.
Variable cfg : @config exact.
Variable junk : R.
Hypothesis Hknown : known_data_spec (data_spec_int cfg).

Local Abbreviation e0 := (init_env cfg junk).
#[local] Arguments st : simpl never.
#[local] Arguments ld : simpl never.
#[local] Arguments sidx : simpl never.

(** Every scenario routine returns a density perturbation of zero. *)
Lemma scenario_r (x z : R) (loc : @sample exact) : s_r (scenario cfg x z loc) = 0%R.
Proof using Hknown.
  unfold scenario.
  destruct Hknown as [H | [H | [H | [H | H]]]]; rewrite H; cbn [Z.eqb DATA_SPEC_COLLISION
    DATA_SPEC_THERMAL DATA_SPEC_GRAVITY_WAVES DATA_SPEC_DENSITY_CURRENT DATA_SPEC_INJECTION
    Pos.eqb].
  - unfold collision. destruct (@hydro_const_theta exact z). reflexivity.
  - unfold thermal. destruct (@hydro_const_theta exact z). reflexivity.
  - unfold gravity_waves. destruct (@hydro_const_bvfreq exact z _). reflexivity.
  - unfold density_current. destruct (@hydro_const_theta exact z). reflexivity.
  - unfold injection. destruct (@hydro_const_theta exact z). reflexivity.
Qed.

Lemma init_quad_body_r k i kk ii (s : mem * sample) :
  k < nz e0 + 2 * hs -> i < nx e0 + 2 * hs ->
  state_sized cfg junk (fst s) -> ld (fst s) Pstate (sidx e0 ID_DENS k i) = 0%R ->
  state_sized cfg junk (fst (init_quad_body cfg e0 k i kk ii s)) /\
  ld (fst (init_quad_body cfg e0 k i kk ii s)) Pstate (sidx e0 ID_DENS k i) = 0%R.
Proof using Hknown.
  intros Hk Hi Hsz H0. destruct s as [m loc]. cbn [fst] in Hsz, H0.
  unfold init_quad_body. cbv zeta.
  match goal with |- context [scenario cfg ?x ?z loc] =>
    pose proof (scenario_r x z loc) as Hr; destruct (scenario cfg x z loc) as [r u w t hr ht]
  end.
  simpl in Hr. subst r. simpl fst. split.
  - intros q Hq. rewrite !length_buf_st. apply Hsz. exact Hq.
  - rewrite !(ld_st_ne _ Pstate (sidx e0 _ k i) _ Pstate (sidx e0 ID_DENS k i))
      by (apply var_ne; auto; discriminate).
    rewrite (@ld_st_eq exact).
    + rewrite H0. simpl. ring.
    + rewrite (Hsz Pstate) by (left; reflexivity).
      apply sidx_lt; auto; [left; reflexivity | unfold ID_DENS, NUM_VARS; lia].
Qed.

Lemma init_cell_body_r k i (s : mem * sample) :
  k < nz e0 + 2 * hs -> i < nx e0 + 2 * hs -> state_sized cfg junk (fst s) ->
  forall q, is_state q -> ld (fst (init_cell_body cfg e0 k i s)) q (sidx e0 ID_DENS k i) = 0%R.
Proof using Hknown.
  intros Hk Hi Hsz. destruct s as [m loc]. cbn [fst] in Hsz. unfold init_cell_body.
  assert (HW : sidx e0 ID_DENS k i < block_size e0 Pstate).
  { apply sidx_lt; auto; [left; reflexivity | unfold ID_DENS, NUM_VARS; lia]. }
  set (m1 := for_ NUM_VARS (fun ll m => st m Pstate (sidx e0 ll k i) (of_int 0)) m).
  assert (H1 : state_sized cfg junk m1 /\ ld m1 Pstate (sidx e0 ID_DENS k i) = 0%R).
  { unfold m1, NUM_VARS. cbn [for_]. split.
    - intros q Hq. rewrite !length_buf_st. apply Hsz. exact Hq.
    - change (sidx e0 0 k i) with (sidx e0 ID_DENS k i).
      rewrite !(ld_st_ne _ Pstate (sidx e0 _ k i) _ Pstate (sidx e0 ID_DENS k i))
        by (apply var_ne; auto; discriminate).
      apply (@ld_st_eq exact). rewrite (Hsz Pstate) by (left; reflexivity). exact HW. }
  assert (H2 : let s2 := for_ nqpoints (fun kk => for_ nqpoints
                         (fun ii => init_quad_body cfg e0 k i kk ii)) (m1, loc) in
               state_sized cfg junk (fst s2)
               /\ ld (fst s2) Pstate (sidx e0 ID_DENS k i) = 0%R).
  { cbv zeta.
    apply (for_inv (fun s => state_sized cfg junk (fst s)
                             /\ ld (fst s) Pstate (sidx e0 ID_DENS k i) = 0%R)); [exact H1|].
    intros kk s1 _ Hs1.
    apply (for_inv (fun s => state_sized cfg junk (fst s)
                             /\ ld (fst s) Pstate (sidx e0 ID_DENS k i) = 0%R)); [exact Hs1|].
    intros ii s2 _ (Hs2 & Hz2). apply init_quad_body_r; auto. }
  cbv zeta in H2.
  destruct (for_ nqpoints _ (m1, loc)) as [m2 loc2]. cbn [fst] in H2.
  destruct H2 as (Hsz2 & Hz2).
  unfold NUM_VARS. cbn [for_ fst].
  assert (HT : forall j j' : nat, (Pstate_tmp, j) <> (Pstate, j'))
    by (intros j j' Heq; discriminate).
  change (sidx e0 0 k i) with (sidx e0 ID_DENS k i).
  intros q [-> | ->].
  - rewrite !ld_st_ne by apply HT. exact Hz2.
  - rewrite ?(ld_st_ne _ Pstate_tmp _ _ Pstate) by apply HT.
    rewrite !(ld_st_ne _ Pstate_tmp (sidx e0 _ k i) _ Pstate_tmp (sidx e0 ID_DENS k i))
      by (apply var_ne; auto; discriminate).
    rewrite (@ld_st_eq exact); [exact Hz2|].
    rewrite (Hsz2 Pstate_tmp) by (right; reflexivity). exact HW.
Qed.

Lemma init_state_loop_r (junk_loc : @sample exact) q k i :
  is_state q -> k < nz e0 + 2 * hs -> i < nx e0 + 2 * hs ->
  ld (fst (init_state_loop cfg junk junk_loc)) q (sidx e0 ID_DENS k i) = 0%R.
Proof using Hknown.
  intros Hq Hk Hi. unfold init_state_loop.
  set (rows_done := fun (n : nat) (s : @mem exact * @sample exact) =>
         state_sized cfg junk (fst s) /\
         forall k' i', k' < n -> k' < nz e0 + 2 * hs -> i' < nx e0 + 2 * hs ->
           ld (fst s) q (sidx e0 ID_DENS k' i') = 0%R).
  assert (Hall : rows_done (nz e0 + 2 * hs)
            (for_ (nz e0 + 2 * hs)
               (fun k => for_ (nx e0 + 2 * hs) (fun i => init_cell_body cfg e0 k i))
               (init_mem cfg junk, junk_loc))).
  { apply (for_inv_idx rows_done).
    - split; [|intros; lia].
      intros p Hp. unfold init_mem, block_size, NUM_VARS, hs. simpl.
      destruct Hp as [-> | ->]; simpl; rewrite length_replicate; lia.
    - intros kr s1 Hkr (Hsz1 & Hz1).
      set (cols_done := fun (n : nat) (s : @mem exact * @sample exact) =>
             state_sized cfg junk (fst s) /\
             (forall k' i', k' < kr -> k' < nz e0 + 2 * hs -> i' < nx e0 + 2 * hs ->
                ld (fst s) q (sidx e0 ID_DENS k' i') = 0%R) /\
             (forall i', i' < n -> i' < nx e0 + 2 * hs ->
                ld (fst s) q (sidx e0 ID_DENS kr i') = 0%R)).
      assert (Hrow : cols_done (nx e0 + 2 * hs)
                (for_ (nx e0 + 2 * hs) (fun i => init_cell_body cfg e0 kr i) s1)).
      { apply (for_inv_idx cols_done).
        - split; [exact Hsz1|]. split; [exact Hz1|]. intros; lia.
        - intros ic s2 Hic (Hsz2 & Hz2 & Hc2).
          split; [apply init_cell_body_sized; exact Hsz2|]. split.
          + intros k' i' Hk' Hk'' Hi'.
            rewrite init_cell_body_other; auto. intros Heq. injection Heq as -> ->. lia.
          + intros i' Hi' Hi''. destruct (decide (i' = ic)) as [-> | Hne].
            * apply init_cell_body_r; auto.
            * rewrite init_cell_body_other; auto; [apply Hc2; lia|].
              intros Heq. injection Heq as ->. contradiction. }
      destruct Hrow as (Hsz3 & Hz3 & Hc3). split; [exact Hsz3|].
      intros k' i' Hk' Hk'' Hi'. destruct (decide (k' = kr)) as [-> | Hne].
      + apply Hc3; auto.
      + apply Hz3; auto. lia. }
  destruct Hall as (_ & Hz). apply Hz; auto.
Qed.

End InitDensity.

(** X19. Over the exact reals every known scenario starts from the
    background density and from rest in the vertical: after [init] the
    density perturbation and the z-momentum are zero in every cell of
    [state] and of [state_tmp], halo cells included. *)
Theorem init_density_and_vertical_momentum_zero
    (cfg : @config exact) (junk : R) (junk_loc : @sample exact) (q : ptr) (r i : nat) :
  known_data_spec (data_spec_int cfg) -> is_state q ->
  r < nz_glob cfg + 2 * hs -> i < nx_glob cfg + 2 * hs ->
  let g := init cfg junk junk_loc in
  ld (g_mem g) q (sidx (g_env g) ID_DENS r i) = 0%R /\
  ld (g_mem g) q (sidx (g_env g) ID_WMOM r i) = 0%R.
Proof.
  intros Hk Hq Hr Hi. cbv zeta. rewrite init_unfold. cbv zeta. cbn [g_env g_mem]. split.
  - apply (init_state_loop_r cfg junk Hk junk_loc q r i Hq Hr Hi).
  - apply (init_state_loop_w cfg junk Hk junk_loc q r i Hq Hr Hi).
Qed.

Lemma init_density_and_vertical_momentum_zero_witness :
  let g := init (demo_cfg 2) 0%R (Sample exact 0 0 0 0 0 0)%R in
  ld (g_mem g) Pstate (sidx (g_env g) ID_DENS 3 4) = 0%R /\
  ld (g_mem g) Pstate (sidx (g_env g) ID_WMOM 3 4) = 0%R.
Proof.
  apply (init_density_and_vertical_momentum_zero (demo_cfg 2) 0%R
           (Sample exact 0 0 0 0 0 0)%R Pstate 3 4).
  - right; left; reflexivity.
  - left; reflexivity.
  - simpl; lia.
  - simpl; lia.
Defined.

(** ** Errors of the writer *)

(** X20. With a non-negative [output_freq] the initial state is written
    before the first step: when that first NetCDF output fails, the
    program ends in [exit(-1)] without having stepped, whatever the
    number of iterations allowed. *)
Theorem first_output_failure_exits `{A : Arith}
    (cfg : config) (ncmpi : nat -> bool) (fuel : nat) (junk : F) (junk_loc : sample) :
  fle (of_int 0) (output_freq cfg) = true -> ncmpi 0 = false ->
  main cfg ncmpi fuel junk junk_loc = Exited (-1).
Proof.
  intros Hf Hn. rewrite main_unfold. unfold main_from. cbv zeta.
  destruct (reductions cfg _ _) as [mass0 te0].
  rewrite Hf. unfold output. cbn [r_num_out]. rewrite Hn. reflexivity.
Qed.

(** A configuration that writes output every ten seconds. *)
Definition output_cfg : @config exact := @Config exact 4 2 1%R 10%R 2.

Lemma first_output_failure_exits_witness :
  main output_cfg (fun _ => false) 5 0%R (Sample exact 0 0 0 0 0 0)%R = Exited (-1).
Proof.
  apply (first_output_failure_exits output_cfg (fun _ => false) 5 0%R
           (Sample exact 0 0 0 0 0 0)%R).
  - change (Rleb 0 10 = true). unfold Rleb. destruct (Rle_dec 0 10); [reflexivity | lra].
  - reflexivity.
Defined.

(** ** A row that is uniform in x *)

(** X21. Over the exact reals, a row of the state array that holds the
    same value in all its columns, halo columns included, variable by
    variable, gets an x-tendency of zero in every variable and every
    cell: [compute_tendencies_x] leaves a state that is uniform in x
    alone. *)
Theorem compute_tendencies_x_zero_on_uniform_row
    (cfg : @config exact) (e : @env exact) (p : ptr) (dt : R) (m : @mem exact) (ll k i : nat) :
  is_state p -> wf e m -> ll < NUM_VARS -> k < nz e -> i < nx e ->
  (forall l c, l < NUM_VARS -> c < nx e + 2 * hs ->
     ld m p (sidx e l (k + hs) c) = ld m p (sidx e l (k + hs) 0)) ->
  ld (compute_tendencies_x cfg e p Pflux Ptend dt m) Ptend (tidx e ll k i) = 0%R.
Proof.
  intros Hp Hm Hl Hk Hi Hu.
  destruct (compute_tendencies_x_spec cfg e p Hp dt m Hm) as (_ & Ht & _).
  rewrite Ht by auto. unfold tend_x_of.
  rewrite (flux_x_of_shift cfg e dt (grid e m p) (grid e m p) ll k (i + 1) i).
  - simpl. unfold Rdiv. ring.
  - intros l s Hl' Hs. unfold grid.
    rewrite (Hu l (i + 1 + s)) by (auto; unfold sten_size, hs in *; lia).
    rewrite (Hu l (i + s)) by (auto; unfold sten_size, hs in *; lia).
    reflexivity.
Qed.

Lemma nth_replicate_same {T : Type} (n i : nat) (v : T) : nth i (replicate n v) v = v.
Proof. revert i. induction n as [|n IH]; intros [|i]; simpl; auto. Qed.

Lemma compute_tendencies_x_zero_on_uniform_row_witness :
  ld (compute_tendencies_x (demo_cfg 2) demo_env Pstate Pflux Ptend 1%R demo_mem) Ptend
     (tidx demo_env 1 0 2) = 0%R.
Proof.
  apply (compute_tendencies_x_zero_on_uniform_row (demo_cfg 2) demo_env Pstate 1%R demo_mem
           1 0 2).
  - left; reflexivity.
  - exact demo_wf.
  - unfold NUM_VARS; lia.
  - simpl; lia.
  - simpl; lia.
  - intros l c Hl Hc. unfold ld.
    change (buf demo_mem Pstate) with (replicate 192 0%R).
    change (@of_int exact 0) with 0%R. rewrite !nth_replicate_same. reflexivity.
Defined.

(** ** The hydrostatic background *)

(** The density times potential temperature that the two background
    routines compute from a pressure gives that pressure back through the
    equation of state. *)
Lemma eos_round_trip (p t : R) :
  (0 < p)%R -> t <> 0%R ->
  @fmul exact C0
    (@fpow exact
       (@fmul exact (@fdiv exact (@fpow exact (@fdiv exact p C0) (@fdiv exact (of_int 1) gamm)) t) t)
       gamm) = p.
Proof.
  intros Hp Ht.
  assert (HC : (0 < @C0 exact)%R).
  { unfold C0. simpl. rewrite Rdec_neg. apply Rdiv_lt_0_compat; apply IZR_lt; reflexivity. }
  assert (Hg : (0 < @gamm exact)%R).
  { unfold gamm. simpl. rewrite Rdec_neg. apply Rdiv_lt_0_compat; apply IZR_lt; reflexivity. }
  set (c := @C0 exact) in *. set (g := @gamm exact) in *. clearbody c g.
  change (c * Rpower (Rpower (p / c) (1 / g) / t * t) g = p)%R.
  replace (Rpower (p / c) (1 / g) / t * t)%R with (Rpower (p / c) (1 / g)) by (field; exact Ht).
  rewrite Rpower_mult. replace (1 / g * g)%R with 1%R by (field; lra).
  rewrite Rpower_1 by (apply Rdiv_lt_0_compat; assumption).
  field. lra.
Qed.

(** X22. Over the exact reals, wherever the Exner pressure is positive,
    the density and potential temperature that [hydro_const_theta] and
    [hydro_const_bvfreq] return satisfy the equation of state at the
    hydrostatic pressure: [C0 * pow(r*t, gamm)] is [p0 * pow(exner, cp/rd)]. *)
Theorem hydrostatic_background_satisfies_equation_of_state (z bv_freq0 : R) :
  let exner_theta := (1 - (@grav exact) * z / ((@cp exact) * 300))%R in
  let t_bv := (300 * exp (bv_freq0 * bv_freq0 / (@grav exact) * z))%R in
  let exner_bv :=
    (1 - (@grav exact) * (@grav exact) / ((@cp exact) * bv_freq0 * bv_freq0) * (t_bv - 300) / (t_bv * 300))%R in
  (0 < exner_theta)%R -> (0 < exner_bv)%R ->
  (let '(r, t) := @hydro_const_theta exact z in
   ((@C0 exact) * Rpower (r * t) (@gamm exact) = (@p0 exact) * Rpower exner_theta ((@cp exact) / (@rd exact)))%R) /\
  (let '(r, t) := @hydro_const_bvfreq exact z bv_freq0 in
   ((@C0 exact) * Rpower (r * t) (@gamm exact) = (@p0 exact) * Rpower exner_bv ((@cp exact) / (@rd exact)))%R).
Proof.
  intros exner_theta t_bv exner_bv H1 H2.
  assert (Hp0 : (0 < @p0 exact)%R) by (unfold p0; simpl; lra).
  split.
  - unfold hydro_const_theta. cbv zeta.
    apply (eos_round_trip (@p0 exact * Rpower exner_theta (@cp exact / @rd exact))%R 300%R); [|lra].
    apply Rmult_lt_0_compat; [exact Hp0 | apply exp_pos].
  - unfold hydro_const_bvfreq. cbv zeta.
    apply (eos_round_trip (@p0 exact * Rpower exner_bv (@cp exact / @rd exact))%R t_bv).
    + apply Rmult_lt_0_compat; [exact Hp0 | apply exp_pos].
    + unfold t_bv. pose proof (exp_pos (bv_freq0 * bv_freq0 / (@grav exact) * z)). lra.
Qed.

Lemma hydrostatic_background_satisfies_equation_of_state_witness :
  (let '(r, t) := @hydro_const_theta exact 0%R in
   ((@C0 exact) * Rpower (r * t) (@gamm exact) = (@p0 exact) * Rpower (1 - (@grav exact) * 0 / ((@cp exact) * 300)) ((@cp exact) / (@rd exact)))%R) /\
  (let '(r, t) := @hydro_const_bvfreq exact 0%R 1%R in
   ((@C0 exact) * Rpower (r * t) (@gamm exact)
    = (@p0 exact) * Rpower (1 - (@grav exact) * (@grav exact) / ((@cp exact) * 1 * 1) * (300 * exp (1 * 1 / (@grav exact) * 0) - 300)
                       / (300 * exp (1 * 1 / (@grav exact) * 0) * 300)) ((@cp exact) / (@rd exact)))%R).
Proof.
  apply (hydrostatic_background_satisfies_equation_of_state 0%R 1%R).
  - replace ((@grav exact) * 0 / ((@cp exact) * 300))%R with 0%R by (unfold Rdiv; ring). lra.
  - replace (1 * 1 / (@grav exact) * 0)%R with 0%R by (unfold Rdiv; ring).
    rewrite exp_0.
    replace ((@grav exact) * (@grav exact) / ((@cp exact) * 1 * 1) * (300 * 1 - 300) / (300 * 1 * 300))%R with 0%R
      by (unfold Rdiv; ring).
    lra.
Defined.

(** * Conservation of mass *)

Section ConservationForm.
Context `{A : Arith}.
Variable cfg : config.
Variable e : env.





End ConservationForm.

(** ** Runs of the compiled program *)





